(** * Expense sharing: the ledger arithmetic engine

    A shallow embedding of [backend/src/utils/splitCalculator.ts]
    (the split resolver and its validator), of the balance simplifier
    that the handlers import from [utils/balanceSimplifier] (the greedy
    simplifier and the copy of the balances map; its text follows the
    split calculator in the same source file) and of the balances
    handler of [backend/src/modules/settlements/routes.ts].

    Numbers.  The code computes with two kinds of numbers.
    - [Decimal] is decimal.js as re-exported by Prisma, with its default
      configuration: precision 20 and rounding mode ROUND_HALF_UP.  A
      Decimal is embedded as the rational [Q] it denotes, compared with
      [==]; [plus], [minus], [times] and [dividedBy] round their exact
      result to 20 significant digits, as decimal.js does;
      [toDecimalPlaces], [abs], [Decimal.min] and the comparisons are
      exact.  The exponent limits of decimal.js (9e15) are not modelled.
    - A JavaScript [number] is an IEEE 754 double, embedded as the
      [spec_float] of the Standard Library at precision 53 and exponent
      bound 1024, with its additions, subtractions and comparisons.
      [new Decimal(n)] reads the digits that [n] prints as, the shortest
      decimal that reads back as [n]; [toNumber()] is the double nearest
      to the decimal.
    The Decimal values NaN and Infinity are not modelled: [new Decimal]
    of a number that is not finite is taken as 0, and the statements
    that depend on the Decimal of a supplied value are about finite
    values ([finite_values]). *)

From stdpp Require Import base option list gmap strings.
From Stdlib Require Import QArith Qround Qabs Qpower Lqa Lia.
From Stdlib Require Import Permutation SpecFloat.

#[local] Set Warnings "-clear-no-such-hyp".

Local Open Scope Q_scope.

(** ** Decimal: the operations of decimal.js that the engine uses *)

Module Decimal.

Definition t : Type := Q.

(** The two rounding modes that occur: [Decimal.ROUND_DOWN] (towards
    zero) and the default [Decimal.ROUND_HALF_UP] (to the nearest, a tie
    away from zero). *)
Inductive Rounding : Type := ROUND_DOWN | ROUND_HALF_UP.

Definition round_down (x : Q) : Z := Z.quot (Qnum x) (Zpos (Qden x)).

Definition round_half_up (x : Q) : Z :=
  (Z.sgn (Qnum x) * Qfloor (Qabs x + (1 # 2)))%Z.

Definition round_to_integer (rm : Rounding) (x : Q) : Z :=
  match rm with
  | ROUND_DOWN => round_down x
  | ROUND_HALF_UP => round_half_up x
  end.

(** [Decimal.precision], the number of significant digits of a
    result. *)
Definition precision : Z := 20.

(** The number of decimal digits of a positive integer. *)
Fixpoint digits10_fuel (fuel : nat) (n : Z) : Z :=
  match fuel with
  | O => 0
  | S fuel' => if (n <? 10)%Z then 1 else 1 + digits10_fuel fuel' (n / 10)
  end.

Definition digits10 (n : Z) : Z := digits10_fuel (S (Z.to_nat (Z.log2 n))) n.

(** The decimal exponent [e] of a value that is not zero:
    [10^e <= |x| < 10^(e+1)]. *)
Definition exponent (x : Q) : Z :=
  let e0 := (digits10 (Z.abs (Qnum x)) - digits10 (Zpos (Qden x)))%Z in
  if Qle_bool (10 ^ e0) (Qabs x) then e0 else (e0 - 1)%Z.

(** Rounding to [sd] significant digits, ROUND_HALF_UP: what decimal.js
    does to the result of an arithmetic operation. *)
Definition round_sd (sd : Z) (x : Q) : Q :=
  let x := Qred x in
  if Qeq_bool x 0 then 0
  else let scale := 10 ^ (sd - 1 - exponent x) in
       Qred (inject_Z (round_half_up (x * scale)) / scale).

Definition plus (x y : t) : t := round_sd precision (x + y).
Definition minus (x y : t) : t := round_sd precision (x - y).
Definition times (x y : t) : t := round_sd precision (x * y).
(** The divisors of the code are a length that is not 0 and 100. *)
Definition dividedBy (x y : t) : t := round_sd precision (x / y).
Definition abs (x : t) : t := Qabs x.

Definition greaterThan (x y : t) : bool :=
  match x ?= y with Gt => true | _ => false end.
Definition lessThan (x y : t) : bool :=
  match x ?= y with Lt => true | _ => false end.
Definition lessThanOrEqualTo (x y : t) : bool :=
  match x ?= y with Gt => false | _ => true end.

(** [Decimal.min(x, y)] keeps its first argument unless a later one is
    strictly smaller. *)
Definition min (x y : t) : t := if lessThan y x then y else x.

Definition pow10 (dp : nat) : Q := inject_Z (10 ^ Z.of_nat dp).

(** [x.toDecimalPlaces(dp, rm)] *)
Definition toDecimalPlaces (dp : nat) (rm : Rounding) (x : t) : t :=
  inject_Z (round_to_integer rm (x * pow10 dp)) / pow10 dp.

(** A decimal with at most two fraction digits: a whole number of
    cents. *)
Definition Money (x : t) : Prop := exists c : Z, x == inject_Z c / 100.

(** A whole number of cents below [10^18]: money that 20 significant
    digits hold. *)
Definition Cents (x : t) : Prop := Money x /\ Qabs x < 10 ^ 18.

End Decimal.

(** ** JavaScript [number]: IEEE 754 doubles *)

Definition number : Type := spec_float.

Module JSNumber.

Definition prec : Z := 53.
Definition emax : Z := 1024.

(** The double nearest to a rational, a tie going to the even mantissa:
    what a numeric literal denotes and what reading a decimal string
    gives.  The quotient of numerator and denominator goes through the
    division and the rounding of [SpecFloat]. *)
Definition of_Q (x : Q) : number :=
  match Qnum x with
  | Z0 => S754_zero false
  | Zpos p =>
      let '(m, e, l) :=
        SFdiv_core_binary prec emax (Zpos p) 0 (Zpos (Qden x)) 0 in
      binary_round_aux prec emax false m e l
  | Zneg p =>
      let '(m, e, l) :=
        SFdiv_core_binary prec emax (Zpos p) 0 (Zpos (Qden x)) 0 in
      binary_round_aux prec emax true m e l
  end.

(** The literals [0], [100] and [0.01] of the code. *)
Definition zero : number := S754_zero false.
Definition hundred : number := of_Q 100.
Definition one_cent : number := of_Q 0.01.

(** [x + y], [x - y] *)
Definition add : number -> number -> number := SFadd prec emax.
Definition sub : number -> number -> number := SFsub prec emax.

(** [x < y], [x > y], [x <= y]; a comparison with NaN is false. *)
Definition lt (x y : number) : bool := SFltb x y.
Definition gt (x y : number) : bool := SFltb y x.
Definition le (x y : number) : bool := SFleb x y.

(** [Math.abs(x)] *)
Definition Math_abs (x : number) : number := SFabs x.

(** [Number.isFinite(x)] *)
Definition isFinite (x : number) : bool :=
  match x with
  | S754_zero _ | S754_finite _ _ _ => true
  | _ => false
  end.

(** A double that is not negative: +0, a positive number, +Infinity, or
    NaN. *)
Definition not_negative (x : number) : bool :=
  match x with
  | S754_zero s | S754_finite s _ _ | S754_infinity s => negb s
  | S754_nan => true
  end.

(** [x || 0]: 0, -0 and NaN are falsy. *)
Definition truthy (x : number) : bool :=
  match x with
  | S754_zero _ | S754_nan => false
  | _ => true
  end.

(** [Number.prototype.toString] on a positive double [v] of value [x]
    with [10^(n-1) <= x < 10^n]: the decimal of the fewest digits [k],
    at most 17, that reads back as [v]; of two such decimals the one
    nearer to [x], and of two equally near the even one.  The decimals
    of [k] digits next to [x] are the only candidates, because the
    decimals that read back as [v] lie on both sides of [x] without a
    gap. *)
Fixpoint shortest (fuel : nat) (k n : Z) (x : Q) (v : number) : Q :=
  match fuel with
  | O => x
  | S fuel' =>
      let scale := 10 ^ (n - k) in
      let lo := Qfloor (x / scale) in
      let hi := (lo + 1)%Z in
      let dlo := inject_Z lo * scale in
      let dhi := inject_Z hi * scale in
      let reads_back d := SFeqb (of_Q d) v in
      match reads_back dlo, reads_back dhi with
      | true, true =>
          match (x - dlo) ?= (dhi - x) with
          | Lt => dlo
          | Gt => dhi
          | Eq => if Z.even lo then dlo else dhi
          end
      | true, false => dlo
      | false, true => dhi
      | false, false => shortest fuel' (k + 1)%Z n x v
      end
  end.

(** The decimal that a double prints as; 0 for NaN and the infinities,
    which have no decimal. *)
Definition toString_value (v : number) : Q :=
  match v with
  | S754_finite s m e =>
      let x := Qred (inject_Z (Zpos m) * 2 ^ e) in
      let d := Qred (shortest 17 1 (Decimal.exponent x + 1) x
                       (S754_finite false m e)) in
      if s then - d else d
  | _ => 0
  end.

End JSNumber.

(** [new Decimal(n)] for a number [n] *)
Definition new_Decimal (n : number) : Decimal.t := JSNumber.toString_value n.

(** [x.toNumber()] *)
Definition toNumber (x : Decimal.t) : number := JSNumber.of_Q x.

(** ** splitCalculator.ts *)

Module SplitCalculator.
Import Decimal.

Inductive SplitType : Type := EQUAL | EXACT | PERCENTAGE.

Record SplitInput : Type := mkSplitInput {
  userId : string;
  value : option number   (* [value?: number] *)
}.

Record ResolvedSplit : Type := mkResolvedSplit {
  rs_userId : string;
  amount : Decimal.t
}.

(** The [Error]s the resolver throws, one constructor per message
    template, holding what the template interpolates. *)
Inductive SplitError : Type :=
| AtLeastOneParticipant
    (* 'At least one participant is required' *)
| InvalidExactAmount (user : string)
    (* `Invalid exact amount for user ${p.userId}` *)
| ExactAmountsDontEqualTotal (sum total : Decimal.t)
    (* `Exact split amounts (${sum}) don't equal total (${totalAmount})` *)
| InvalidPercentage (user : string)
    (* `Invalid percentage for user ${p.userId}` *)
| PercentagesMustSumTo100 (totalPercentage : number)
    (* `Percentages must sum to 100, got ${totalPercentage}` *)
| TypeError.
    (* reading a property of [undefined] *)

Inductive result (A : Type) : Type :=
| Ok (a : A)
| Throw (e : SplitError).
Arguments Ok {A} a.
Arguments Throw {A} e.

#[export] Instance result_bind : MBind result := fun A B k r =>
  match r with Ok a => k a | Throw e => Throw e end.

(** [for (const p of l) { body }] where the body may throw. *)
Fixpoint for_of {A} (l : list A) (body : A -> result unit) : result unit :=
  match l with
  | [] => Ok tt
  | p :: l' => _ ← body p; for_of l' body
  end.

(** [p.value!]: only read after the loop that rejects a missing value;
    the fallback is never used on that path. *)
Definition value_bang (p : SplitInput) : number :=
  default JSNumber.zero (value p).

(** [p.value || 0] *)
Definition value_or_0 (p : SplitInput) : number :=
  match value p with
  | Some v => if JSNumber.truthy v then v else JSNumber.zero
  | None => JSNumber.zero
  end.

(** [new Decimal(participants.length)] *)
Definition count_of (participants : list SplitInput) : Decimal.t :=
  inject_Z (Z.of_nat (length participants)).

Definition resolveEqualSplit (totalAmount : Decimal.t)
    (participants : list SplitInput) : list ResolvedSplit :=
  let count := count_of participants in
  let baseAmount := toDecimalPlaces 2 ROUND_DOWN (dividedBy totalAmount count) in
  let totalBase := times baseAmount count in
  let remainder := minus totalAmount totalBase in
  imap (fun index p =>
          {| rs_userId := userId p;
             amount := if (index =? 0)%nat then plus baseAmount remainder
                       else baseAmount |})
       participants.

Definition resolveExactSplit (totalAmount : Decimal.t)
    (participants : list SplitInput) : result (list ResolvedSplit) :=
  _ ← for_of participants (fun p =>
            match value p with
            | None => Throw (InvalidExactAmount (userId p))
            | Some v => if JSNumber.lt v JSNumber.zero
                        then Throw (InvalidExactAmount (userId p))
                        else Ok tt
            end);
  let sum :=
    foldl (fun acc p => plus acc (new_Decimal (value_bang p))) 0 participants in
  if greaterThan (abs (minus sum totalAmount)) 0.01
  then Throw (ExactAmountsDontEqualTotal sum totalAmount)
  else Ok (map (fun p =>
                  {| rs_userId := userId p;
                     amount := toDecimalPlaces 2 ROUND_HALF_UP
                                 (new_Decimal (value_bang p)) |})
               participants).

Definition resolvePercentageSplit (totalAmount : Decimal.t)
    (participants : list SplitInput) : result (list ResolvedSplit) :=
  _ ← for_of participants (fun p =>
            match value p with
            | None => Throw (InvalidPercentage (userId p))
            | Some v => if JSNumber.lt v JSNumber.zero
                           || JSNumber.gt v JSNumber.hundred
                        then Throw (InvalidPercentage (userId p))
                        else Ok tt
            end);
  let totalPercentage :=
    foldl (fun acc p => JSNumber.add acc (value_bang p)) JSNumber.zero
          participants in
  if JSNumber.gt (JSNumber.Math_abs (JSNumber.sub totalPercentage
                                                  JSNumber.hundred))
                 JSNumber.one_cent
  then Throw (PercentagesMustSumTo100 totalPercentage)
  else
    let splits :=
      map (fun p =>
             {| rs_userId := userId p;
                amount := toDecimalPlaces 2 ROUND_DOWN
                            (dividedBy
                               (times totalAmount (new_Decimal (value_bang p)))
                               100) |})
          participants in
    let calculatedSum := foldl (fun acc s => plus acc (amount s)) 0 splits in
    let remainder := minus totalAmount calculatedSum in
    if greaterThan remainder 0
    then match splits !! 0%nat with
         | Some s0 =>
             Ok (<[0%nat := {| rs_userId := rs_userId s0;
                               amount := plus (amount s0) remainder |}]> splits)
         | None => Throw TypeError
         end
    else Ok splits.

(** [splitType] has the three values of the TypeScript union, so the
    [default] arm of the [switch] has no input.  [payerId] is a
    parameter that the body never reads. *)
Definition resolveSplits (totalAmount : Decimal.t) (splitType : SplitType)
    (participants : list SplitInput) (payerId : string)
    : result (list ResolvedSplit) :=
  if (length participants =? 0)%nat then Throw AtLeastOneParticipant
  else match splitType with
       | EQUAL => Ok (resolveEqualSplit totalAmount participants)
       | EXACT => resolveExactSplit totalAmount participants
       | PERCENTAGE => resolvePercentageSplit totalAmount participants
       end.

(** The messages [validateSplitInput] pushes, one constructor per
    template. *)
Inductive ValidationMessage : Type :=
| MsgAtLeastOneParticipant
    (* 'At least one participant is required' *)
| MsgAmountGreaterThan0
    (* 'Amount must be greater than 0' *)
| MsgDuplicateParticipants
    (* 'Duplicate participants are not allowed' *)
| MsgExactMustSumTo (totalAmount sum : number)
    (* `Exact amounts must sum to ${totalAmount}, got ${sum.toFixed(2)}` *)
| MsgPercentagesMustSumTo100 (sum : number).
    (* `Percentages must sum to 100, got ${sum.toFixed(2)}` *)

(** [errors.push(msg)] under a condition. *)
Definition push_if (c : bool) (msg : ValidationMessage)
    (errors : list ValidationMessage) : list ValidationMessage :=
  if c then errors ++ [msg] else errors.

Definition validateSplitInput (splitType : SplitType) (totalAmount : number)
    (participants : list SplitInput) : list ValidationMessage :=
  let errors := [] in
  let errors := push_if (length participants =? 0)%nat
                  MsgAtLeastOneParticipant errors in
  let errors := push_if (JSNumber.le totalAmount JSNumber.zero)
                  MsgAmountGreaterThan0 errors in
  let userIds := map userId participants in
  let uniqueIds : gset string := list_to_set userIds in
  let errors := push_if (negb (size uniqueIds =? length userIds)%nat)
                  MsgDuplicateParticipants errors in
  let errors :=
    match splitType with
    | EXACT =>
        let sum := foldl (fun acc p => JSNumber.add acc (value_or_0 p))
                         JSNumber.zero participants in
        push_if (JSNumber.gt (JSNumber.Math_abs (JSNumber.sub sum totalAmount))
                             JSNumber.one_cent)
          (MsgExactMustSumTo totalAmount sum) errors
    | _ => errors
    end in
  let errors :=
    match splitType with
    | PERCENTAGE =>
        let sum := foldl (fun acc p => JSNumber.add acc (value_or_0 p))
                         JSNumber.zero participants in
        push_if (JSNumber.gt (JSNumber.Math_abs (JSNumber.sub sum
                                                   JSNumber.hundred))
                             JSNumber.one_cent)
          (MsgPercentagesMustSumTo100 sum) errors
    | _ => errors
    end in
  errors.

(** *** The vocabulary of the statements *)

Definition sumAmounts (splits : list ResolvedSplit) : Q :=
  foldr (fun s acc => amount s + acc) 0 splits.

Definition share (u : string) (a : Q) : ResolvedSplit :=
  {| rs_userId := u; amount := a |}.

(** Two lists of shares that agree on the users and, as decimals, on
    the amounts. *)
Definition same_shares (xs ys : list ResolvedSplit) : Prop :=
  Forall2 (fun x y => rs_userId x = rs_userId y /\ amount x == amount y) xs ys.

(** The decimal the resolver makes of the value a participant
    supplies. *)
Definition decimal_value (p : SplitInput) : Decimal.t :=
  new_Decimal (value_bang p).

(** The sum of these decimals, as a rational. *)
Definition sumValues (participants : list SplitInput) : Q :=
  foldr (fun p acc => decimal_value p + acc) 0 participants.

(** The sum the Exact resolver takes: Decimal additions from 0, in input
    order. *)
Definition decimal_sum (participants : list SplitInput) : Decimal.t :=
  foldl (fun acc p => plus acc (decimal_value p)) 0 participants.

(** The sums of doubles that the Percentage resolver and the validator
    take: additions from 0, in input order. *)
Definition number_sum (f : SplitInput -> number)
    (participants : list SplitInput) : number :=
  foldl (fun acc p => JSNumber.add acc (f p)) JSNumber.zero participants.

(** The tolerance test on doubles: [Math.abs(sum - target) > 0.01] is
    false. *)
Definition within_one_cent (sum target : number) : Prop :=
  JSNumber.gt (JSNumber.Math_abs (JSNumber.sub sum target)) JSNumber.one_cent
  = false.

(** Every value that is supplied is a finite number: neither NaN nor an
    infinity, whose Decimal the embedding does not have. *)
Definition finite_values (participants : list SplitInput) : Prop :=
  Forall (fun p => JSNumber.isFinite (value_bang p) = true) participants.

(** What the two validation loops accept: a value that is there and for
    which [v < 0] (and [v > 100]) is false. *)
Definition exact_value_ok (p : SplitInput) : Prop :=
  exists v, value p = Some v /\ JSNumber.lt v JSNumber.zero = false.

Definition percentage_value_ok (p : SplitInput) : Prop :=
  exists v, value p = Some v
            /\ JSNumber.lt v JSNumber.zero = false
            /\ JSNumber.gt v JSNumber.hundred = false.

Definition exact_shares (participants : list SplitInput) : list ResolvedSplit :=
  map (fun p => share (userId p)
                  (toDecimalPlaces 2 ROUND_HALF_UP (decimal_value p)))
      participants.

(** The Percentage shares before the remainder is handed out, as the
    code computes them. *)
Definition percentage_cuts (totalAmount : Q) (participants : list SplitInput)
    : list ResolvedSplit :=
  map (fun p => share (userId p)
                  (toDecimalPlaces 2 ROUND_DOWN
                     (dividedBy (times totalAmount (decimal_value p)) 100)))
      participants.

(** The base amount and the remainder of an Equal split, and the
    remainder of a Percentage split, as the code computes them. *)
Definition baseAmount (totalAmount : Q) (participants : list SplitInput)
    : Decimal.t :=
  toDecimalPlaces 2 ROUND_DOWN (dividedBy totalAmount (count_of participants)).

Definition equal_remainder (totalAmount : Q) (participants : list SplitInput)
    : Decimal.t :=
  minus totalAmount
        (times (baseAmount totalAmount participants) (count_of participants)).

Definition percentage_remainder (totalAmount : Q)
    (participants : list SplitInput) : Decimal.t :=
  minus totalAmount
        (foldl (fun acc s => plus acc (amount s)) 0
               (percentage_cuts totalAmount participants)).

(** The Equal rule in the words of the specification, in exact
    arithmetic: everybody gets the floor of [totalAmount / count] to two
    decimals, the first in addition the whole remainder. *)
Definition equal_base (totalAmount : Q) (participants : list SplitInput) : Q :=
  inject_Z (Qfloor (totalAmount / count_of participants * 100)) / 100.

Definition equal_shares (totalAmount : Q) (participants : list SplitInput)
    : list ResolvedSplit :=
  let base := equal_base totalAmount participants in
  let remainder := totalAmount - base * count_of participants in
  imap (fun index p =>
          share (userId p)
                (if (index =? 0)%nat then base + remainder else base))
       participants.

(** The Percentage rule in the words of the specification, in exact
    arithmetic: the floors of [totalAmount * value / 100] to two
    decimals, the first raised by the remainder when that is strictly
    positive. *)
Definition percentage_floors (totalAmount : Q) (participants : list SplitInput)
    : list ResolvedSplit :=
  map (fun p => share (userId p)
                  (inject_Z (Qfloor (totalAmount * decimal_value p)) / 100))
      participants.

Definition raise_first (remainder : Q) (splits : list ResolvedSplit)
    : list ResolvedSplit :=
  match splits with
  | s0 :: rest =>
      share (rs_userId s0)
        (amount s0 + (if Qlt_le_dec 0 remainder then remainder else 0)) :: rest
  | [] => []
  end.

Definition percentage_shares (totalAmount : Q) (participants : list SplitInput)
    : list ResolvedSplit :=
  let floors := percentage_floors totalAmount participants in
  raise_first (totalAmount - sumAmounts floors) floors.

(** A percentage with at most two fraction digits, between 0 and
    100. *)
Definition plain_percentage (p : SplitInput) : Prop :=
  Money (decimal_value p) /\ 0 <= decimal_value p /\ decimal_value p <= 100.

(** The rule a message of the validator stands for; the two sum
    messages are not among the three rules of C6. *)
Definition rule_broken (amount : number) (participants : list SplitInput)
    (msg : ValidationMessage) : Prop :=
  match msg with
  | MsgAtLeastOneParticipant => participants = []
  | MsgAmountGreaterThan0 => JSNumber.le amount JSNumber.zero = true
  | MsgDuplicateParticipants => ~ NoDup (map userId participants)
  | _ => False
  end.

(** *** Inputs of the tests and of the examples *)

(** A numeric literal. *)
Definition num (x : Q) : number := JSNumber.of_Q x.

Definition test_percentages : list SplitInput :=
  [mkSplitInput "user1" (Some (num 33.33));
   mkSplitInput "user2" (Some (num 33.33));
   mkSplitInput "user3" (Some (num 33.34))].

Definition abc : list SplitInput :=
  [mkSplitInput "A" None; mkSplitInput "B" None; mkSplitInput "C" None].

Definition missing_value : list SplitInput :=
  [mkSplitInput "A" None; mkSplitInput "B" (Some (num 100))].

Definition thirty_thirty : list SplitInput :=
  [mkSplitInput "A" (Some (num 30)); mkSplitInput "B" (Some (num 30))].

Definition twice_user1 : list SplitInput :=
  [mkSplitInput "user1" None; mkSplitInput "user1" None].

End SplitCalculator.
(** ** balanceSimplifier.ts *)

Module BalanceSimplifier.
Import Decimal.

Record UserBalance : Type := mkUserBalance {
  userId : string;
  balance : Decimal.t   (* positive = creditor, negative = debtor *)
}.

Record Settlement : Type := mkSettlement {
  fromUserId : string;
  toUserId : string;
  amount : Decimal.t
}.

(** The first [for] loop: one iteration, on the pair of arrays built so
    far. *)
Definition partition_step (acc : list UserBalance * list UserBalance)
    (b : UserBalance) : list UserBalance * list UserBalance :=
  let '(creditors, debtors) := acc in
  if greaterThan (balance b) 0
  then (creditors ++ [{| userId := userId b; balance := balance b |}], debtors)
  else if lessThan (balance b) 0
  then (creditors, debtors ++ [{| userId := userId b; balance := abs (balance b) |}])
  else (creditors, debtors).

(** [Array.prototype.sort(compareFn)]: a stable sort; [x] stays in front
    of [y] unless [compareFn(x, y) > 0].  With a comparator that orders
    consistently the result of a stable sort is unique, and insertion
    from the right computes it; with one that does not, the order is up
    to the engine, and the statements below only use that the result is
    a permutation. *)
Fixpoint sort_insert {A} (compareFn : A -> A -> number) (x : A) (l : list A)
    : list A :=
  match l with
  | [] => [x]
  | y :: l' => if JSNumber.gt (compareFn x y) JSNumber.zero
               then y :: sort_insert compareFn x l'
               else x :: y :: l'
  end.

Definition Array_sort {A} (compareFn : A -> A -> number) (l : list A) : list A :=
  foldr (sort_insert compareFn) [] l.

(** [(a, b) => b.balance.minus(a.balance).toNumber()] *)
Definition sortByBalance (a b : UserBalance) : number :=
  toNumber (minus (balance b) (balance a)).

(** The variables of the [while] loop.  The two arrays hold the running
    balances: the loop writes to [creditor.balance] and
    [debtor.balance] in place. *)
Record LoopState : Type := mkLoopState {
  creditors : list UserBalance;
  debtors : list UserBalance;
  creditorIdx : nat;
  debtorIdx : nat;
  settlements : list Settlement
}.

Definition loop_cond (st : LoopState) : bool :=
  (creditorIdx st <? length (creditors st))%nat
  && (debtorIdx st <? length (debtors st))%nat.

(** The loop body once [creditor] and [debtor] have been read. *)
Definition transfer (st : LoopState) (creditor debtor : UserBalance)
    : LoopState :=
  let transferAmount := min (balance creditor) (balance debtor) in
  let settlements' :=
    if greaterThan transferAmount 0
    then settlements st ++
           [{| fromUserId := userId debtor;
               toUserId := userId creditor;
               amount := toDecimalPlaces 2 ROUND_HALF_UP transferAmount |}]
    else settlements st in
  let creditor' := {| userId := userId creditor;
                      balance := minus (balance creditor) transferAmount |} in
  let debtor' := {| userId := userId debtor;
                    balance := minus (balance debtor) transferAmount |} in
  {| creditors := <[creditorIdx st := creditor']> (creditors st);
     debtors := <[debtorIdx st := debtor']> (debtors st);
     creditorIdx := if lessThanOrEqualTo (balance creditor') 0
                    then S (creditorIdx st) else creditorIdx st;
     debtorIdx := if lessThanOrEqualTo (balance debtor') 0
                  then S (debtorIdx st) else debtorIdx st;
     settlements := settlements' |}.

(** One run of the loop body; [None] is the [TypeError] of reading
    [.balance] of an index out of range. *)
Definition loop_body (st : LoopState) : option LoopState :=
  creditor ← creditors st !! creditorIdx st;
  debtor ← debtors st !! debtorIdx st;
  Some (transfer st creditor debtor).

(** [while (cond) { body }], at most [fuel] runs of the body; [None]
    when the fuel runs out or the body throws. *)
Fixpoint while_loop (fuel : nat) (st : LoopState) : option LoopState :=
  if loop_cond st
  then match fuel with
       | O => None
       | S fuel' => st' ← loop_body st; while_loop fuel' st'
       end
  else Some st.

Definition partition (balances : list UserBalance)
    : list UserBalance * list UserBalance :=
  foldl partition_step ([], []) balances.

Definition initial_state (balances : list UserBalance) : LoopState :=
  let '(creditors, debtors) := partition balances in
  {| creditors := Array_sort sortByBalance creditors;
     debtors := Array_sort sortByBalance debtors;
     creditorIdx := 0;
     debtorIdx := 0;
     settlements := [] |}.

(** Every run of the body moves at least one of the two cursors, so the
    two lengths together bound the number of runs (lemma
    [while_loop_terminates] below). *)
Definition simplifyBalances (balances : list UserBalance)
    : option (list Settlement) :=
  let st0 := initial_state balances in
  st ← while_loop (length (creditors st0) + length (debtors st0)) st0;
  Some (settlements st).

(** The two arrays the first loop builds. *)
Definition creditors_of (balances : list UserBalance) : list UserBalance :=
  map (fun b => {| userId := userId b; balance := balance b |})
      (List.filter (fun b => greaterThan (balance b) 0) balances).

Definition debtors_of (balances : list UserBalance) : list UserBalance :=
  map (fun b => {| userId := userId b; balance := abs (balance b) |})
      (List.filter (fun b => lessThan (balance b) 0) balances).

(** What is left to walk: the number of runs of the loop is at most
    this. *)
Definition remaining (st : LoopState) : nat :=
  (length (creditors st) - creditorIdx st)
  + (length (debtors st) - debtorIdx st).

Definition sumTransfers (out : list Settlement) : Q :=
  foldr (fun s acc => amount s + acc) 0 out.

Definition sumPositive (balances : list UserBalance) : Q :=
  foldr (fun b acc => (if greaterThan (balance b) 0 then balance b else 0) + acc)
        0 balances.

Definition sumBalances (balances : list UserBalance) : Q :=
  foldr (fun b acc => balance b + acc) 0 balances.

Definition numCreditors (balances : list UserBalance) : nat :=
  length (List.filter (fun b => greaterThan (balance b) 0) balances).

Definition numDebtors (balances : list UserBalance) : nat :=
  length (List.filter (fun b => lessThan (balance b) 0) balances).

Definition ub (u : string) (x : Q) : UserBalance :=
  {| userId := u; balance := x |}.

(** *** Inputs of the tests and of the examples *)

(** Two inputs on which the loop goes wrong: balances below a cent, and
    whole cents of more than 20 digits. *)
Definition below_a_cent : list UserBalance :=
  [ub "A" 0.004; ub "B" (-0.004)].

Definition beyond_20_digits : list UserBalance :=
  [ub "A" 100000000000000000000.02; ub "B" (-60000000000000000000.01);
   ub "C" (-40000000000000000000.01)].

Definition two_and_two : list UserBalance :=
  [ub "creditor1" 30; ub "creditor2" 20; ub "debtor1" (-25); ub "debtor2" (-25)].

Definition with_neutral : list UserBalance :=
  [ub "creditor" 50; ub "neutral" 0; ub "debtor" (-50)].

Definition debtor_of_two : list UserBalance :=
  [ub "A" (-8); ub "B" 5; ub "C" 3].

(** *** Invariants of the [while] loop *)

(** Every running balance is a whole number of cents. *)
Definition Inv_money (st : LoopState) : Prop :=
  Forall (fun b => Money (balance b)) (creditors st)
  /\ Forall (fun b => Money (balance b)) (debtors st).

(** Every running balance is a whole number of cents that 20 digits
    hold. *)
Definition Inv_cents (st : LoopState) : Prop :=
  Forall (fun b => Cents (balance b)) (creditors st)
  /\ Forall (fun b => Cents (balance b)) (debtors st).

Definition Inv_positive (st : LoopState) : Prop :=
  Inv_money st /\ Forall (fun s => 0 < amount s) (settlements st).

(** The arrays keep their users, and a transfer goes from a user of
    [debtors] to a user of [creditors]. *)
Definition Inv_users (cids dids : list string) (st : LoopState) : Prop :=
  userId <$> creditors st = cids
  /\ userId <$> debtors st = dids
  /\ Forall (fun s => toUserId s ∈ cids /\ fromUserId s ∈ dids)
            (settlements st).

(** Each transfer is paid for by a step of a cursor, and the last step
    of all is not needed. *)
Definition Inv_count (st : LoopState) : Prop :=
  (length (settlements st) + remaining st
   <= length (creditors st) + length (debtors st))%nat
  /\ (settlements st = []
      \/ (length (settlements st) + 1
          <= length (creditors st) + length (debtors st))%nat).

(** What has been transferred and what is still open add up to the
    credit, and to the debt. *)
Definition Inv_conserve (credit debt : Q) (st : LoopState) : Prop :=
  Inv_cents st
  /\ Forall (fun b => 0 <= balance b) (creditors st)
  /\ Forall (fun b => 0 <= balance b) (debtors st)
  /\ sumTransfers (settlements st)
     + sumBalances (drop (creditorIdx st) (creditors st)) == credit
  /\ sumTransfers (settlements st)
     + sumBalances (drop (debtorIdx st) (debtors st)) == debt.

End BalanceSimplifier.

(** ** balanceSimplifier.ts: [calculateNetBalances] *)

Module NetBalances.
Import BalanceSimplifier.

(** A JavaScript [Map<string, Decimal>]: its entries in insertion order;
    a well-formed map holds each key once. *)
Definition JSMap : Type := list (string * Decimal.t).

(** [map.set(key, value)]: the value of a key that is present is
    replaced where it stands, a new key goes to the end. *)
Fixpoint Map_set (key : string) (value : Decimal.t) (m : JSMap) : JSMap :=
  match m with
  | [] => [(key, value)]
  | (k, v) :: m' => if decide (k = key) then (key, value) :: m'
                    else (k, v) :: Map_set key value m'
  end.

Definition calculateNetBalances (pairwiseBalances : JSMap) : list UserBalance :=
  let netBalances :=
    foldl (fun netBalances '(userId, balance) => Map_set userId balance netBalances)
          [] pairwiseBalances in
  map (fun '(userId, balance) => {| userId := userId; balance := balance |})
      netBalances.

End NetBalances.

(** ** What each user receives and pays in a list of transfers *)

Module Accounts.
Import Decimal BalanceSimplifier.

Definition received (u : string) (out : list Settlement) : Q :=
  foldr (fun s acc => (if decide (toUserId s = u) then amount s else 0) + acc)
        0 out.

Definition paid (u : string) (out : list Settlement) : Q :=
  foldr (fun s acc => (if decide (fromUserId s = u) then amount s else 0) + acc)
        0 out.

(** What the debtors owe together. *)
Definition sumOwed (balances : list UserBalance) : Q :=
  foldr (fun b acc => (if lessThan (balance b) 0 then abs (balance b) else 0) + acc)
        0 balances.

(** *** Invariants of the [while] loop, user by user *)

(** Row by row of the sorted arrays [creditors0] and [debtors0] the loop
    starts from: what the user has received (or paid) so far and the
    running balance make up the balance at the start. *)
Definition Inv_accounts (creditors0 debtors0 : list UserBalance)
    (st : LoopState) : Prop :=
  Forall2 (fun r0 r => userId r = userId r0
                       /\ received (userId r0) (settlements st) + balance r
                          == balance r0)
          creditors0 (creditors st)
  /\ Forall2 (fun r0 r => userId r = userId r0
                          /\ paid (userId r0) (settlements st) + balance r
                             == balance r0)
             debtors0 (debtors st).

(** The rows a cursor has left behind are settled. *)
Definition Inv_settled (st : LoopState) : Prop :=
  Forall (fun r => balance r <= 0) (take (creditorIdx st) (creditors st))
  /\ Forall (fun r => balance r <= 0) (take (debtorIdx st) (debtors st)).

(** The three together. *)
Definition Inv_books (creditors0 debtors0 : list UserBalance) (credit debt : Q)
    (st : LoopState) : Prop :=
  Inv_conserve credit debt st
  /\ Inv_accounts creditors0 debtors0 st
  /\ Inv_settled st.

End Accounts.

(** ** The balances handler of modules/settlements/routes.ts

    The rows of the [groupMember] table for one group, as [findMany]
    returns them, of which the handler reads [userId] and [balance]. *)

Module Ledger.
Import Decimal.






(** *** Inputs of the examples *)


End Ledger.

(** * Facts about the embedding of [Decimal] *)

Section DecimalFacts.
Import Decimal.

Lemma greaterThan_true x y : greaterThan x y = true <-> y < x.
Proof.
  unfold greaterThan. rewrite (Qgt_alt x y).
  destruct (x ?= y); split; intros; congruence.
Qed.

Lemma greaterThan_false x y : greaterThan x y = false <-> x <= y.
Proof.
  unfold greaterThan. rewrite (Qle_alt x y).
  destruct (x ?= y); split; intros; congruence.
Qed.

Lemma lessThan_true x y : lessThan x y = true <-> x < y.
Proof.
  unfold lessThan. rewrite (Qlt_alt x y).
  destruct (x ?= y); split; intros; congruence.
Qed.

Lemma lessThan_false x y : lessThan x y = false <-> y <= x.
Proof.
  unfold lessThan. rewrite (Qge_alt x y).
  destruct (x ?= y); split; intros; congruence.
Qed.

Lemma lessThanOrEqualTo_true x y : lessThanOrEqualTo x y = true <-> x <= y.
Proof.
  unfold lessThanOrEqualTo. rewrite (Qle_alt x y).
  destruct (x ?= y); split; intros; congruence.
Qed.

Lemma lessThanOrEqualTo_false x y : lessThanOrEqualTo x y = false <-> y < x.
Proof.
  unfold lessThanOrEqualTo. rewrite (Qgt_alt x y).
  destruct (x ?= y); split; intros; congruence.
Qed.

Lemma min_cases x y :
  (min x y = x /\ x <= y) \/ (min x y = y /\ y < x).
Proof.
  unfold min. destruct (lessThan y x) eqn:E.
  - right. split; [reflexivity | now apply lessThan_true].
  - left. split; [reflexivity | now apply lessThan_false].
Qed.

Lemma Qnum_nonneg (y : Q) : 0 <= y -> (0 <= Qnum y)%Z.
Proof. destruct y as [n d]. unfold Qle. simpl. lia. Qed.

(** Rounding down a non-negative decimal is the floor of its
    hundredths. *)
Lemma round_down_floor x :
  0 <= x ->
  toDecimalPlaces 2 ROUND_DOWN x == inject_Z (Qfloor (x * 100)) / 100.
Proof.
  intros Hx. unfold toDecimalPlaces, round_to_integer, round_down.
  assert (Hn : (0 <= Qnum (x * pow10 2))%Z).
  { apply Qnum_nonneg. change (pow10 2) with 100. nra. }
  rewrite Z.quot_div_nonneg by (auto; lia).
  change (Qnum (x * pow10 2) / Z.pos (Qden (x * pow10 2)))%Z
    with (Qfloor (x * pow10 2)).
  reflexivity.
Qed.

Lemma round_down_bounds x :
  0 <= x ->
  0 <= toDecimalPlaces 2 ROUND_DOWN x /\ toDecimalPlaces 2 ROUND_DOWN x <= x.
Proof.
  intros Hx. rewrite (round_down_floor x Hx).
  pose proof (Qfloor_le (x * 100)) as Hle.
  assert (H0 : (0 <= Qfloor (x * 100))%Z).
  { change 0%Z with (Qfloor 0). apply Qfloor_resp_le. nra. }
  assert (H0' : 0 <= inject_Z (Qfloor (x * 100))).
  { change 0 with (inject_Z 0). now rewrite <- Zle_Qle. }
  split.
  - apply Qle_shift_div_l; [reflexivity | lra].
  - apply Qle_shift_div_r; [reflexivity | lra].
Qed.

Lemma digits10_fuel_spec (fuel : nat) : forall n : Z,
  (0 < n < 2 ^ Z.of_nat fuel)%Z ->
  (1 <= digits10_fuel fuel n
   /\ 10 ^ (digits10_fuel fuel n - 1) <= n < 10 ^ digits10_fuel fuel n)%Z.
Proof.
  induction fuel as [|fuel IH]; intros n [Hpos Hlt].
  - change (2 ^ Z.of_nat 0)%Z with 1%Z in Hlt. lia.
  - cbn [digits10_fuel]. destruct (n <? 10)%Z eqn:E.
    + apply Z.ltb_lt in E. change (10 ^ (1 - 1))%Z with 1%Z.
      change (10 ^ 1)%Z with 10%Z. lia.
    + apply Z.ltb_ge in E.
      assert (Hn : (0 < n / 10 < 2 ^ Z.of_nat fuel)%Z).
      { split.
        - apply Z.div_str_pos. lia.
        - apply Z.div_lt_upper_bound; [lia|].
          rewrite Nat2Z.inj_succ, Z.pow_succ_r in Hlt by lia.
          pose proof (Z.pow_pos_nonneg 2 (Z.of_nat fuel)). lia. }
      destruct (IH _ Hn) as (Hd & Hlo & Hhi).
      set (d := digits10_fuel fuel (n / 10)) in *.
      split; [lia|].
      replace (1 + d - 1)%Z with (Z.succ (d - 1)) by lia.
      replace (1 + d)%Z with (Z.succ d) by lia.
      rewrite !Z.pow_succ_r by lia.
      pose proof (Z.div_mod n 10 ltac:(lia)).
      pose proof (Z.mod_pos_bound n 10 ltac:(lia)). lia.
Qed.

Lemma digits10_spec (n : Z) :
  (0 < n)%Z ->
  (1 <= digits10 n /\ 10 ^ (digits10 n - 1) <= n < 10 ^ digits10 n)%Z.
Proof.
  intros Hn. apply digits10_fuel_spec. split; [assumption|].
  rewrite Nat2Z.inj_succ, Z2Nat.id by apply Z.log2_nonneg.
  apply Z.log2_spec. assumption.
Qed.

(** Powers of ten *)
Lemma pow10_pos (z : Z) : 0 < 10 ^ z.
Proof. apply Qpower_0_lt. reflexivity. Qed.

Lemma pow10_plus (a b : Z) : 10 ^ (a + b) == 10 ^ a * 10 ^ b.
Proof. apply Qpower_plus. discriminate. Qed.

Lemma pow10_minus (a b : Z) : 10 ^ (a - b) == 10 ^ a / 10 ^ b.
Proof. apply Qpower_minus. discriminate. Qed.

Lemma pow10_Z (n : Z) : (0 <= n)%Z -> 10 ^ n == inject_Z (10 ^ n).
Proof. intros Hn. symmetry. apply (Zpower_Qpower 10 n Hn). Qed.

Lemma pow10_le (a b : Z) : (a <= b)%Z -> 10 ^ a <= 10 ^ b.
Proof. intros H. apply Qpower_le_compat_l; [assumption | discriminate]. Qed.

Lemma pow10_lt (a b : Z) : (a < b)%Z -> 10 ^ a < 10 ^ b.
Proof. intros H. apply Qpower_lt_compat_l; [assumption | reflexivity]. Qed.

Lemma pow10_lt_inv (a b : Z) : 10 ^ a < 10 ^ b -> (a < b)%Z.
Proof.
  intros H. destruct (Z_lt_le_dec a b) as [?|Hle]; [assumption|].
  apply pow10_le in Hle. lra.
Qed.

Lemma exponent_spec (x : Q) :
  ~ x == 0 -> 10 ^ exponent x <= Qabs x /\ Qabs x < 10 ^ (exponent x + 1).
Proof.
  intros Hx. unfold exponent.
  set (p := Z.abs (Qnum x)). set (q := Zpos (Qden x)).
  assert (Hp : (0 < p)%Z).
  { unfold p. destruct x as [n d]. unfold Qeq in Hx. simpl in *. lia. }
  assert (Hq : (0 < q)%Z) by (unfold q; lia).
  destruct (digits10_spec p Hp) as (Hdp & Hplo & Hphi).
  destruct (digits10_spec q Hq) as (Hdq & Hqlo & Hqhi).
  set (dp := digits10 p) in *. set (dq := digits10 q) in *.
  assert (Habs : Qabs x == inject_Z p / inject_Z q).
  { unfold p, q. destruct x as [n d]. simpl. unfold Qabs. simpl.
    rewrite (Qmake_Qdiv (Z.abs n) d). reflexivity. }
  assert (Hq' : 0 < inject_Z q).
  { change 0 with (inject_Z 0). now rewrite <- Zlt_Qlt. }
  assert (Eplo : 10 ^ (dp - 1) <= inject_Z p).
  { rewrite pow10_Z by lia. now rewrite <- Zle_Qle. }
  assert (Ephi : inject_Z p < 10 ^ dp).
  { rewrite pow10_Z by lia. now rewrite <- Zlt_Qlt. }
  assert (Eqlo : 10 ^ (dq - 1) <= inject_Z q).
  { rewrite pow10_Z by lia. now rewrite <- Zle_Qle. }
  assert (Eqhi : inject_Z q < 10 ^ dq).
  { rewrite pow10_Z by lia. now rewrite <- Zlt_Qlt. }
  assert (Hlow : 10 ^ (dp - dq - 1) < Qabs x).
  { rewrite Habs. apply Qlt_shift_div_l; [assumption|].
    apply Qlt_le_trans with (10 ^ (dp - dq - 1) * 10 ^ dq).
    - apply Qmult_lt_l; [apply pow10_pos | assumption].
    - rewrite <- pow10_plus. replace (dp - dq - 1 + dq)%Z with (dp - 1)%Z by lia.
      assumption. }
  assert (Hhigh : Qabs x < 10 ^ (dp - dq + 1)).
  { rewrite Habs. apply Qlt_shift_div_r; [assumption|].
    apply Qlt_le_trans with (10 ^ dp); [assumption|].
    replace dp with ((dp - dq + 1) + (dq - 1))%Z at 1 by lia.
    rewrite pow10_plus. apply Qmult_le_l; [apply pow10_pos | assumption]. }
  destruct (Qle_bool (10 ^ (dp - dq)) (Qabs x)) eqn:E.
  - apply Qle_bool_iff in E. split; assumption.
  - split; [apply Qlt_le_weak; assumption|].
    replace (dp - dq - 1 + 1)%Z with (dp - dq)%Z by lia.
    apply Qnot_le_lt. intros H. apply Qle_bool_iff in H. congruence.
Qed.

Lemma exponent_unique (x : Q) (e : Z) :
  10 ^ e <= Qabs x -> Qabs x < 10 ^ (e + 1) -> ~ x == 0 /\ exponent x = e.
Proof.
  intros Hlo Hhi.
  assert (Hx : ~ x == 0).
  { intros H. rewrite H in Hlo. pose proof (pow10_pos e).
    change (Qabs 0) with 0 in Hlo. lra. }
  split; [assumption|].
  destruct (exponent_spec x Hx) as [Hlo' Hhi'].
  assert (H1 : (exponent x < e + 1)%Z) by (apply pow10_lt_inv; lra).
  assert (H2 : (e < exponent x + 1)%Z) by (apply pow10_lt_inv; lra).
  lia.
Qed.

Lemma Qnum_sgn (x : Q) : Z.sgn (Qnum x) = match x ?= 0 with Lt => (-1)%Z | Eq => 0%Z | Gt => 1%Z end.
Proof.
  destruct x as [n d]. unfold Qcompare. simpl. rewrite Z.mul_1_r.
  destruct n; reflexivity.
Qed.

Lemma sgn_neg (y : Q) : y < 0 -> Z.sgn (Qnum y) = (-1)%Z.
Proof. intros H. rewrite Qnum_sgn. now rewrite (proj1 (Qlt_alt y 0) H). Qed.

Lemma sgn_pos (y : Q) : 0 < y -> Z.sgn (Qnum y) = 1%Z.
Proof. intros H. rewrite Qnum_sgn. now rewrite (proj1 (Qgt_alt y 0) H). Qed.

Lemma sgn_zero (y : Q) : y == 0 -> Z.sgn (Qnum y) = 0%Z.
Proof. intros H. rewrite Qnum_sgn. now rewrite (proj1 (Qeq_alt y 0) H). Qed.

Lemma round_half_up_comp (x y : Q) : x == y -> round_half_up x = round_half_up y.
Proof.
  intros H. unfold round_half_up. rewrite !Qnum_sgn.
  assert (Hc : (x ?= 0) = (y ?= 0)) by now rewrite H.
  rewrite Hc.
  assert (Ha : Qabs x + (1 # 2) == Qabs y + (1 # 2)) by now rewrite H.
  now rewrite (Qfloor_comp _ _ Ha).
Qed.

Lemma round_half_up_nonneg (y : Q) :
  0 <= y -> round_half_up y = Qfloor (y + (1 # 2)).
Proof.
  intros Hy. unfold round_half_up.
  destruct (Qeq_dec y 0) as [E|E].
  - rewrite (sgn_zero y E).
    assert (Hb : y + (1 # 2) == 1 # 2) by (rewrite E; reflexivity).
    rewrite (Qfloor_comp _ _ Hb). reflexivity.
  - rewrite (sgn_pos y) by lra. rewrite Qabs_pos by assumption. lia.
Qed.

Lemma round_half_up_opp (y : Q) : round_half_up (- y) = (- round_half_up y)%Z.
Proof.
  unfold round_half_up.
  assert (Ha : Qabs (- y) + (1 # 2) == Qabs y + (1 # 2))
    by now rewrite Qabs_opp.
  rewrite (Qfloor_comp _ _ Ha).
  destruct (Q_dec y 0) as [[H|H]|H].
  - rewrite (sgn_neg y H), (sgn_pos (- y)) by lra. lia.
  - rewrite (sgn_pos y H), (sgn_neg (- y)) by lra. lia.
  - rewrite (sgn_zero y H), (sgn_zero (- y)) by lra. lia.
Qed.

Lemma round_half_up_bounds (y : Q) :
  0 <= y -> y - (1 # 2) < inject_Z (round_half_up y) /\ inject_Z (round_half_up y) <= y + (1 # 2).
Proof.
  intros Hy. rewrite (round_half_up_nonneg y Hy).
  pose proof (Qfloor_le (y + (1 # 2))) as Hle.
  pose proof (Qlt_floor (y + (1 # 2))) as Hlt.
  rewrite inject_Z_plus in Hlt. change (inject_Z 1) with 1 in Hlt.
  split; lra.
Qed.

Lemma round_half_up_sign_nonneg (y : Q) : 0 <= y -> (0 <= round_half_up y)%Z.
Proof.
  intros Hy. rewrite (round_half_up_nonneg y Hy).
  change 0%Z with (Qfloor 0). apply Qfloor_resp_le. lra.
Qed.

Lemma round_half_up_ge_Z (y : Q) (M : Z) : 0 <= y -> inject_Z M <= y -> (M <= round_half_up y)%Z.
Proof.
  intros Hy HM. rewrite (round_half_up_nonneg y Hy).
  rewrite <- (Qfloor_Z M). apply Qfloor_resp_le. lra.
Qed.

Lemma round_half_up_lt_Z (y : Q) (M : Z) :
  0 <= y -> y + (1 # 2) < inject_Z M -> (round_half_up y < M)%Z.
Proof.
  intros Hy HM. pose proof (round_half_up_bounds y Hy) as [_ Hhi].
  rewrite Zlt_Qlt. lra.
Qed.

Lemma Qfloor_plus_half (n : Z) : Qfloor (inject_Z n + (1 # 2)) = n.
Proof.
  pose proof (Qfloor_le (inject_Z n + (1 # 2))) as Hle.
  pose proof (Qlt_floor (inject_Z n + (1 # 2))) as Hlt.
  rewrite inject_Z_plus in Hlt.
  assert (H1 : inject_Z (Qfloor (inject_Z n + (1 # 2))) < inject_Z (n + 1)).
  { rewrite inject_Z_plus. change (inject_Z 1) with 1. lra. }
  assert (H2 : inject_Z n < inject_Z (Qfloor (inject_Z n + (1 # 2)) + 1)).
  { rewrite inject_Z_plus. lra. }
  rewrite <- Zlt_Qlt in H1, H2. lia.
Qed.

Lemma round_half_up_integer (y : Q) (c : Z) :
  y == inject_Z c -> round_half_up y = c.
Proof.
  intros Hy. unfold round_half_up.
  assert (Hs : Z.sgn (Qnum y) = Z.sgn c).
  { destruct y as [n d]. unfold Qeq in Hy. simpl in Hy. simpl.
    destruct n, c; simpl; lia. }
  assert (Ha : Qabs y + (1 # 2) == inject_Z (Z.abs c) + (1 # 2)).
  { rewrite Hy. reflexivity. }
  rewrite Hs, (Qfloor_comp _ _ Ha), Qfloor_plus_half. lia.
Qed.

(** What [round_sd] computes, on a value that is not zero. *)
Lemma round_sd_spec (sd : Z) (x : Q) :
  ~ x == 0 ->
  exists e : Z,
    10 ^ e <= Qabs x /\ Qabs x < 10 ^ (e + 1)
    /\ round_sd sd x
       == inject_Z (round_half_up (x * 10 ^ (sd - 1 - e))) / 10 ^ (sd - 1 - e).
Proof.
  intros Hx. pose proof (Qred_correct x) as Hr.
  assert (Hx' : ~ Qred x == 0) by now rewrite Hr.
  destruct (exponent_spec (Qred x) Hx') as [Hlo Hhi].
  assert (Ha : Qabs (Qred x) == Qabs x) by (apply Qabs_wd; exact Hr).
  exists (exponent (Qred x)). rewrite Ha in Hlo, Hhi.
  split; [assumption|]. split; [assumption|].
  unfold round_sd. cbv zeta.
  destruct (Qeq_bool (Qred x) 0) eqn:E.
  - apply Qeq_bool_iff in E. contradiction.
  - rewrite Qred_correct.
    assert (Hm : Qred x * 10 ^ (sd - 1 - exponent (Qred x))
                 == x * 10 ^ (sd - 1 - exponent (Qred x)))
      by (apply Qmult_comp; [exact Hr | reflexivity]).
    now rewrite (round_half_up_comp _ _ Hm).
Qed.

Lemma round_sd_comp (sd : Z) (x y : Q) : x == y -> round_sd sd x = round_sd sd y.
Proof. intros H. unfold round_sd. now rewrite (Qred_complete x y H). Qed.

Lemma round_sd_zero (sd : Z) (x : Q) : x == 0 -> round_sd sd x = 0.
Proof.
  intros H. rewrite (round_sd_comp sd x 0 H). reflexivity.
Qed.

Lemma round_sd_nonneg (sd : Z) (x : Q) : 0 <= x -> 0 <= round_sd sd x.
Proof.
  intros Hx. destruct (Qeq_dec x 0) as [E|E].
  - rewrite (round_sd_zero sd x E). lra.
  - destruct (round_sd_spec sd x E) as (e & _ & _ & ->).
    pose proof (pow10_pos (sd - 1 - e)) as Hp.
    apply Qle_shift_div_l; [assumption|]. rewrite Qmult_0_l.
    change 0 with (inject_Z 0). rewrite <- Zle_Qle.
    apply round_half_up_sign_nonneg. nra.
Qed.

Lemma round_sd_opp (sd : Z) (x : Q) : round_sd sd (- x) == - round_sd sd x.
Proof.
  destruct (Qeq_dec x 0) as [E|E].
  - rewrite (round_sd_zero sd x E), (round_sd_zero sd (- x)) by lra. reflexivity.
  - assert (E' : ~ - x == 0) by lra.
    destruct (round_sd_spec sd x E) as (e & Hlo & Hhi & ->).
    destruct (round_sd_spec sd (- x) E') as (e' & Hlo' & Hhi' & ->).
    rewrite Qabs_opp in Hlo', Hhi'.
    assert (e' = e).
    { assert (H1 : (e' < e + 1)%Z) by (apply pow10_lt_inv; lra).
      assert (H2 : (e < e' + 1)%Z) by (apply pow10_lt_inv; lra). lia. }
    subst e'.
    assert (Hm : - x * 10 ^ (sd - 1 - e) == - (x * 10 ^ (sd - 1 - e))) by ring.
    rewrite (round_half_up_comp _ _ Hm), round_half_up_opp, inject_Z_opp.
    pose proof (pow10_pos (sd - 1 - e)). field. lra.
Qed.

Lemma round_sd_nonpos (sd : Z) (x : Q) : x <= 0 -> round_sd sd x <= 0.
Proof.
  intros Hx. assert (H : 0 <= round_sd sd (- x)) by (apply round_sd_nonneg; lra).
  rewrite round_sd_opp in H. lra.
Qed.

(** A value that [sd] digits hold is not changed. *)
Lemma round_sd_exact (sd : Z) (x : Q) (k N : Z) :
  x * 10 ^ k == inject_Z N -> (Z.abs N < 10 ^ sd)%Z -> (0 < sd)%Z ->
  round_sd sd x == x.
Proof.
  intros HN Hb Hsd. destruct (Qeq_dec x 0) as [E|E].
  - rewrite (round_sd_zero sd x E). now rewrite E.
  - destruct (round_sd_spec sd x E) as (e & Hlo & Hhi & ->).
    pose proof (pow10_pos k) as Hk. pose proof (pow10_pos (sd - 1 - e)) as Hs.
    assert (Habs : Qabs x * 10 ^ k == inject_Z (Z.abs N)).
    { rewrite <- (Qabs_pos (10 ^ k)) at 1 by lra.
      rewrite <- Qabs_Qmult, HN. reflexivity. }
    assert (Hek : (e + k < sd)%Z).
    { apply pow10_lt_inv. rewrite pow10_plus.
      apply Qle_lt_trans with (Qabs x * 10 ^ k).
      - apply Qmult_le_r; assumption.
      - rewrite Habs, pow10_Z by lia. now rewrite <- Zlt_Qlt. }
    assert (Hint : x * 10 ^ (sd - 1 - e) == inject_Z (N * 10 ^ (sd - 1 - e - k))).
    { rewrite inject_Z_mult, <- pow10_Z by lia. rewrite <- HN.
      rewrite <- Qmult_assoc, <- pow10_plus.
      replace (k + (sd - 1 - e - k))%Z with (sd - 1 - e)%Z by lia. reflexivity. }
    rewrite (round_half_up_integer _ _ Hint), <- Hint. field. lra.
Qed.

Lemma Money_cents (x : Q) : Money x <-> exists c : Z, x * 100 == inject_Z c.
Proof.
  split; intros [c Hc]; exists c.
  - rewrite Hc. field.
  - rewrite <- Hc. field.
Qed.

Lemma toDecimalPlaces_cents rm (x : Q) :
  toDecimalPlaces 2 rm x * 100 == inject_Z (round_to_integer rm (x * 100)).
Proof. unfold toDecimalPlaces. change (pow10 2) with 100. field. Qed.

(** [toDecimalPlaces(2)] leaves a whole number of cents as it is. *)
Lemma Money_toDecimalPlaces x :
  Money x -> toDecimalPlaces 2 ROUND_HALF_UP x == x.
Proof.
  intros [c Hc]%Money_cents.
  pose proof (toDecimalPlaces_cents ROUND_HALF_UP x) as H.
  cbn [round_to_integer] in H.
  rewrite (round_half_up_integer (x * 100) c Hc) in H. lra.
Qed.

Lemma Money_abs x : Money x -> Money (abs x).
Proof.
  intros [a Ha]. exists (Z.abs a). unfold abs. rewrite Ha.
  unfold Qdiv. rewrite Qabs_Qmult. reflexivity.
Qed.

Lemma Money_min x y : Money x -> Money y -> Money (min x y).
Proof.
  intros Hx Hy. destruct (min_cases x y) as [[-> _] | [-> _]]; assumption.
Qed.

Lemma Qfloor_unique (y : Q) (k : Z) :
  inject_Z k <= y -> y < inject_Z (k + 1) -> Qfloor y = k.
Proof.
  intros Hlo Hhi.
  assert (H1 : (k <= Qfloor y)%Z).
  { rewrite <- (Qfloor_Z k). now apply Qfloor_resp_le. }
  assert (H2 : (Qfloor y < k + 1)%Z).
  { rewrite Zlt_Qlt. pose proof (Qfloor_le y). lra. }
  lia.
Qed.

Lemma inject_Z_abs_lt (c : Z) (b : Z) :
  (0 <= b)%Z -> Qabs (inject_Z c) < 10 ^ b -> (Z.abs c < 10 ^ b)%Z.
Proof.
  intros Hb H. rewrite pow10_Z in H by assumption.
  change (Qabs (inject_Z c)) with (inject_Z (Z.abs c)) in H.
  now rewrite <- Zlt_Qlt in H.
Qed.

Lemma Money_abs_cents (x : Q) (c : Z) :
  x * 100 == inject_Z c -> Qabs x * 100 == Qabs (inject_Z c).
Proof.
  intros H. rewrite <- H, Qabs_Qmult. reflexivity.
Qed.

(** Below [10^18] a whole number of cents has at most 20 digits. *)
Lemma round_sd_Cents (x : Q) : Cents x -> round_sd precision x == x.
Proof.
  intros [[c Hc]%Money_cents Hb].
  apply (round_sd_exact precision x 2 c); [exact Hc | | reflexivity].
  apply (inject_Z_abs_lt c 20); [lia|].
  rewrite <- (Money_abs_cents x c Hc).
  change (10 ^ 20) with (10 ^ 18 * 100). lra.
Qed.

Lemma Money_comp (x y : Q) : x == y -> Money x -> Money y.
Proof. intros E [c Hc]. exists c. now rewrite <- E. Qed.

(** Rounding to 20 digits keeps whole cents whole. *)
Lemma round_sd_Money (x : Q) : Money x -> Money (round_sd precision x).
Proof.
  intros Hm. destruct (Qlt_le_dec (Qabs x) (10 ^ 18)) as [Hlt|Hge].
  - destruct Hm as [c Hc]. exists c.
    rewrite (round_sd_Cents x); [exact Hc|]. split; [now exists c | assumption].
  - assert (Hx : ~ x == 0).
    { intros E. rewrite E in Hge. change (Qabs 0) with 0 in Hge.
      pose proof (pow10_pos 18). lra. }
    destruct (round_sd_spec precision x Hx) as (e & Hlo & Hhi & Hr).
    assert (He : (18 <= e)%Z).
    { assert (H : (18 < e + 1)%Z) by (apply pow10_lt_inv; lra). lia. }
    apply (Money_comp _ _ (Qeq_sym _ _ Hr)). unfold precision.
    exists (round_half_up (x * 10 ^ (20 - 1 - e)) * 10 ^ (e - 17))%Z.
    rewrite inject_Z_mult, <- pow10_Z by lia.
    replace (e - 17)%Z with (2 + - (20 - 1 - e))%Z by lia.
    rewrite pow10_plus, Qpower_opp.
    pose proof (pow10_pos (20 - 1 - e)).
    change (10 ^ 2) with 100. field. lra.
Qed.

Lemma Money_0 : Money 0.
Proof. exists 0%Z. reflexivity. Qed.

Lemma Money_add (x y : Q) : Money x -> Money y -> Money (x + y).
Proof.
  intros [a Ha] [b Hb]. exists (a + b)%Z.
  rewrite inject_Z_plus, Ha, Hb. field.
Qed.

Lemma Money_sub (x y : Q) : Money x -> Money y -> Money (x - y).
Proof.
  intros [a Ha] [b Hb]. exists (a - b)%Z. unfold Z.sub.
  rewrite inject_Z_plus, inject_Z_opp, Ha, Hb. field.
Qed.

Lemma Money_mul_Z (x : Q) (n : Z) : Money x -> Money (x * inject_Z n).
Proof.
  intros [a Ha]. exists (a * n)%Z. rewrite inject_Z_mult, Ha. field.
Qed.

Lemma Money_plus (x y : Q) : Money x -> Money y -> Money (plus x y).
Proof. intros Hx Hy. apply round_sd_Money. now apply Money_add. Qed.

Lemma Money_minus (x y : Q) : Money x -> Money y -> Money (minus x y).
Proof. intros Hx Hy. apply round_sd_Money. now apply Money_sub. Qed.

Lemma Money_times_Z (x : Q) (n : Z) : Money x -> Money (times x (inject_Z n)).
Proof. intros Hx. apply round_sd_Money. now apply Money_mul_Z. Qed.

Lemma toDecimalPlaces_Money rm (x : Q) : Money (toDecimalPlaces 2 rm x).
Proof.
  exists (round_to_integer rm (x * pow10 2)). unfold toDecimalPlaces.
  change (pow10 2) with 100. reflexivity.
Qed.

(** The operations are exact on whole cents as long as the result stays
    below [10^18]. *)
Lemma plus_exact (x y : Q) :
  Money x -> Money y -> Qabs (x + y) < 10 ^ 18 -> plus x y == x + y.
Proof.
  intros Hx Hy Hb. apply round_sd_Cents. split; [now apply Money_add | assumption].
Qed.

Lemma minus_exact (x y : Q) :
  Money x -> Money y -> Qabs (x - y) < 10 ^ 18 -> minus x y == x - y.
Proof.
  intros Hx Hy Hb. apply round_sd_Cents. split; [now apply Money_sub | assumption].
Qed.

Lemma minus_self (x y : Q) : x == y -> minus x y = 0.
Proof. intros H. apply round_sd_zero. lra. Qed.

(** The result of an operation is within half a unit of the twentieth
    digit of the exact result. *)
Lemma round_sd_above (x : Q) :
  0 <= x -> round_sd precision x <= x * (1 + (1 # 20000000000000000000)).
Proof.
  intros Hx. destruct (Qeq_dec x 0) as [E|E].
  - rewrite (round_sd_zero _ x E), E. lra.
  - destruct (round_sd_spec precision x E) as (e & Hlo & Hhi & ->).
    unfold precision. set (s := 10 ^ (20 - 1 - e)).
    assert (Hs : 0 < s) by apply pow10_pos.
    rewrite Qabs_pos in Hlo by assumption.
    assert (Hxs : 10 ^ 19 <= x * s).
    { replace 19%Z with (e + (20 - 1 - e))%Z by lia. rewrite pow10_plus.
      fold s. apply Qmult_le_r; assumption. }
    change (10 ^ 19) with 10000000000000000000 in Hxs.
    assert (Hxs0 : 0 <= x * s) by lra.
    pose proof (round_half_up_bounds (x * s) Hxs0) as [_ Hr].
    apply Qle_shift_div_r; [assumption|]. lra.
Qed.

Lemma round_sd_below (x : Q) :
  x <= 0 -> x * (1 + (1 # 20000000000000000000)) <= round_sd precision x.
Proof.
  intros Hx. assert (H : 0 <= - x) by lra.
  apply round_sd_above in H. rewrite round_sd_opp in H. lra.
Qed.

(** Cutting a quotient to cents: below [10^17] the rounding of the
    quotient to 20 digits does not reach the next cent. *)
Lemma dividedBy_cut (total : Q) (n : Z) :
  Money total -> 0 <= total -> total < 10 ^ 17 -> (1 <= n)%Z ->
  toDecimalPlaces 2 ROUND_DOWN (dividedBy total (inject_Z n))
  == inject_Z (Qfloor (total / inject_Z n * 100)) / 100.
Proof.
  intros [c Hc]%Money_cents H0 Hb Hn.
  assert (HN : 1 <= inject_Z n).
  { change 1 with (inject_Z 1). now rewrite <- Zle_Qle. }
  set (N := inject_Z n) in *.
  set (q := total / N).
  assert (Hq : q * N == total) by (unfold q; field; lra).
  assert (Hq0 : 0 <= q).
  { unfold q. apply Qle_shift_div_l; lra. }
  unfold dividedBy. fold q.
  rewrite round_down_floor by now apply round_sd_nonneg.
  destruct (Qeq_dec q 0) as [E|E].
  { rewrite (round_sd_zero _ q E).
    assert (E1 : 0 * 100 == q * 100) by (rewrite E; reflexivity).
    now rewrite (Qfloor_comp _ _ E1). }
  destruct (round_sd_spec precision q E) as (e & Hlo & Hhi & Hr).
  rewrite Qabs_pos in Hlo, Hhi by assumption.
  set (k := Qfloor (q * 100)).
  assert (Hk1 : inject_Z k <= q * 100) by apply Qfloor_le.
  assert (Hk2 : q * 100 < inject_Z (k + 1)) by apply Qlt_floor.
  assert (He : (e < 17)%Z).
  { apply pow10_lt_inv. apply Qle_lt_trans with q; [assumption|].
    apply Qle_lt_trans with total; [|assumption]. nra. }
  assert (HJ : exists J : Z, (0 < J)%Z /\ 10 ^ (20 - 1 - e) == 100 * inject_Z J
                             /\ N < inject_Z J).
  { exists (10 ^ (17 - e))%Z. split; [apply Z.pow_pos_nonneg; lia|].
    rewrite <- pow10_Z by lia. split.
    - replace (20 - 1 - e)%Z with (2 + (17 - e))%Z by lia.
      rewrite pow10_plus. reflexivity.
    - assert (H1 : N * 10 ^ e < 10 ^ 17).
      { apply Qle_lt_trans with total; [|assumption].
        rewrite <- Hq. pose proof (pow10_pos e). nra. }
      replace 17%Z with ((17 - e) + e)%Z in H1 at 1 by lia.
      rewrite pow10_plus in H1. pose proof (pow10_pos e).
      apply Qmult_lt_r with (10 ^ e); assumption. }
  destruct HJ as (J & HJ0 & HJ & HNJ).
  assert (HJq : 0 < inject_Z J).
  { change 0 with (inject_Z 0). now rewrite <- Zlt_Qlt. }
  set (Jq := inject_Z J) in *.
  set (R := round_half_up (q * 10 ^ (precision - 1 - e))) in *.
  assert (Hy : q * 10 ^ (precision - 1 - e) == q * 100 * Jq).
  { unfold precision. rewrite HJ. ring. }
  assert (Hy0 : 0 <= q * 100 * Jq) by nra.
  assert (HR1 : (k * J <= R)%Z).
  { unfold R. rewrite (round_half_up_comp _ _ Hy).
    apply round_half_up_ge_Z; [assumption|].
    rewrite inject_Z_mult. fold Jq. nra. }
  assert (Hc1 : (c < (k + 1) * n)%Z).
  { rewrite Zlt_Qlt, inject_Z_mult. fold N. rewrite <- Hc, <- Hq. nra. }
  assert (Hc2 : q * 100 * N <= inject_Z (k + 1) * N - 1).
  { assert (H : inject_Z (c + 1) <= inject_Z ((k + 1) * n))
      by (rewrite <- Zle_Qle; lia).
    rewrite inject_Z_plus, inject_Z_mult in H.
    fold N in H. rewrite <- Hc, <- Hq in H.
    change (inject_Z 1) with 1 in H. lra. }
  assert (HR2 : (R < (k + 1) * J)%Z).
  { unfold R. rewrite (round_half_up_comp _ _ Hy).
    apply round_half_up_lt_Z; [assumption|].
    rewrite inject_Z_mult. fold Jq.
    set (g := inject_Z (k + 1) - q * 100).
    assert (Hg0 : 0 <= g) by (unfold g; lra).
    assert (Hg1 : 1 <= g * N) by (unfold g; lra).
    assert (Hg2 : 0 <= g * (Jq - N)) by (apply Qmult_le_0_compat; lra).
    assert (Hg3 : 1 <= g * Jq) by lra.
    unfold g in Hg3. lra. }
  assert (Hval : round_sd precision q * 100 == inject_Z R / Jq).
  { rewrite Hr. unfold precision in *. rewrite HJ. field. lra. }
  assert (Hfl : Qfloor (round_sd precision q * 100) = k).
  { apply Qfloor_unique; rewrite Hval.
    - apply Qle_shift_div_l; [assumption|]. unfold Jq.
      rewrite <- inject_Z_mult, <- Zle_Qle. exact HR1.
    - apply Qlt_shift_div_r; [assumption|]. unfold Jq.
      rewrite <- inject_Z_mult, <- Zlt_Qlt. exact HR2. }
  rewrite Hfl. reflexivity.
Qed.

End DecimalFacts.

(** * Facts about the embedding of [number] *)

Section NumberFacts.
Import Decimal.

Lemma shortest_nonneg (fuel : nat) (k n : Z) (x : Q) (v : number) :
  0 <= x -> 0 <= JSNumber.shortest fuel k n x v.
Proof.
  intros Hx. revert k. induction fuel as [|fuel IH]; intros k;
    cbn [JSNumber.shortest]; [assumption|].
  cbv zeta. pose proof (pow10_pos (n - k)) as Hs.
  assert (Hlo : 0 <= inject_Z (Qfloor (x / 10 ^ (n - k)))).
  { change 0 with (inject_Z (Qfloor 0)). rewrite <- Zle_Qle.
    apply Qfloor_resp_le. apply Qle_shift_div_l; [assumption | lra]. }
  assert (Hhi : 0 <= inject_Z (Qfloor (x / 10 ^ (n - k)) + 1)).
  { rewrite inject_Z_plus. change (inject_Z 1) with 1. lra. }
  assert (Hdlo : 0 <= inject_Z (Qfloor (x / 10 ^ (n - k))) * 10 ^ (n - k))
    by (apply Qmult_le_0_compat; lra).
  assert (Hdhi : 0 <= inject_Z (Qfloor (x / 10 ^ (n - k)) + 1) * 10 ^ (n - k))
    by (apply Qmult_le_0_compat; lra).
  destruct (SFeqb _ v), (SFeqb _ v); try assumption; [|apply IH].
  destruct (_ ?= _); [destruct (Z.even _)| |]; assumption.
Qed.

Lemma pow2_pos (e : Z) : 0 < 2 ^ e.
Proof. apply Qpower_0_lt. reflexivity. Qed.

(** A value that passes the test [v < 0] is read as a decimal that is
    not negative. *)
Lemma new_Decimal_nonneg (v : number) :
  JSNumber.lt v JSNumber.zero = false -> 0 <= new_Decimal v.
Proof.
  unfold new_Decimal, JSNumber.toString_value.
  destruct v as [s|s| |s m e]; try (intros _; lra).
  destruct s; [discriminate|]. intros _.
  rewrite Qred_correct. apply shortest_nonneg. rewrite Qred_correct.
  pose proof (pow2_pos e).
  assert (0 < inject_Z (Z.pos m)) by reflexivity.
  apply Qmult_le_0_compat; lra.
Qed.

End NumberFacts.

(** * The split resolver *)

Section ResolverFacts.
Import Decimal SplitCalculator.

Lemma count_of_cons p (ps : list SplitInput) :
  count_of (p :: ps) == 1 + count_of ps.
Proof.
  unfold count_of. cbn [length]. rewrite Nat2Z.inj_succ.
  unfold Z.succ. rewrite inject_Z_plus. change (inject_Z 1) with 1. lra.
Qed.

Lemma count_of_nonneg (ps : list SplitInput) : 0 <= count_of ps.
Proof.
  unfold count_of. change 0 with (inject_Z 0). rewrite <- Zle_Qle. lia.
Qed.

Lemma count_of_pos (ps : list SplitInput) : ps <> [] -> 1 <= count_of ps.
Proof.
  destruct ps as [|p ps]; [congruence|]. intros _.
  rewrite count_of_cons. pose proof (count_of_nonneg ps). lra.
Qed.

Lemma imap_as_map {A B} (g : nat -> A -> B) (h : A -> B) (l : list A) :
  (forall i x, g i x = h x) -> imap g l = map h l.
Proof.
  revert g. induction l as [|x l IH]; intros g Hg; [reflexivity|].
  cbn [imap map]. rewrite Hg. f_equal. apply IH. intros i y. apply Hg.
Qed.

(** The Equal split, share by share: the first participant gets the
    base amount plus the remainder, the others the base amount. *)
Lemma resolveEqualSplit_cons (totalAmount : Q) (p : SplitInput)
    (ps : list SplitInput) :
  resolveEqualSplit totalAmount (p :: ps)
  = share (userId p)
          (plus (baseAmount totalAmount (p :: ps))
                (equal_remainder totalAmount (p :: ps)))
    :: map (fun q => share (userId q) (baseAmount totalAmount (p :: ps))) ps.
Proof.
  unfold resolveEqualSplit. cbn [imap Nat.eqb]. f_equal.
  apply imap_as_map. reflexivity.
Qed.

Lemma sumAmounts_map_const (b : Q) (ps : list SplitInput) :
  sumAmounts (map (fun q => share (userId q) b) ps) == b * count_of ps.
Proof.
  induction ps as [|q ps IH].
  - change (0 == b * 0). lra.
  - cbn [map sumAmounts foldr share amount].
    fold (sumAmounts (map (fun q => share (userId q) b) ps)).
    rewrite IH, count_of_cons. lra.
Qed.

(** A validation loop either accepts every element or throws at the
    first one it rejects. *)
Lemma for_of_cases {A} (ok : A -> Prop) (body : A -> result unit)
    (err : A -> SplitError) :
  (forall p, (ok p /\ body p = Ok tt) \/ (~ ok p /\ body p = Throw (err p))) ->
  forall l,
    (Forall ok l /\ for_of l body = Ok tt)
    \/ (exists l1 p l2, l = l1 ++ p :: l2 /\ Forall ok l1 /\ ~ ok p
                        /\ for_of l body = Throw (err p)).
Proof.
  intros Hbody. induction l as [|x l IH].
  - left. split; [constructor | reflexivity].
  - cbn [for_of]. destruct (Hbody x) as [[Hx ->] | [Hx ->]].
    + destruct IH as [[Hl ->] | (l1 & p & l2 & -> & Hl1 & Hp & ->)].
      * left. split; [now constructor | reflexivity].
      * right. exists (x :: l1), p, l2.
        repeat split; [now constructor | assumption].
    + right. exists [], x, l. repeat split; [constructor | assumption].
Qed.

Lemma exact_check (p : SplitInput) :
  let body := fun p : SplitInput =>
    match value p with
    | None => Throw (InvalidExactAmount (userId p))
    | Some v => if JSNumber.lt v JSNumber.zero
                then Throw (InvalidExactAmount (userId p)) else Ok tt
    end in
  (exact_value_ok p /\ body p = Ok tt)
  \/ (~ exact_value_ok p /\ body p = Throw (InvalidExactAmount (userId p))).
Proof.
  cbv zeta. unfold exact_value_ok. destruct (value p) as [v|].
  - destruct (JSNumber.lt v JSNumber.zero) eqn:E.
    + right. split; [|reflexivity]. intros (w & [= <-] & Hw). congruence.
    + left. split; [|reflexivity]. eauto.
  - right. split; [|reflexivity]. intros (w & [=] & _).
Qed.

Lemma percentage_check (p : SplitInput) :
  let body := fun p : SplitInput =>
    match value p with
    | None => Throw (InvalidPercentage (userId p))
    | Some v => if JSNumber.lt v JSNumber.zero
                   || JSNumber.gt v JSNumber.hundred
                then Throw (InvalidPercentage (userId p)) else Ok tt
    end in
  (percentage_value_ok p /\ body p = Ok tt)
  \/ (~ percentage_value_ok p /\ body p = Throw (InvalidPercentage (userId p))).
Proof.
  cbv zeta. unfold percentage_value_ok. destruct (value p) as [v|].
  - destruct (JSNumber.lt v JSNumber.zero) eqn:E1;
      [|destruct (JSNumber.gt v JSNumber.hundred) eqn:E2]; cbn [orb].
    + right. split; [|reflexivity]. intros (w & [= <-] & Hw & _). congruence.
    + right. split; [|reflexivity]. intros (w & [= <-] & _ & Hw). congruence.
    + left. split; [|reflexivity]. eauto.
  - right. split; [|reflexivity]. intros (w & [=] & _).
Qed.

(** The values the resolver reads are not negative once the loop has
    accepted them. *)
Lemma exact_value_nonneg (p : SplitInput) :
  exact_value_ok p -> 0 <= decimal_value p.
Proof.
  intros (v & Hv & Hlt). unfold decimal_value, value_bang. rewrite Hv.
  now apply new_Decimal_nonneg.
Qed.

Lemma percentage_value_nonneg (p : SplitInput) :
  percentage_value_ok p -> 0 <= decimal_value p.
Proof.
  intros (v & Hv & Hlt & _). apply exact_value_nonneg. exists v. auto.
Qed.

(** The three ways an Exact split ends. *)
Lemma resolveExactSplit_cases (totalAmount : Q) (participants : list SplitInput) :
  (exists l1 p l2,
      participants = l1 ++ p :: l2 /\ Forall exact_value_ok l1
      /\ ~ exact_value_ok p
      /\ resolveExactSplit totalAmount participants
         = Throw (InvalidExactAmount (userId p)))
  \/ (Forall exact_value_ok participants
      /\ 0.01 < Qabs (minus (decimal_sum participants) totalAmount)
      /\ resolveExactSplit totalAmount participants
         = Throw (ExactAmountsDontEqualTotal (decimal_sum participants)
                                             totalAmount))
  \/ (Forall exact_value_ok participants
      /\ Qabs (minus (decimal_sum participants) totalAmount) <= 0.01
      /\ resolveExactSplit totalAmount participants
         = Ok (exact_shares participants)).
Proof.
  unfold resolveExactSplit, mbind, result_bind.
  destruct (for_of_cases exact_value_ok _ _ exact_check participants)
    as [[Hall ->] | (l1 & p & l2 & Heq & Hl1 & Hp & ->)].
  - right. cbv beta iota zeta.
    change (foldl _ 0 participants) with (decimal_sum participants).
    destruct (greaterThan (abs (minus (decimal_sum participants) totalAmount))
                          0.01) eqn:E.
    + left. apply greaterThan_true in E. repeat split; assumption.
    + right. apply greaterThan_false in E. repeat split; assumption.
  - left. exists l1, p, l2. repeat split; assumption.
Qed.

(** The three ways a Percentage split ends. *)
Lemma resolvePercentageSplit_cases (totalAmount : Q)
    (participants : list SplitInput) :
  (exists l1 p l2,
      participants = l1 ++ p :: l2 /\ Forall percentage_value_ok l1
      /\ ~ percentage_value_ok p
      /\ resolvePercentageSplit totalAmount participants
         = Throw (InvalidPercentage (userId p)))
  \/ (Forall percentage_value_ok participants
      /\ ~ within_one_cent (number_sum value_bang participants)
                           JSNumber.hundred
      /\ resolvePercentageSplit totalAmount participants
         = Throw (PercentagesMustSumTo100 (number_sum value_bang participants)))
  \/ (Forall percentage_value_ok participants
      /\ within_one_cent (number_sum value_bang participants) JSNumber.hundred
      /\ exists p ps,
           participants = p :: ps
           /\ resolvePercentageSplit totalAmount participants
              = Ok (share (userId p)
                      (let cut := toDecimalPlaces 2 ROUND_DOWN
                                    (dividedBy (times totalAmount
                                                      (decimal_value p)) 100) in
                       if greaterThan (percentage_remainder totalAmount
                                                            participants) 0
                       then plus cut (percentage_remainder totalAmount
                                                           participants)
                       else cut)
                    :: percentage_cuts totalAmount ps)).
Proof.
  unfold resolvePercentageSplit, mbind, result_bind.
  destruct (for_of_cases percentage_value_ok _ _ percentage_check participants)
    as [[Hall ->] | (l1 & p & l2 & Heq & Hl1 & Hp & ->)].
  - right. cbv beta iota zeta.
    change (foldl _ JSNumber.zero participants)
      with (number_sum value_bang participants).
    unfold within_one_cent.
    destruct (JSNumber.gt _ JSNumber.one_cent) eqn:E.
    + left. repeat split; [assumption | congruence].
    + right. split; [assumption|]. split; [reflexivity|].
      destruct participants as [|p ps]; [discriminate E|].
      exists p, ps. split; [reflexivity|].
      change (map _ (p :: ps)) with (percentage_cuts totalAmount (p :: ps)).
      change (minus totalAmount (foldl _ 0 (percentage_cuts totalAmount (p :: ps))))
        with (percentage_remainder totalAmount (p :: ps)).
      destruct (greaterThan _ 0); reflexivity.
  - left. exists l1, p, l2. repeat split; assumption.
Qed.

Lemma same_shares_sum (xs ys : list ResolvedSplit) :
  same_shares xs ys -> sumAmounts xs == sumAmounts ys.
Proof.
  induction 1 as [|x y xs ys [_ Hxy] _ IH]; [reflexivity|].
  cbn [sumAmounts foldr]. fold (sumAmounts xs) (sumAmounts ys). lra.
Qed.

Lemma resolveSplits_nonempty (totalAmount : Q) splitType
    (participants : list SplitInput) payerId :
  participants <> [] ->
  resolveSplits totalAmount splitType participants payerId
  = match splitType with
    | EQUAL => Ok (resolveEqualSplit totalAmount participants)
    | EXACT => resolveExactSplit totalAmount participants
    | PERCENTAGE => resolvePercentageSplit totalAmount participants
    end.
Proof. destruct participants; [congruence | reflexivity]. Qed.

Lemma resolveSplits_Ok_nonempty (totalAmount : Q) splitType
    (participants : list SplitInput) payerId out :
  resolveSplits totalAmount splitType participants payerId = Ok out ->
  participants <> [].
Proof. destruct participants; [discriminate | congruence]. Qed.

(** What [resolveSplits] returns, policy by policy, when it returns. *)
Lemma resolveSplits_Ok_cases (totalAmount : Q) (splitType : SplitType)
    (participants : list SplitInput) (payerId : string)
    (out : list ResolvedSplit) :
  resolveSplits totalAmount splitType participants payerId = Ok out ->
  exists p ps,
    participants = p :: ps
    /\ match splitType with
       | EQUAL =>
           out = share (userId p)
                   (plus (baseAmount totalAmount participants)
                         (equal_remainder totalAmount participants))
                 :: map (fun q => share (userId q)
                                    (baseAmount totalAmount participants)) ps
       | EXACT =>
           Forall exact_value_ok participants
           /\ Qabs (minus (decimal_sum participants) totalAmount) <= 0.01
           /\ out = exact_shares participants
       | PERCENTAGE =>
           Forall percentage_value_ok participants
           /\ within_one_cent (number_sum value_bang participants)
                              JSNumber.hundred
           /\ out = share (userId p)
                      (let cut := toDecimalPlaces 2 ROUND_DOWN
                                    (dividedBy (times totalAmount
                                                      (decimal_value p)) 100) in
                       if greaterThan (percentage_remainder totalAmount
                                                            participants) 0
                       then plus cut (percentage_remainder totalAmount
                                                           participants)
                       else cut)
                    :: percentage_cuts totalAmount ps
       end.
Proof.
  intros Hr. pose proof (resolveSplits_Ok_nonempty _ _ _ _ _ Hr) as Hne.
  rewrite (resolveSplits_nonempty _ _ _ _ Hne) in Hr.
  destruct participants as [|p ps]; [congruence|]. exists p, ps.
  split; [reflexivity|]. destruct splitType.
  - injection Hr as <-. apply resolveEqualSplit_cons.
  - destruct (resolveExactSplit_cases totalAmount (p :: ps))
      as [(l1 & q & l2 & _ & _ & _ & E) | [(_ & _ & E) | (Hok & Hs & E)]];
      rewrite E in Hr; try discriminate.
    injection Hr as <-. auto.
  - destruct (resolvePercentageSplit_cases totalAmount (p :: ps))
      as [(l1 & q & l2 & _ & _ & _ & E)
         | [(_ & _ & E) | (Hok & Hs & p' & ps' & Heq & E)]];
      rewrite E in Hr; try discriminate.
    injection Heq as <- <-. injection Hr as <-. auto.
Qed.

Lemma percentage_cuts_users (totalAmount : Q) (ps : list SplitInput) :
  map rs_userId (percentage_cuts totalAmount ps) = map userId ps.
Proof. unfold percentage_cuts. rewrite map_map. reflexivity. Qed.

Lemma resolveSplits_users (totalAmount : Q) (splitType : SplitType)
    (participants : list SplitInput) (payerId : string)
    (out : list ResolvedSplit) :
  resolveSplits totalAmount splitType participants payerId = Ok out ->
  map rs_userId out = map userId participants.
Proof.
  intros Hr.
  destruct (resolveSplits_Ok_cases _ _ _ _ _ Hr) as (p & ps & -> & H).
  destruct splitType.
  - subst out. cbn [map share rs_userId]. f_equal. rewrite map_map. reflexivity.
  - destruct H as (_ & _ & ->). unfold exact_shares.
    rewrite map_map. reflexivity.
  - destruct H as (_ & _ & ->). cbn [map share rs_userId]. f_equal.
    apply percentage_cuts_users.
Qed.

End ResolverFacts.

(** ** Inputs on which the resolver computes without rounding *)

Section ResolverExact.
Import Decimal SplitCalculator.

Lemma Qabs_small (x b : Q) : 0 <= x -> x < b -> Qabs x < b.
Proof. intros H0 Hb. now rewrite Qabs_pos. Qed.

Lemma pow10_17_18 : 10 ^ 17 < 10 ^ 18.
Proof. reflexivity. Qed.

Lemma equal_base_Money (totalAmount : Q) (participants : list SplitInput) :
  Money (equal_base totalAmount participants).
Proof. eexists. reflexivity. Qed.

(** The floor of the quotient, times the count, does not exceed the
    total. *)
Lemma equal_base_bounds (totalAmount : Q) (participants : list SplitInput) :
  participants <> [] -> 0 <= totalAmount ->
  0 <= equal_base totalAmount participants
  /\ equal_base totalAmount participants * count_of participants <= totalAmount
  /\ (totalAmount - equal_base totalAmount participants * count_of participants)
     * 100 < count_of participants.
Proof.
  intros Hne Ht. pose proof (count_of_pos participants Hne) as Hc.
  unfold equal_base. set (N := count_of participants) in *.
  set (q := totalAmount / N).
  assert (Hq : q * N == totalAmount) by (unfold q; field; lra).
  assert (Hq0 : 0 <= q) by (unfold q; apply Qle_shift_div_l; lra).
  pose proof (Qfloor_le (q * 100)) as Hle.
  pose proof (Qlt_floor (q * 100)) as Hlt.
  rewrite inject_Z_plus in Hlt. change (inject_Z 1) with 1 in Hlt.
  assert (Hk0 : 0 <= inject_Z (Qfloor (q * 100))).
  { change 0 with (inject_Z (Qfloor 0)). rewrite <- Zle_Qle.
    apply Qfloor_resp_le. lra. }
  set (k := inject_Z (Qfloor (q * 100))) in *.
  assert (Hb : k / 100 * 100 == k) by field.
  set (b := k / 100) in *.
  split; [lra|]. split; nra.
Qed.

(** Below [10^17] the Equal split is computed without rounding. *)
Lemma equal_split_exact (totalAmount : Q) (participants : list SplitInput) :
  participants <> [] ->
  Money totalAmount -> 0 <= totalAmount -> totalAmount < 10 ^ 17 ->
  let base := equal_base totalAmount participants in
  let remainder := totalAmount - base * count_of participants in
  baseAmount totalAmount participants == base
  /\ equal_remainder totalAmount participants == remainder
  /\ plus (baseAmount totalAmount participants)
          (equal_remainder totalAmount participants) == base + remainder.
Proof.
  intros Hne Hm Ht Hb base remainder.
  pose proof (count_of_pos participants Hne) as Hc.
  destruct (equal_base_bounds totalAmount participants Hne Ht)
    as (Hb0 & Hbn & _). fold base in Hb0, Hbn.
  pose proof (equal_base_Money totalAmount participants) as Hbm. fold base in Hbm.
  pose proof pow10_17_18 as H78.
  assert (E1 : baseAmount totalAmount participants == base).
  { unfold baseAmount, base, equal_base, count_of.
    apply dividedBy_cut; try assumption.
    destruct participants; [congruence | cbn [length]; lia]. }
  assert (HbN : 0 <= base * count_of participants) by nra.
  assert (E2 : times (baseAmount totalAmount participants) (count_of participants)
               == base * count_of participants).
  { unfold times.
    rewrite (round_sd_comp _ (baseAmount totalAmount participants
                              * count_of participants)
               (base * count_of participants)) by now rewrite E1.
    apply round_sd_Cents. split; [apply Money_mul_Z; assumption|].
    apply Qabs_small; lra. }
  assert (Hrm : Money remainder).
  { apply Money_sub; [assumption|]. apply Money_mul_Z. assumption. }
  assert (E3 : equal_remainder totalAmount participants == remainder).
  { unfold equal_remainder, minus.
    rewrite (round_sd_comp _ _ remainder) by (unfold remainder; now rewrite E2).
    apply round_sd_Cents. split; [assumption|].
    apply Qabs_small; unfold remainder; lra. }
  split; [assumption|]. split; [assumption|].
  unfold plus.
  rewrite (round_sd_comp _ _ (base + remainder)) by now rewrite E1, E3.
  apply round_sd_Cents. split; [now apply Money_add|].
  apply Qabs_small; unfold remainder; nra.
Qed.

Lemma same_shares_map_const (b b' : Q) (ps : list SplitInput) :
  b == b' ->
  same_shares (map (fun q => share (userId q) b) ps)
              (map (fun q => share (userId q) b') ps).
Proof.
  intros E. induction ps as [|q ps IH]; constructor; [|assumption].
  split; [reflexivity | exact E].
Qed.

Lemma equal_shares_cons (totalAmount : Q) (p : SplitInput)
    (ps : list SplitInput) :
  equal_shares totalAmount (p :: ps)
  = share (userId p)
          (equal_base totalAmount (p :: ps)
           + (totalAmount
              - equal_base totalAmount (p :: ps) * count_of (p :: ps)))
    :: map (fun q => share (userId q) (equal_base totalAmount (p :: ps))) ps.
Proof.
  unfold equal_shares. cbn [imap Nat.eqb]. f_equal.
  apply imap_as_map. reflexivity.
Qed.

(** The rule of the specification hands out the total. *)
Lemma equal_shares_sum (totalAmount : Q) (participants : list SplitInput) :
  participants <> [] ->
  sumAmounts (equal_shares totalAmount participants) == totalAmount.
Proof.
  destruct participants as [|p ps]; [congruence|]. intros _.
  rewrite equal_shares_cons. cbn [sumAmounts foldr share amount].
  match goal with |- context [foldr _ 0 (map ?g ps)] =>
    fold (sumAmounts (map g ps)) end.
  rewrite sumAmounts_map_const, count_of_cons. lra.
Qed.

Lemma resolveEqualSplit_exact (totalAmount : Q) (participants : list SplitInput) :
  participants <> [] ->
  Money totalAmount -> 0 <= totalAmount -> totalAmount < 10 ^ 17 ->
  same_shares (resolveEqualSplit totalAmount participants)
              (equal_shares totalAmount participants).
Proof.
  intros Hne Hm Ht Hb.
  destruct (equal_split_exact totalAmount participants Hne Hm Ht Hb)
    as (E1 & _ & E3).
  destruct participants as [|p ps]; [congruence|].
  rewrite resolveEqualSplit_cons, equal_shares_cons.
  constructor; [split; [reflexivity | exact E3]|].
  now apply same_shares_map_const.
Qed.

(** ** The Percentage split without rounding *)

Lemma Money_bound_Z (x : Q) (b : Z) :
  Money x -> 0 <= x -> x < inject_Z b ->
  exists c : Z, x * 100 == inject_Z c /\ (0 <= c < b * 100)%Z.
Proof.
  intros [c Hc]%Money_cents H0 Hb. exists c. split; [assumption|].
  split.
  - rewrite Zle_Qle. change (inject_Z 0) with 0. lra.
  - rewrite Zlt_Qlt, inject_Z_mult. change (inject_Z 100) with 100. lra.
Qed.

Lemma Money_le_Z (x : Q) (b : Z) :
  Money x -> 0 <= x -> x <= inject_Z b ->
  exists c : Z, x * 100 == inject_Z c /\ (0 <= c <= b * 100)%Z.
Proof.
  intros [c Hc]%Money_cents H0 Hb. exists c. split; [assumption|].
  split.
  - rewrite Zle_Qle. change (inject_Z 0) with 0. lra.
  - rewrite Zle_Qle, inject_Z_mult. change (inject_Z 100) with 100. lra.
Qed.

(** The cut of [totalAmount * value / 100] is its floor to cents when
    the product has at most 20 digits. *)
Lemma percentage_cut_exact (totalAmount v : Q) :
  Money totalAmount -> 0 <= totalAmount -> totalAmount < 10 ^ 14 ->
  Money v -> 0 <= v -> v <= 100 ->
  toDecimalPlaces 2 ROUND_DOWN (dividedBy (times totalAmount v) 100)
  == inject_Z (Qfloor (totalAmount * v)) / 100.
Proof.
  intros Hm Ht Hb Hmv Hv0 Hv100.
  destruct (Money_bound_Z totalAmount (10 ^ 14) Hm Ht Hb) as (c & Hc & Hc0 & Hc1).
  destruct (Money_le_Z v 100 Hmv Hv0 Hv100) as (w & Hw & Hw0 & Hw1).
  assert (Hcw : (Z.abs (c * w) < 10 ^ 20)%Z).
  { rewrite Z.abs_eq by nia.
    change (10 ^ 14 * 100)%Z with 10000000000000000%Z in Hc1.
    change (100 * 100)%Z with 10000%Z in Hw1.
    change (10 ^ 20)%Z with (10000000000000000 * 10000)%Z. nia. }
  assert (E1 : times totalAmount v == totalAmount * v).
  { apply (round_sd_exact precision _ 4 (c * w)); [|assumption|reflexivity].
    rewrite inject_Z_mult, <- Hc, <- Hw. change (10 ^ 4) with 10000. ring. }
  assert (E2 : dividedBy (times totalAmount v) 100 == totalAmount * v / 100).
  { unfold dividedBy.
    rewrite (round_sd_comp _ _ (totalAmount * v / 100)) by now rewrite E1.
    apply (round_sd_exact precision _ 6 (c * w)); [|assumption|reflexivity].
    rewrite inject_Z_mult, <- Hc, <- Hw. change (10 ^ 6) with 1000000. field. }
  assert (H0 : 0 <= totalAmount * v) by nra.
  rewrite round_down_floor by (rewrite E2; apply Qle_shift_div_l; lra).
  assert (E3 : dividedBy (times totalAmount v) 100 * 100 == totalAmount * v)
    by (rewrite E2; field).
  now rewrite (Qfloor_comp _ _ E3).
Qed.

End ResolverExact.

Section PercentageExact.
Import Decimal SplitCalculator.

Variable totalAmount : Q.
Hypothesis total_Money : Money totalAmount.
Hypothesis total_nonneg : 0 <= totalAmount.
Hypothesis total_bound : totalAmount < 10 ^ 14.

Lemma percentage_cuts_floors (ps : list SplitInput) :
  Forall plain_percentage ps ->
  same_shares (percentage_cuts totalAmount ps) (percentage_floors totalAmount ps).
Proof.
  induction 1 as [|p ps (Hm & H0 & H100) _ IH]; [constructor|].
  cbn [percentage_cuts percentage_floors map]. constructor; [|exact IH].
  cbn [share rs_userId amount]. split; [reflexivity|].
  now apply percentage_cut_exact.
Qed.

Lemma percentage_floors_Money (ps : list SplitInput) :
  Forall (fun s => Money (amount s)) (percentage_floors totalAmount ps).
Proof.
  induction ps as [|p ps IH]; [constructor|].
  cbn [percentage_floors map]. constructor; [|exact IH].
  cbn [share amount]. eexists. reflexivity.
Qed.

Lemma percentage_floors_bound (ps : list SplitInput) :
  Forall plain_percentage ps ->
  Forall (fun s => 0 <= amount s) (percentage_floors totalAmount ps)
  /\ sumAmounts (percentage_floors totalAmount ps) * 100
     <= totalAmount * sumValues ps.
Proof.
  induction 1 as [|p ps (_ & H0 & _) _ [IH1 IH2]].
  - split; [constructor | cbn; lra].
  - cbn [percentage_floors map sumAmounts sumValues foldr share amount].
    fold (percentage_floors totalAmount ps).
    fold (sumAmounts (percentage_floors totalAmount ps)) (sumValues ps).
    pose proof (Qfloor_le (totalAmount * decimal_value p)) as Hle.
    assert (Hk0 : 0 <= inject_Z (Qfloor (totalAmount * decimal_value p))).
    { change 0 with (inject_Z (Qfloor 0)). rewrite <- Zle_Qle.
      apply Qfloor_resp_le. nra. }
    set (k := inject_Z (Qfloor (totalAmount * decimal_value p))) in *.
    assert (Hb : k / 100 * 100 == k) by field.
    set (b := k / 100) in *.
    split; [constructor; [cbn [share amount]; lra | exact IH1] | nra].
Qed.

Lemma sumValues_nonneg (ps : list SplitInput) :
  Forall plain_percentage ps -> 0 <= sumValues ps.
Proof.
  induction 1 as [|p ps (_ & H0 & _) _ IH]; [cbn; lra|].
  cbn [sumValues foldr]. fold (sumValues ps). lra.
Qed.

End PercentageExact.

Section SumsExact.
Import Decimal SplitCalculator.

(** A sum the resolver takes with [plus], of whole cents that are not
    negative, is their sum as long as it stays below [10^18]. *)
Lemma foldl_plus_exact {A} (f : A -> Q) (l : list A) :
  Forall (fun s => Money (f s) /\ 0 <= f s) l ->
  forall a : Q,
    Money a -> 0 <= a -> a + foldr (fun s acc => f s + acc) 0 l < 10 ^ 18 ->
    foldl (fun acc s => plus acc (f s)) a l
    == a + foldr (fun s acc => f s + acc) 0 l.
Proof.
  induction 1 as [|s l [Hm H0] Hl IH]; intros a Ha Ha0 Hb; cbn [foldl].
  - cbn. lra.
  - cbn [foldr] in *. set (S := foldr (fun s acc => f s + acc) 0 l) in *.
    assert (Hl0 : 0 <= S).
    { unfold S. clear - Hl. induction Hl as [|x l [_ Hx] _ IH]; [cbn; lra|].
      cbn [foldr]. lra. }
    assert (E : plus a (f s) == a + f s).
    { apply plus_exact; try assumption. apply Qabs_small; lra. }
    rewrite IH.
    + rewrite E. lra.
    + now apply Money_plus.
    + apply round_sd_nonneg. lra.
    + rewrite E. lra.
Qed.

Lemma same_shares_Forall (P : Q -> Prop) (xs ys : list ResolvedSplit) :
  (forall a b, a == b -> P b -> P a) ->
  same_shares xs ys ->
  Forall (fun s => P (amount s)) ys -> Forall (fun s => P (amount s)) xs.
Proof.
  intros HP. induction 1 as [|x y xs ys [_ Hxy] _ IH]; [constructor|].
  intros [Hy Hys]%Forall_cons. constructor; [now apply (HP _ _ Hxy) | auto].
Qed.

End SumsExact.

Section PercentageShares.
Import Decimal SplitCalculator.

Lemma nonneg_comp (a b : Q) : a == b -> 0 <= b -> 0 <= a.
Proof. intros E H. now rewrite E. Qed.

Lemma sumAmounts_nonneg (l : list ResolvedSplit) :
  Forall (fun s => 0 <= amount s) l -> 0 <= sumAmounts l.
Proof.
  induction 1 as [|x l Hx _ IH]; [cbn; lra|].
  cbn [sumAmounts foldr]. fold (sumAmounts l). lra.
Qed.

Lemma sumAmounts_Money (l : list ResolvedSplit) :
  Forall (fun s => Money (amount s)) l -> Money (sumAmounts l).
Proof.
  induction 1 as [|x l Hx _ IH]; [apply Money_0|].
  cbn [sumAmounts foldr]. now apply Money_add.
Qed.

(** Below [10^14], with plain percentages that sum to no more than 101,
    the Percentage split is computed without rounding and is the rule of
    the specification. *)
Lemma resolvePercentageSplit_exact (totalAmount : Q)
    (participants : list SplitInput) (payerId : string)
    (out : list ResolvedSplit) :
  Money totalAmount -> 0 <= totalAmount -> totalAmount < 10 ^ 14 ->
  Forall plain_percentage participants -> sumValues participants <= 101 ->
  resolveSplits totalAmount PERCENTAGE participants payerId = Ok out ->
  same_shares out (percentage_shares totalAmount participants).
Proof.
  intros Hm Ht Hb Hplain Hsum Hr.
  destruct (resolveSplits_Ok_cases _ _ _ _ _ Hr) as (p & ps & -> & _ & _ & ->).
  clear Hr.
  pose proof (percentage_cuts_floors totalAmount Hm Ht Hb _ Hplain) as Hcf.
  destruct (percentage_floors_bound totalAmount Ht _ Hplain) as [Hf0 Hfb].
  pose proof (percentage_floors_Money totalAmount (p :: ps)) as Hfm.
  pose proof (same_shares_sum _ _ Hcf) as Hcs.
  assert (Hcuts : Forall (fun s => Money (amount s) /\ 0 <= amount s)
                         (percentage_cuts totalAmount (p :: ps))).
  { apply Forall_and. split.
    - apply (same_shares_Forall Money _ _
               (fun a b E H => Money_comp b a (Qeq_sym _ _ E) H) Hcf Hfm).
    - apply (same_shares_Forall (fun a => 0 <= a) _ _ nonneg_comp Hcf Hf0). }
  pose proof (sumAmounts_nonneg _ Hf0) as Hf0s.
  pose proof (sumAmounts_Money _ Hfm) as Hfms.
  unfold percentage_shares.
  set (F := sumAmounts (percentage_floors totalAmount (p :: ps))) in *.
  assert (H14 : 10 ^ 14 * 101 < 10 ^ 18 * 100) by reflexivity.
  assert (HF : F * 100 <= totalAmount * 101) by nra.
  assert (Efold : foldl (fun acc s => plus acc (amount s)) 0
                        (percentage_cuts totalAmount (p :: ps)) == F).
  { pose proof (foldl_plus_exact amount _ Hcuts 0 Money_0) as Hx.
    fold (sumAmounts (percentage_cuts totalAmount (p :: ps))) in Hx.
    rewrite Hx; lra. }
  set (R := totalAmount - F).
  assert (HRm : Money R) by now apply Money_sub.
  assert (Erem : percentage_remainder totalAmount (p :: ps) == R).
  { unfold percentage_remainder, minus.
    rewrite (round_sd_comp _ _ R) by (unfold R; now rewrite Efold).
    apply round_sd_Cents. split; [assumption|].
    apply Qabs_Qlt_condition. unfold R. split; lra. }
  set (rem := percentage_remainder totalAmount (p :: ps)) in *.
  cbn [percentage_cuts percentage_floors map] in Hcf, Hf0, Hfm.
  fold (percentage_floors totalAmount ps) in Hcf, Hf0, Hfm.
  fold (percentage_cuts totalAmount ps) in Hcf.
  apply Forall2_cons_1 in Hcf as [[_ Hhead] Htail].
  apply Forall_cons in Hf0 as [Hp0 Hrest0].
  apply Forall_cons in Hfm as [Hpm _].
  cbn [share rs_userId amount] in Hhead, Hp0, Hpm.
  pose proof (sumAmounts_nonneg _ Hrest0) as Hrest.
  assert (EF : F == inject_Z (Qfloor (totalAmount * decimal_value p)) / 100
                    + sumAmounts (percentage_floors totalAmount ps))
    by reflexivity.
  cbn [percentage_floors map raise_first].
  fold (percentage_floors totalAmount ps).
  set (f0 := inject_Z (Qfloor (totalAmount * decimal_value p)) / 100) in *.
  set (S := sumAmounts (percentage_floors totalAmount ps)) in *.
  set (cut := toDecimalPlaces 2 ROUND_DOWN
                (dividedBy (times totalAmount (decimal_value p)) 100)) in *.
  constructor; [|exact Htail].
  cbn [share rs_userId amount]. split; [reflexivity|]. cbv zeta.
  destruct (greaterThan rem 0) eqn:G.
  - apply greaterThan_true in G. rewrite Erem in G.
    destruct (Qlt_le_dec 0 R) as [_|Hle]; [|lra].
    unfold plus.
    rewrite (round_sd_comp _ _ (f0 + R)) by now rewrite Hhead, Erem.
    apply round_sd_Cents. split; [now apply Money_add|].
    apply Qabs_Qlt_condition. unfold R. split; lra.
  - apply greaterThan_false in G. rewrite Erem in G.
    destruct (Qlt_le_dec 0 R) as [Hlt|_]; [lra|]. rewrite Hhead. lra.
Qed.

(** The rule of the specification hands out the total when the
    percentages sum to no more than 100. *)
Lemma percentage_shares_sum (totalAmount : Q) (participants : list SplitInput) :
  0 <= totalAmount -> participants <> [] ->
  Forall plain_percentage participants -> sumValues participants <= 100 ->
  sumAmounts (percentage_shares totalAmount participants) == totalAmount.
Proof.
  intros Ht Hne Hplain Hsum.
  destruct (percentage_floors_bound totalAmount Ht _ Hplain) as [_ Hfb].
  pose proof (sumValues_nonneg _ Hplain) as Hv0.
  unfold percentage_shares.
  destruct participants as [|p ps]; [congruence|].
  cbn [percentage_floors map raise_first] in *.
  cbn [sumAmounts foldr share amount rs_userId] in *.
  fold (percentage_floors totalAmount ps) in *.
  fold (sumAmounts (percentage_floors totalAmount ps)) in *.
  destruct (Qlt_le_dec 0 _) as [Hlt|Hle]; [lra | nra].
Qed.

End PercentageShares.

(** ** What the resolver returns *)

Section ResolverTheorems.
Import Decimal SplitCalculator.

Lemma exact_shares_sum (participants : list SplitInput) :
  Forall (fun p => Money (decimal_value p)) participants ->
  sumAmounts (exact_shares participants) == sumValues participants.
Proof.
  induction 1 as [|p ps Hp _ IH]; [reflexivity|].
  cbn [exact_shares map sumAmounts sumValues foldr share amount].
  fold (exact_shares ps). fold (sumAmounts (exact_shares ps)) (sumValues ps).
  rewrite (Money_toDecimalPlaces _ Hp), IH. reflexivity.
Qed.

Lemma test_percentages_plain : Forall plain_percentage test_percentages.
Proof.
  unfold test_percentages.
  repeat apply Forall_cons_2; try apply Forall_nil_2;
    (split; [|split; vm_compute; discriminate]).
  - exists 3333%Z. vm_compute. reflexivity.
  - exists 3333%Z. vm_compute. reflexivity.
  - exists 3334%Z. vm_compute. reflexivity.
Qed.

Lemma test_percentages_finite : finite_values test_percentages.
Proof.
  repeat apply Forall_cons_2; try apply Forall_nil_2; vm_compute; reflexivity.
Qed.

Lemma no_percentages_far_from_100 :
  ~ within_one_cent (number_sum value_bang []) JSNumber.hundred.
Proof. vm_compute. discriminate. Qed.

Lemma Money_100 : Money 100.
Proof. exists 10000%Z. reflexivity. Qed.

(** C1, as amended.  Whenever [resolveSplits] returns shares, they sum
    to the total exactly: for an Equal split of a total in whole cents,
    not negative and below [10^17]; for a Percentage split of a total in
    whole cents, not negative and below [10^14], when the percentages
    are finite numbers of at most two fraction digits, lie between 0 and
    100 and sum to at most 100; for an Exact split when every supplied
    value is a finite number, a whole number of cents, and the values sum
    to the total exactly. *)
Theorem resolveSplits_sum (totalAmount : Q) (splitType : SplitType)
    (participants : list SplitInput) (payerId : string)
    (out : list ResolvedSplit) :
  resolveSplits totalAmount splitType participants payerId = Ok out ->
  match splitType with
  | EQUAL =>
      Money totalAmount -> 0 <= totalAmount -> totalAmount < 10 ^ 17 ->
      sumAmounts out == totalAmount
  | PERCENTAGE =>
      Money totalAmount -> 0 <= totalAmount -> totalAmount < 10 ^ 14 ->
      finite_values participants ->
      Forall plain_percentage participants ->
      sumValues participants <= 100 ->
      sumAmounts out == totalAmount
  | EXACT =>
      finite_values participants ->
      Forall (fun p => Money (decimal_value p)) participants ->
      sumValues participants == totalAmount ->
      sumAmounts out == totalAmount
  end.
Proof.
  intros Hr. pose proof (resolveSplits_Ok_nonempty _ _ _ _ _ Hr) as Hne.
  destruct splitType.
  - intros Hm Ht Hb.
    rewrite (resolveSplits_nonempty _ _ _ _ Hne) in Hr. injection Hr as <-.
    rewrite (same_shares_sum _ _
               (resolveEqualSplit_exact _ _ Hne Hm Ht Hb)).
    now apply equal_shares_sum.
  - intros _ Hmoney Hsum.
    destruct (resolveSplits_Ok_cases _ _ _ _ _ Hr) as (p & ps & _ & _ & _ & ->).
    rewrite exact_shares_sum by assumption. exact Hsum.
  - intros Hm Ht Hb _ Hplain Hsum.
    rewrite (same_shares_sum _ _
               (resolvePercentageSplit_exact _ _ _ _ Hm Ht Hb Hplain
                  ltac:(lra) Hr)).
    now apply percentage_shares_sum.
Qed.

Lemma resolveSplits_sum_witness :
  exists out, resolveSplits 100 PERCENTAGE test_percentages "user1" = Ok out
              /\ sumAmounts out == 100.
Proof.
  eexists. split; [vm_compute; reflexivity|].
  apply (resolveSplits_sum 100 PERCENTAGE test_percentages "user1");
    [vm_compute; reflexivity | exact Money_100 | vm_compute; discriminate
    | reflexivity | exact test_percentages_finite | exact test_percentages_plain
    | vm_compute; discriminate].
Defined.

(** C1 as stated fails: two inputs that the validator and the resolver
    both accept, one Exact and one Percentage, whose shares do not sum
    to the total; and an Equal split of a total of 20 digits, where the
    three shares are equal and a tenth is lost. *)
Lemma resolveSplits_sum_counterexample :
  (let ps := [mkSplitInput "A" (Some (num 60));
              mkSplitInput "B" (Some (num 39.994))] in
   validateSplitInput EXACT (num 100) ps = []
   /\ exists out, resolveSplits 100 EXACT ps "A" = Ok out
                  /\ same_shares out [share "A" 60; share "B" 39.99]
                  /\ ~ sumAmounts out == 100)
  /\
  (let ps := [mkSplitInput "A" (Some (num 50));
              mkSplitInput "B" (Some (num 50.005))] in
   validateSplitInput PERCENTAGE (num 1000) ps = []
   /\ exists out, resolveSplits 1000 PERCENTAGE ps "A" = Ok out
                  /\ same_shares out [share "A" 500; share "B" 500.05]
                  /\ ~ sumAmounts out == 1000)
  /\
  (let total := 12345678901234567000 in
   validateSplitInput EQUAL (num total) abc = []
   /\ new_Decimal (num total) == total
   /\ exists out, resolveSplits total EQUAL abc "A" = Ok out
                  /\ same_shares out [share "A" 4115226300411522333.3;
                                      share "B" 4115226300411522333.3;
                                      share "C" 4115226300411522333.3]
                  /\ ~ sumAmounts out == total).
Proof.
  split; [|split]; cbv zeta.
  - split; [vm_compute; reflexivity|].
    eexists. split; [vm_compute; reflexivity|]. split.
    + repeat constructor.
    + vm_compute. discriminate.
  - split; [vm_compute; reflexivity|].
    eexists. split; [vm_compute; reflexivity|]. split.
    + repeat constructor.
    + vm_compute. discriminate.
  - split; [vm_compute; reflexivity|]. split; [vm_compute; reflexivity|].
    eexists. split; [vm_compute; reflexivity|]. split.
    + repeat constructor.
    + vm_compute. discriminate.
Qed.

(** C3, as amended.  An Equal split of a total in whole cents, not
    negative and below [10^17], over a non-empty list gives every
    participant the floor of [totalAmount / count] to 2 decimals, except
    the first in input order, who gets that plus the whole remainder
    [totalAmount - base * count]; and 100.00 over [A, B, C] gives 33.34,
    33.33, 33.33. *)
Theorem equal_split_shares :
  (forall (totalAmount : Q) (participants : list SplitInput) (payerId : string),
      participants <> [] ->
      Money totalAmount -> 0 <= totalAmount -> totalAmount < 10 ^ 17 ->
      exists out,
        resolveSplits totalAmount EQUAL participants payerId = Ok out
        /\ same_shares out (equal_shares totalAmount participants))
  /\ exists out, resolveSplits 100 EQUAL abc "A" = Ok out
                 /\ same_shares out
                      [share "A" 33.34; share "B" 33.33; share "C" 33.33].
Proof.
  split.
  - intros totalAmount participants payerId Hne Hm Ht Hb.
    rewrite (resolveSplits_nonempty _ _ _ _ Hne). eexists.
    split; [reflexivity|]. now apply resolveEqualSplit_exact.
  - eexists. split; [vm_compute; reflexivity|]. repeat constructor.
Qed.

Lemma equal_split_shares_witness :
  exists out, resolveSplits 100 EQUAL abc "A" = Ok out
              /\ same_shares out (equal_shares 100 abc).
Proof.
  apply (proj1 equal_split_shares 100 abc "A");
    [discriminate | exact Money_100 | vm_compute; discriminate | reflexivity].
Defined.

(** C3 as stated fails: the quotient of a total of 20 digits by 3 is
    rounded to 20 digits before it is cut to cents, so the base amount
    has one decimal, no remainder is seen, and the three shares are
    equal. *)
Lemma equal_split_counterexample :
  let total := 12345678901234567000 in
  Money total
  /\ exists out,
       resolveSplits total EQUAL abc "A" = Ok out
       /\ same_shares out [share "A" 4115226300411522333.3;
                           share "B" 4115226300411522333.3;
                           share "C" 4115226300411522333.3]
       /\ same_shares (equal_shares total abc)
                      [share "A" 4115226300411522333.34;
                       share "B" 4115226300411522333.33;
                       share "C" 4115226300411522333.33]
       /\ ~ same_shares out (equal_shares total abc).
Proof.
  cbv zeta. split; [exists 1234567890123456700000%Z; reflexivity|].
  eexists. split; [vm_compute; reflexivity|].
  split; [repeat constructor|]. split; [repeat constructor|].
  intros H. apply Forall2_cons_1 in H as [[_ H] _]. revert H.
  vm_compute. discriminate.
Qed.

(** C10.  [resolveSplits] gives the same result for any two payers.
    Whoever pays, in an Equal split the first participant in input
    order gets the base amount plus the remainder and the others the
    base amount; in a Percentage split of finite values the first
    participant gets the cut share plus the remainder when that is
    strictly positive and the others their cut shares.  The remainder
    of 100.00 over [A, B, C] goes to [A] also when [C] pays, and the
    remainder of 100.01 over 33.33, 33.33 and 33.34 percent goes to
    [user1] when [user3] pays. *)
Theorem resolveSplits_ignores_payer :
  (forall (totalAmount : Q) (splitType : SplitType)
          (participants : list SplitInput) (payerId1 payerId2 : string),
      resolveSplits totalAmount splitType participants payerId1
      = resolveSplits totalAmount splitType participants payerId2)
  /\ (forall (totalAmount : Q) (p : SplitInput) (ps : list SplitInput)
             (payerId : string),
        resolveSplits totalAmount EQUAL (p :: ps) payerId
        = Ok (share (userId p)
                (plus (baseAmount totalAmount (p :: ps))
                      (equal_remainder totalAmount (p :: ps)))
              :: map (fun q => share (userId q)
                                 (baseAmount totalAmount (p :: ps))) ps))
  /\ (forall (totalAmount : Q) (p : SplitInput) (ps : list SplitInput)
             (payerId : string) (out : list ResolvedSplit),
        resolveSplits totalAmount PERCENTAGE (p :: ps) payerId = Ok out ->
        finite_values (p :: ps) ->
        let cut := toDecimalPlaces 2 ROUND_DOWN
                     (dividedBy (times totalAmount (decimal_value p)) 100) in
        let remainder := percentage_remainder totalAmount (p :: ps) in
        out = share (userId p)
                (if greaterThan remainder 0 then plus cut remainder else cut)
              :: percentage_cuts totalAmount ps)
  /\ (exists out, resolveSplits 100 EQUAL abc "C" = Ok out
                  /\ same_shares out
                       [share "A" 33.34; share "B" 33.33; share "C" 33.33])
  /\ exists out, resolveSplits 100.01 PERCENTAGE test_percentages "user3" = Ok out
                 /\ same_shares out
                      [share "user1" 33.34; share "user2" 33.33;
                       share "user3" 33.34].
Proof.
  split; [reflexivity|]. split; [|split; [|split]].
  - intros totalAmount p ps payerId.
    rewrite resolveSplits_nonempty by discriminate.
    now rewrite resolveEqualSplit_cons.
  - intros totalAmount p ps payerId out Hr _. cbv zeta.
    destruct (resolveSplits_Ok_cases _ _ _ _ _ Hr)
      as (p' & ps' & [= <- <-] & _ & _ & ->).
    reflexivity.
  - eexists. split; [vm_compute; reflexivity|]. repeat constructor.
  - eexists. split; [vm_compute; reflexivity|]. repeat constructor.
Qed.

Lemma resolveSplits_ignores_payer_witness :
  exists out,
    resolveSplits 100 PERCENTAGE test_percentages "user3" = Ok out
    /\ map rs_userId out = ["user1"; "user2"; "user3"].
Proof.
  assert (E : { out | resolveSplits 100 PERCENTAGE test_percentages "user3"
                      = Ok out })
    by (eexists; vm_compute; reflexivity).
  destruct E as [out E]. exists out. split; [exact E|].
  destruct resolveSplits_ignores_payer as (_ & _ & H & _).
  pose proof (H 100 (mkSplitInput "user1" (Some (num 33.33)))
                [mkSplitInput "user2" (Some (num 33.33));
                 mkSplitInput "user3" (Some (num 33.34))] "user3" out E
                test_percentages_finite) as H'.
  cbv zeta in H'. rewrite H'. reflexivity.
Defined.

(** C4, as amended.  A Percentage split succeeds exactly when every
    participant supplies a value that is not below 0 and not above 100
    and the doubles, added in input order, are within 0.01 of 100 as the
    test on doubles sees it.  When the values are finite, the first
    participant then gets the cut share plus the remainder when that is
    strictly positive, the others their cut shares.  For a total in
    whole cents, not negative and below [10^14], and percentages with at
    most two fraction digits that sum to at most 101, the shares are the
    rule of the specification: the floors of [totalAmount * value / 100]
    to 2 decimals, the first raised by the remainder
    [totalAmount - sum of the floors] when that is strictly positive. *)
Theorem percentage_split_outcome (totalAmount : Q)
    (participants : list SplitInput) (payerId : string) :
  let r := resolveSplits totalAmount PERCENTAGE participants payerId in
  ((exists out, r = Ok out)
   <-> Forall percentage_value_ok participants
       /\ within_one_cent (number_sum value_bang participants)
                          JSNumber.hundred)
  /\ (forall out, r = Ok out -> finite_values participants ->
        exists p ps,
          participants = p :: ps
          /\ let cut := toDecimalPlaces 2 ROUND_DOWN
                          (dividedBy (times totalAmount (decimal_value p))
                                     100) in
             let remainder := percentage_remainder totalAmount participants in
             out = share (userId p)
                     (if greaterThan remainder 0 then plus cut remainder
                      else cut)
                   :: percentage_cuts totalAmount ps)
  /\ (forall out, r = Ok out -> finite_values participants ->
        Money totalAmount -> 0 <= totalAmount -> totalAmount < 10 ^ 14 ->
        Forall plain_percentage participants ->
        sumValues participants <= 101 ->
        same_shares out (percentage_shares totalAmount participants)).
Proof.
  cbv zeta. split; [split|split].
  - intros [out Hout].
    destruct (resolveSplits_Ok_cases _ _ _ _ _ Hout) as (p & ps & _ & H1 & H2 & _).
    split; assumption.
  - intros [Hok Hs].
    assert (Hne : participants <> []).
    { intros ->. exact (no_percentages_far_from_100 Hs). }
    rewrite (resolveSplits_nonempty _ _ _ _ Hne).
    destruct (resolvePercentageSplit_cases totalAmount participants)
      as [(l1 & p & l2 & -> & _ & Hp & _)
         | [(_ & Hfar & _) | (_ & _ & p & ps & _ & E)]].
    + exfalso. apply Hp. rewrite Forall_app, Forall_cons in Hok. tauto.
    + contradiction.
    + rewrite E. eauto.
  - intros out Hout _.
    destruct (resolveSplits_Ok_cases _ _ _ _ _ Hout) as (p & ps & -> & _ & _ & ->).
    exists p, ps. split; reflexivity.
  - intros out Hout _ Hm Ht Hb Hplain Hsum.
    exact (resolvePercentageSplit_exact _ _ _ _ Hm Ht Hb Hplain Hsum Hout).
Qed.

Lemma percentage_split_outcome_witness :
  exists out, resolveSplits 100 PERCENTAGE test_percentages "user1" = Ok out
              /\ same_shares out (percentage_shares 100 test_percentages).
Proof.
  destruct (percentage_split_outcome 100 test_percentages "user1")
    as (Hiff & _ & Hshares).
  destruct (proj2 Hiff) as [out Hout].
  - split.
    + unfold test_percentages.
      repeat apply Forall_cons_2; try apply Forall_nil_2;
        eexists; (split; [reflexivity|]); split; vm_compute; reflexivity.
    + vm_compute. reflexivity.
  - exists out. split; [exact Hout|].
    apply (Hshares out Hout);
      [exact test_percentages_finite | exact Money_100
      | vm_compute; discriminate | reflexivity
      | exact test_percentages_plain | vm_compute; discriminate].
Defined.

(** C4 as stated fails: 64.04 and 35.949999999999996 sum to
    99.989999999999996, more than 0.01 away from 100, and the split
    succeeds, because the doubles add up to 99.99000000000001; three times
    33.33 is exactly 0.01 away from 100, and the split fails. *)
Lemma percentage_split_counterexample :
  (let ps := [mkSplitInput "A" (Some (num 64.04));
              mkSplitInput "B" (Some (num 35.949999999999996))] in
   sumValues ps == 99.989999999999996
   /\ 0.01 < Qabs (sumValues ps - 100)
   /\ exists out, resolveSplits 100 PERCENTAGE ps "A" = Ok out)
  /\
  (let ps := [mkSplitInput "A" (Some (num 33.33));
              mkSplitInput "B" (Some (num 33.33));
              mkSplitInput "C" (Some (num 33.33))] in
   Forall percentage_value_ok ps
   /\ Qabs (sumValues ps - 100) <= 0.01
   /\ exists e, resolveSplits 100 PERCENTAGE ps "A" = Throw e).
Proof.
  split; cbv zeta.
  - split; [vm_compute; reflexivity|]. split; [vm_compute; reflexivity|].
    eexists. vm_compute. reflexivity.
  - split.
    + repeat apply Forall_cons_2; try apply Forall_nil_2;
        eexists; (split; [reflexivity|]); split; vm_compute; reflexivity.
    + split; [vm_compute; discriminate|]. eexists. vm_compute. reflexivity.
Qed.

(** ** The Exact split *)

(** The Decimal sum of values in whole cents that are not negative is
    their sum, as long as it stays below [10^18]. *)
Lemma decimal_sum_exact (participants : list SplitInput) :
  Forall (fun p => Money (decimal_value p)) participants ->
  Forall exact_value_ok participants ->
  sumValues participants < 10 ^ 18 ->
  decimal_sum participants == sumValues participants.
Proof.
  intros Hm Hok Hb. unfold decimal_sum.
  rewrite (foldl_plus_exact decimal_value participants).
  - fold (sumValues participants). lra.
  - apply Forall_and. split; [assumption|].
    eapply Forall_impl; [exact Hok|]. apply exact_value_nonneg.
  - exact Money_0.
  - lra.
  - fold (sumValues participants). lra.
Qed.

Lemma decimal_sum_Money (participants : list SplitInput) :
  Forall (fun p => Money (decimal_value p)) participants ->
  Money (decimal_sum participants).
Proof.
  unfold decimal_sum. generalize Money_0. generalize 0 at 1 2.
  intros a Ha H. revert a Ha.
  induction H as [|p ps Hp _ IH]; intros a Ha; [exact Ha|].
  cbn [foldl]. apply IH. now apply Money_plus.
Qed.

Lemma sumValues_ok_nonneg (participants : list SplitInput) :
  Forall exact_value_ok participants -> 0 <= sumValues participants.
Proof.
  induction 1 as [|p ps Hp _ IH]; [cbn; lra|].
  cbn [sumValues foldr]. fold (sumValues ps).
  pose proof (exact_value_nonneg p Hp). lra.
Qed.

(** With whole cents below [10^17] on both sides, the tolerance test of
    the Exact split is the test on the sum of the values. *)
Lemma exact_test_exact (totalAmount : Q) (participants : list SplitInput) :
  Money totalAmount -> Qabs totalAmount < 10 ^ 17 ->
  Forall (fun p => Money (decimal_value p)) participants ->
  Forall exact_value_ok participants ->
  sumValues participants < 10 ^ 17 ->
  minus (decimal_sum participants) totalAmount
  == sumValues participants - totalAmount.
Proof.
  intros Hm Hb Hms Hok Hs.
  pose proof pow10_17_18 as H78.
  pose proof (sumValues_ok_nonneg _ Hok) as H0.
  assert (E : decimal_sum participants == sumValues participants)
    by (apply decimal_sum_exact; try assumption; lra).
  apply Qabs_Qlt_condition in Hb.
  assert (H2 : 10 ^ 17 + 10 ^ 17 < 10 ^ 18) by reflexivity.
  rewrite minus_exact.
  - now rewrite E.
  - now apply decimal_sum_Money.
  - assumption.
  - rewrite E. apply Qabs_Qlt_condition. split; lra.
Qed.

Lemma thirty_thirty_finite : finite_values thirty_thirty.
Proof.
  repeat apply Forall_cons_2; try apply Forall_nil_2; vm_compute; reflexivity.
Qed.

(** The first element a loop rejects is determined by the list. *)
Lemma first_rejected {A} (ok : A -> Prop) (l1 l2 l1' l2' : list A) (p q : A) :
  l1 ++ p :: l2 = l1' ++ q :: l2' ->
  Forall ok l1 -> ~ ok p -> Forall ok l1' -> ~ ok q -> p = q.
Proof.
  intros E H1 Hp. revert l1' E.
  induction H1 as [|x l1 Hx H1 IH]; intros [|y l1'] E H1' Hq; cbn in E.
  - congruence.
  - injection E as -> _. apply Forall_cons in H1'. tauto.
  - injection E as -> _. tauto.
  - injection E as -> E. apply Forall_cons in H1' as [_ H1'].
    now apply (IH l1').
Qed.

(** C5, as amended.  An Exact split of finite values over a non-empty
    list fails if and only if some value is missing or negative, or the
    Decimal sum of the values differs from the total by more than 0.01,
    sum and difference being rounded to 20 significant digits.  It fails with the
    invalid-amount error, naming the first such participant, in the first
    case, and with the sum-mismatch error, holding both sums, in the
    second case only.  When it does not fail, each share is the value
    rounded to 2 decimals.  For a total and values in whole cents, below
    [10^17], the sum-mismatch error comes exactly when every value is
    there and not negative and the values differ from the total by more
    than 0.01.  100.00 over 30 and 30 fails with the sum-mismatch error
    of 60 against 100. *)
Theorem exact_split_outcome :
  (forall (totalAmount : Q) (participants : list SplitInput) (payerId : string),
      participants <> [] -> finite_values participants ->
      let r := resolveSplits totalAmount EXACT participants payerId in
      let far := 0.01 < Qabs (minus (decimal_sum participants) totalAmount) in
      ((exists e, r = Throw e)
       <-> Exists (fun p => ~ exact_value_ok p) participants \/ far)
      /\ ((exists u, r = Throw (InvalidExactAmount u))
          <-> Exists (fun p => ~ exact_value_ok p) participants)
      /\ (forall l1 p l2,
            participants = l1 ++ p :: l2 -> Forall exact_value_ok l1 ->
            ~ exact_value_ok p -> r = Throw (InvalidExactAmount (userId p)))
      /\ ((exists sum total, r = Throw (ExactAmountsDontEqualTotal sum total))
          <-> Forall exact_value_ok participants /\ far)
      /\ (forall sum total,
            r = Throw (ExactAmountsDontEqualTotal sum total) ->
            sum = decimal_sum participants /\ total = totalAmount)
      /\ (forall out, r = Ok out -> out = exact_shares participants)
      /\ (Money totalAmount -> Qabs totalAmount < 10 ^ 17 ->
          Forall (fun p => Money (decimal_value p)) participants ->
          sumValues participants < 10 ^ 17 ->
          ((exists sum total, r = Throw (ExactAmountsDontEqualTotal sum total))
           <-> Forall exact_value_ok participants
               /\ 0.01 < Qabs (sumValues participants - totalAmount))))
  /\ resolveSplits 100 EXACT thirty_thirty "A"
     = Throw (ExactAmountsDontEqualTotal 60 100).
Proof.
  split; [|vm_compute; reflexivity].
  intros totalAmount participants payerId Hne _. cbv zeta.
  rewrite (resolveSplits_nonempty _ _ _ _ Hne).
  assert (Hexact : Forall exact_value_ok participants ->
            Money totalAmount -> Qabs totalAmount < 10 ^ 17 ->
            Forall (fun p => Money (decimal_value p)) participants ->
            sumValues participants < 10 ^ 17 ->
            Qabs (minus (decimal_sum participants) totalAmount)
            == Qabs (sumValues participants - totalAmount)).
  { intros Hok Hm Hb Hms Hs. apply Qabs_wd. now apply exact_test_exact. }
  destruct (resolveExactSplit_cases totalAmount participants)
    as [(l1 & p & l2 & Hsplit & Hl1 & Hp & E)
       | [(Hok & Hfar & E) | (Hok & Hnear & E)]];
    rewrite E.
  - assert (Hex : Exists (fun p => ~ exact_value_ok p) participants).
    { rewrite Hsplit, Exists_app, Exists_cons. tauto. }
    assert (Hnall : ~ Forall exact_value_ok participants).
    { intros Hall. rewrite Hsplit, Forall_app, Forall_cons in Hall. tauto. }
    split; [|split; [|split; [|split; [|split; [|split]]]]].
    + split; [intros _; left; exact Hex | intros _; eauto].
    + split; [intros _; exact Hex | intros _; eauto].
    + intros l1' q l2' E' Hl1' Hq. rewrite E' in Hsplit.
      now rewrite (first_rejected _ _ _ _ _ _ _ Hsplit Hl1' Hq Hl1 Hp).
    + split; [intros (sum & total & H); discriminate H | tauto].
    + intros sum total H. discriminate H.
    + intros out H. discriminate H.
    + intros _ _ _ _.
      split; [intros (sum & total & H); discriminate H | tauto].
  - assert (Hnex : ~ Exists (fun p => ~ exact_value_ok p) participants).
    { intros Hex. apply Exists_exists in Hex as (q & Hin & Hq).
      rewrite Forall_forall in Hok. auto. }
    split; [|split; [|split; [|split; [|split; [|split]]]]].
    + split; [intros _; right; exact Hfar | intros _; eauto].
    + split; [intros (u & H); discriminate H | tauto].
    + intros l1 p l2 -> _ Hp. rewrite Forall_app, Forall_cons in Hok. tauto.
    + split; [intros _; split; assumption | intros _; eauto].
    + intros sum total H. injection H as <- <-. split; reflexivity.
    + intros out H. discriminate H.
    + intros Hm Hb Hms Hs. rewrite <- (Hexact Hok Hm Hb Hms Hs).
      split; [intros _; split; assumption | intros _; eauto].
  - assert (Hnex : ~ Exists (fun p => ~ exact_value_ok p) participants).
    { intros Hex. apply Exists_exists in Hex as (q & Hin & Hq).
      rewrite Forall_forall in Hok. auto. }
    split; [|split; [|split; [|split; [|split; [|split]]]]].
    + split; [intros (e & H); discriminate H | intros [H | H]; [tauto | lra]].
    + split; [intros (u & H); discriminate H | tauto].
    + intros l1 p l2 -> _ Hp. rewrite Forall_app, Forall_cons in Hok. tauto.
    + split; [intros (sum & total & H); discriminate H | intros [_ H]; lra].
    + intros sum total H. discriminate H.
    + intros out H. now injection H.
    + intros Hm Hb Hms Hs. rewrite <- (Hexact Hok Hm Hb Hms Hs).
      split; [intros (sum & total & H); discriminate H | intros [_ H]; lra].
Qed.

Lemma exact_split_outcome_witness :
  exists e, resolveSplits 100 EXACT thirty_thirty "A" = Throw e.
Proof.
  apply (proj1 (proj1 exact_split_outcome 100 thirty_thirty "A"
                  ltac:(discriminate) thirty_thirty_finite)).
  right. vm_compute. reflexivity.
Defined.

(** C5 as stated fails: a missing value makes the Exact split fail, but
    with the invalid-amount error, not with the sum-mismatch error; over
    the empty list, where the sum 0 is far from the total, the error is
    that of the empty list; and the values [10^21] and 0.3 differ from
    the total [10^21] by 0.3, but their Decimal sum is rounded to
    [10^21], and the split succeeds. *)
Lemma exact_split_counterexample :
  (Exists (fun p => value p = None) missing_value
   /\ finite_values missing_value
   /\ resolveSplits 100 EXACT missing_value "A" = Throw (InvalidExactAmount "A")
   /\ ~ exists sum total,
          resolveSplits 100 EXACT missing_value "A"
          = Throw (ExactAmountsDontEqualTotal sum total))
  /\ (0.01 < Qabs (sumValues [] - 100)
      /\ resolveSplits 100 EXACT [] "A" = Throw AtLeastOneParticipant)
  /\ (let total := 1000000000000000000000 in
      let ps := [mkSplitInput "A" (Some (num total));
                 mkSplitInput "B" (Some (num 0.3))] in
      new_Decimal (num total) == total
      /\ finite_values ps
      /\ Forall exact_value_ok ps
      /\ sumValues ps - total == 0.3
      /\ exists out, resolveSplits total EXACT ps "A" = Ok out).
Proof.
  split; [|split].
  - split; [left; reflexivity|]. split.
    { repeat apply Forall_cons_2; try apply Forall_nil_2;
        vm_compute; reflexivity. }
    split; [reflexivity|].
    intros (sum & total & H). discriminate H.
  - split; reflexivity.
  - cbv zeta. split; [vm_compute; reflexivity|]. split; [|split].
    + repeat apply Forall_cons_2; try apply Forall_nil_2;
        vm_compute; reflexivity.
    + repeat apply Forall_cons_2; try apply Forall_nil_2;
        eexists; (split; [reflexivity|]); vm_compute; reflexivity.
    + split; [vm_compute; reflexivity|]. eexists. vm_compute. reflexivity.
Qed.

(** ** The validator and the resolver *)

Lemma size_list_to_set_le (l : list string) :
  (size (list_to_set l : gset string) <= length l)%nat.
Proof.
  induction l as [|x l IH]; [reflexivity|].
  rewrite list_to_set_cons, size_union_alt, size_singleton. cbn [length].
  pose proof (subseteq_size (list_to_set l ∖ {[x]}) (list_to_set l : gset string)
                ltac:(set_solver)).
  lia.
Qed.

(** [uniqueIds.size !== userIds.length] tests for a duplicate. *)
Lemma size_list_to_set_NoDup (l : list string) :
  size (list_to_set l : gset string) = length l <-> NoDup l.
Proof.
  split; [|apply size_list_to_set].
  induction l as [|x l IH]; [constructor|].
  rewrite list_to_set_cons. cbn [length]. intros Hsize.
  destruct (decide (x ∈ l)) as [Hin|Hnin].
  - exfalso. pose proof (size_list_to_set_le l).
    assert (E : ({[x]} ∪ list_to_set l : gset string) = list_to_set l)
      by set_solver.
    rewrite E in Hsize. lia.
  - rewrite size_union, size_singleton in Hsize by set_solver.
    constructor; [assumption|]. apply IH. lia.
Qed.

Lemma duplicate_test (participants : list SplitInput) :
  negb (size (list_to_set (map userId participants) : gset string)
        =? length (map userId participants))%nat = true
  <-> ~ NoDup (map userId participants).
Proof. rewrite negb_true_iff, Nat.eqb_neq, size_list_to_set_NoDup. tauto. Qed.

Lemma empty_test (participants : list SplitInput) :
  (length participants =? 0)%nat = true <-> participants = [].
Proof. rewrite Nat.eqb_eq. destruct participants; cbn; split; congruence. Qed.

(** The messages of the validator, in the order it pushes them. *)
Lemma validateSplitInput_shape (splitType : SplitType) (amount : number)
    (participants : list SplitInput) :
  validateSplitInput splitType amount participants
  = (if (length participants =? 0)%nat then [MsgAtLeastOneParticipant] else [])
    ++ (if JSNumber.le amount JSNumber.zero then [MsgAmountGreaterThan0] else [])
    ++ (if negb (size (list_to_set (map userId participants) : gset string)
                 =? length (map userId participants))%nat
        then [MsgDuplicateParticipants] else [])
    ++ match splitType with
       | EQUAL => []
       | EXACT =>
           let sum := number_sum value_or_0 participants in
           if JSNumber.gt (JSNumber.Math_abs (JSNumber.sub sum amount))
                          JSNumber.one_cent
           then [MsgExactMustSumTo amount sum] else []
       | PERCENTAGE =>
           let sum := number_sum value_or_0 participants in
           if JSNumber.gt (JSNumber.Math_abs (JSNumber.sub sum JSNumber.hundred))
                          JSNumber.one_cent
           then [MsgPercentagesMustSumTo100 sum] else []
       end.
Proof.
  unfold validateSplitInput, push_if, number_sum. cbv zeta.
  destruct (length participants =? 0)%nat, (JSNumber.le amount JSNumber.zero),
    (negb _), splitType;
    try destruct (JSNumber.gt _ JSNumber.one_cent);
    cbn [app]; reflexivity.
Qed.

(** C6, as amended.  The validator puts the message of the empty list
    in its list exactly when the list is empty, that of the amount
    exactly when the test [amount <= 0] holds, and that of the duplicate
    exactly when two participants have the same id; when one of the
    three holds, the first message of the list, the one the handler
    answers with, names one of the broken rules.  The resolver throws
    its empty-list error exactly on the empty list: over a non-empty
    list an Equal split returns shares whatever the total and the ids
    are. *)
Theorem validation_rules (splitType : SplitType) (amount : number)
    (totalAmount : Q) (participants : list SplitInput) (payerId : string) :
  let errors := validateSplitInput splitType amount participants in
  (In MsgAtLeastOneParticipant errors <-> participants = [])
  /\ (In MsgAmountGreaterThan0 errors
      <-> JSNumber.le amount JSNumber.zero = true)
  /\ (In MsgDuplicateParticipants errors
      <-> ~ NoDup (map userId participants))
  /\ (participants = [] \/ JSNumber.le amount JSNumber.zero = true
      \/ ~ NoDup (map userId participants) ->
      exists msg rest,
        errors = msg :: rest /\ rule_broken amount participants msg)
  /\ (resolveSplits totalAmount splitType participants payerId
      = Throw AtLeastOneParticipant <-> participants = [])
  /\ (participants <> [] ->
      exists out,
        resolveSplits totalAmount EQUAL participants payerId = Ok out).
Proof.
  cbv zeta. rewrite validateSplitInput_shape.
  pose proof (empty_test participants) as H1.
  pose proof (duplicate_test participants) as H3.
  assert (Hsums : forall msg,
            In msg match splitType with
                   | EQUAL => []
                   | EXACT =>
                       let sum := number_sum value_or_0 participants in
                       if JSNumber.gt (JSNumber.Math_abs
                                         (JSNumber.sub sum amount))
                                      JSNumber.one_cent
                       then [MsgExactMustSumTo amount sum] else []
                   | PERCENTAGE =>
                       let sum := number_sum value_or_0 participants in
                       if JSNumber.gt (JSNumber.Math_abs
                                         (JSNumber.sub sum JSNumber.hundred))
                                      JSNumber.one_cent
                       then [MsgPercentagesMustSumTo100 sum] else []
                   end ->
            (exists a b, msg = MsgExactMustSumTo a b)
            \/ (exists b, msg = MsgPercentagesMustSumTo100 b)).
  { intros msg. destruct splitType; cbv zeta; [intros []| |];
      destruct (JSNumber.gt _ JSNumber.one_cent); cbn [In];
      intros H; try contradiction; destruct H as [<- | []]; eauto. }
  set (sums := match splitType with EQUAL => [] | _ => _ end) in *.
  assert (Hno : forall msg,
            (forall a b, msg <> MsgExactMustSumTo a b) ->
            (forall b, msg <> MsgPercentagesMustSumTo100 b) ->
            ~ In msg sums).
  { intros msg Ha Hb Hin. destruct (Hsums msg Hin) as [(a & b & ->) | (b & ->)];
      [exact (Ha a b eq_refl) | exact (Hb b eq_refl)]. }
  pose proof (Hno MsgAtLeastOneParticipant ltac:(discriminate)
                ltac:(discriminate)) as N1.
  pose proof (Hno MsgAmountGreaterThan0 ltac:(discriminate)
                ltac:(discriminate)) as N2.
  pose proof (Hno MsgDuplicateParticipants ltac:(discriminate)
                ltac:(discriminate)) as N3.
  clearbody sums. clear Hsums Hno.
  split; [|split; [|split; [|split; [|split]]]].
  - rewrite <- H1.
    destruct (length participants =? 0)%nat, (JSNumber.le amount JSNumber.zero),
      (negb _); cbn [app In]; intuition congruence.
  - destruct (length participants =? 0)%nat, (JSNumber.le amount JSNumber.zero),
      (negb _); cbn [app In]; intuition congruence.
  - rewrite <- H3.
    destruct (length participants =? 0)%nat, (JSNumber.le amount JSNumber.zero),
      (negb _); cbn [app In]; intuition congruence.
  - rewrite <- H1, <- H3. intros H.
    destruct (length participants =? 0)%nat eqn:E1.
    { exists MsgAtLeastOneParticipant. eexists. split; [reflexivity|].
      cbn [rule_broken]. now apply H1. }
    destruct (JSNumber.le amount JSNumber.zero) eqn:E2.
    { exists MsgAmountGreaterThan0. eexists. split; [reflexivity|].
      exact E2. }
    destruct (negb _) eqn:E3.
    { exists MsgDuplicateParticipants. eexists. split; [reflexivity|].
      cbn [rule_broken]. now apply H3. }
    exfalso. intuition congruence.
  - split.
    + intros Hr. destruct participants as [|p ps]; [reflexivity|]. exfalso.
      rewrite resolveSplits_nonempty in Hr by discriminate.
      destruct splitType; [discriminate Hr | |].
      * destruct (resolveExactSplit_cases totalAmount (p :: ps))
          as [(l1 & q & l2 & _ & _ & _ & E) | [(_ & _ & E) | (_ & _ & E)]];
          rewrite E in Hr; discriminate Hr.
      * destruct (resolvePercentageSplit_cases totalAmount (p :: ps))
          as [(l1 & q & l2 & _ & _ & _ & E)
             | [(_ & _ & E) | (_ & _ & p' & ps' & _ & E)]];
          rewrite E in Hr; discriminate Hr.
    + intros ->. reflexivity.
  - intros Hne. rewrite (resolveSplits_nonempty _ _ _ _ Hne). eauto.
Qed.

Lemma validation_rules_witness :
  exists msg rest,
    validateSplitInput EQUAL (num 100) twice_user1 = msg :: rest
    /\ rule_broken (num 100) twice_user1 msg.
Proof.
  destruct (validation_rules EQUAL (num 100) 100 twice_user1 "user1")
    as (_ & _ & _ & H & _).
  apply H. right. right. intros Hnd. apply NoDup_cons in Hnd as [Hnin _].
  apply Hnin. left.
Defined.

(** C6 as stated fails: the resolver returns shares for a total of -100
    and for a list that names [user1] twice; neither input is rejected
    before the shares are computed. *)
Lemma validation_counterexample :
  (exists out, resolveSplits (-100) EQUAL abc "A" = Ok out
               /\ same_shares out [share "A" (-33.34); share "B" (-33.33);
                                   share "C" (-33.33)])
  /\ (~ NoDup (map userId twice_user1)
      /\ exists out, resolveSplits 100 EQUAL twice_user1 "user1" = Ok out
                     /\ same_shares out [share "user1" 50; share "user1" 50]).
Proof.
  split; [|split].
  - eexists. split; [vm_compute; reflexivity|]. repeat constructor.
  - intros Hnd. apply NoDup_cons in Hnd as [Hnin _]. apply Hnin. left.
  - eexists. split; [vm_compute; reflexivity|]. repeat constructor.
Qed.

End ResolverTheorems.

(** * More about the split resolver *)

Section ResolverExtras.
Import Decimal SplitCalculator.

(** X1.  The shares come back one per participant, in the order of the
    input, under all three policies. *)
Theorem resolveSplits_keeps_order (totalAmount : Q) (splitType : SplitType)
    (participants : list SplitInput) (payerId : string)
    (out : list ResolvedSplit) :
  resolveSplits totalAmount splitType participants payerId = Ok out ->
  map rs_userId out = map userId participants.
Proof.
  exact (resolveSplits_users totalAmount splitType participants payerId out).
Qed.

Lemma resolveSplits_keeps_order_witness :
  exists out, resolveSplits 100 PERCENTAGE test_percentages "user1" = Ok out
              /\ map rs_userId out = ["user1"; "user2"; "user3"].
Proof.
  eexists. split; [vm_compute; reflexivity|].
  apply (resolveSplits_keeps_order 100 PERCENTAGE test_percentages "user1").
  vm_compute. reflexivity.
Defined.

Lemma toDecimalPlaces_half_up_nonneg (x : Q) :
  0 <= x -> 0 <= toDecimalPlaces 2 ROUND_HALF_UP x.
Proof.
  intros Hx. pose proof (toDecimalPlaces_cents ROUND_HALF_UP x) as E.
  cbn [round_to_integer] in E.
  assert (H : 0 <= inject_Z (round_half_up (x * 100))).
  { change 0 with (inject_Z 0). rewrite <- Zle_Qle.
    apply round_half_up_sign_nonneg. lra. }
  lra.
Qed.

(** The first share of an Equal split of a total that is not negative,
    over fewer than [2^32] participants: what the rounding of the
    product of base amount and count takes away is less than the base
    amount. *)
Lemma equal_first_share_nonneg (totalAmount : Q) (participants : list SplitInput) :
  participants <> [] -> 0 <= totalAmount ->
  (Z.of_nat (length participants) < 2 ^ 32)%Z ->
  0 <= baseAmount totalAmount participants
  /\ 0 <= plus (baseAmount totalAmount participants)
               (equal_remainder totalAmount participants).
Proof.
  intros Hne Ht Hlen.
  pose proof (count_of_pos participants Hne) as Hn1.
  assert (Hn2 : count_of participants <= 4294967296).
  { unfold count_of. change 4294967296 with (inject_Z (2 ^ 32)).
    rewrite <- Zle_Qle. lia. }
  unfold equal_remainder, baseAmount.
  set (n := count_of participants) in *.
  set (eps := 1 # 20000000000000000000).
  assert (Hx : 0 <= totalAmount / n) by (apply Qle_shift_div_l; lra).
  assert (Hxn : totalAmount / n * n == totalAmount) by (field; lra).
  pose proof (round_sd_nonneg precision _ Hx) as Hq0.
  pose proof (round_sd_above _ Hx) as Hq1.
  fold (dividedBy totalAmount n) in Hq0, Hq1. fold eps in Hq1.
  destruct (round_down_bounds _ Hq0) as [Hb0 Hb1].
  set (x := totalAmount / n) in *.
  set (q := dividedBy totalAmount n) in *.
  set (b := toDecimalPlaces 2 ROUND_DOWN q) in *.
  split; [assumption|].
  assert (Hbn0 : 0 <= b * n) by nra.
  pose proof (round_sd_nonneg precision _ Hbn0) as Htb0.
  pose proof (round_sd_above _ Hbn0) as Htb1.
  fold (times b n) in Htb0, Htb1. fold eps in Htb1.
  set (tb := times b n) in *.
  assert (Heps : eps == 1 # 20000000000000000000) by reflexivity.
  assert (H1 : b * n <= totalAmount * (1 + eps)) by nra.
  unfold plus. apply round_sd_nonneg.
  destruct (Qlt_le_dec (totalAmount - tb) 0) as [Hneg|Hpos].
  - assert (Hd : totalAmount - tb <= 0) by lra.
    pose proof (round_sd_below _ Hd) as Hr. fold (minus totalAmount tb) in Hr.
    fold eps in Hr. set (r := minus totalAmount tb) in *.
    assert (H3 : b * n - b * n * ((1 + eps) * (1 + eps))
                 <= (totalAmount - tb) * (1 + eps)) by nra.
    assert (H4 : b * n * ((1 + eps) * (1 + eps) - 1) <= b).
    { assert (Hk : n * ((1 + eps) * (1 + eps) - 1) <= 1).
      { assert (Hc : (1 + eps) * (1 + eps) - 1 <= 1 # 4294967296)
          by (rewrite Heps; vm_compute; discriminate).
        assert (0 <= (1 + eps) * (1 + eps) - 1)
          by (rewrite Heps; vm_compute; discriminate).
        nra. }
      nra. }
    lra.
  - pose proof (round_sd_nonneg precision _ Hpos) as Hr.
    fold (minus totalAmount tb) in Hr. lra.
Qed.

Lemma percentage_cut_nonneg (totalAmount v : Q) :
  0 <= totalAmount -> 0 <= v ->
  0 <= toDecimalPlaces 2 ROUND_DOWN (dividedBy (times totalAmount v) 100).
Proof.
  intros Ht Hv. apply round_down_bounds. apply round_sd_nonneg.
  apply Qle_shift_div_l; [reflexivity|].
  assert (H : 0 <= times totalAmount v) by (apply round_sd_nonneg; nra).
  lra.
Qed.

(** X2.  No share is negative when the total is not; the values are
    finite numbers, and the list has fewer than [2^32] participants, as
    an array has. *)
Theorem shares_nonnegative (totalAmount : Q) (splitType : SplitType)
    (participants : list SplitInput) (payerId : string)
    (out : list ResolvedSplit) :
  resolveSplits totalAmount splitType participants payerId = Ok out ->
  0 <= totalAmount ->
  finite_values participants ->
  (Z.of_nat (length participants) < 2 ^ 32)%Z ->
  Forall (fun s => 0 <= amount s) out.
Proof.
  intros Hr Ht _ Hlen.
  pose proof (resolveSplits_Ok_nonempty _ _ _ _ _ Hr) as Hne.
  destruct (resolveSplits_Ok_cases _ _ _ _ _ Hr) as (p & ps & Hps & H).
  destruct splitType.
  - destruct (equal_first_share_nonneg totalAmount participants Hne Ht Hlen)
      as [Hb Hfirst].
    subst out. constructor; [exact Hfirst|].
    apply Forall_forall. intros s Hs. apply list_elem_of_In in Hs.
    apply in_map_iff in Hs as (q & <- & _). exact Hb.
  - destruct H as (Hok & _ & ->). unfold exact_shares. clear - Hok.
    induction Hok as [|q qs Hq _ IH]; [constructor|].
    cbn [map]. constructor; [|assumption]. cbn [share amount].
    apply toDecimalPlaces_half_up_nonneg. now apply exact_value_nonneg.
  - destruct H as (Hok & _ & ->). subst participants.
    apply Forall_cons in Hok as [Hp Hok].
    constructor.
    + cbn [share amount]. cbv zeta.
      pose proof (percentage_cut_nonneg totalAmount (decimal_value p) Ht
                    (percentage_value_nonneg p Hp)) as Hcut.
      destruct (greaterThan _ 0) eqn:G; [|exact Hcut].
      apply greaterThan_true in G. unfold plus at 1. apply round_sd_nonneg. lra.
    + clear - Hok Ht. induction Hok as [|q qs Hq _ IH]; [constructor|].
      cbn [percentage_cuts map]. constructor; [|exact IH].
      cbn [share amount]. apply percentage_cut_nonneg; [assumption|].
      now apply percentage_value_nonneg.
Qed.

Lemma shares_nonnegative_witness :
  exists out, resolveSplits 100 EQUAL abc "A" = Ok out
              /\ Forall (fun s => 0 <= amount s) out.
Proof.
  eexists. split; [vm_compute; reflexivity|].
  apply (shares_nonnegative 100 EQUAL abc "A");
    [vm_compute; reflexivity | vm_compute; discriminate
    | repeat constructor | reflexivity].
Defined.

Lemma foldl_plus_Money {A} (f : A -> Q) (l : list A) (a : Q) :
  Forall (fun s => Money (f s)) l -> Money a ->
  Money (foldl (fun acc s => plus acc (f s)) a l).
Proof.
  intros H. revert a. induction H as [|s l Hs _ IH]; intros a Ha; [exact Ha|].
  cbn [foldl]. apply IH. now apply Money_plus.
Qed.

Lemma percentage_cuts_Money (totalAmount : Q) (ps : list SplitInput) :
  Forall (fun s => Money (amount s)) (percentage_cuts totalAmount ps).
Proof.
  induction ps as [|p ps IH]; [constructor|].
  cbn [percentage_cuts map]. constructor; [|exact IH].
  apply toDecimalPlaces_Money.
Qed.

(** X3.  When the total is a whole number of cents, so is every share
    (an Exact share always is); the values are finite numbers. *)
Theorem shares_whole_cents (totalAmount : Q) (splitType : SplitType)
    (participants : list SplitInput) (payerId : string)
    (out : list ResolvedSplit) :
  resolveSplits totalAmount splitType participants payerId = Ok out ->
  Money totalAmount \/ splitType = EXACT ->
  finite_values participants ->
  Forall (fun s => Money (amount s)) out.
Proof.
  intros Hr Hm _.
  destruct (resolveSplits_Ok_cases _ _ _ _ _ Hr) as (p & ps & Hps & H).
  destruct splitType.
  - destruct Hm as [Hm | Hm]; [|discriminate Hm].
    assert (Hb : Money (baseAmount totalAmount participants))
      by apply toDecimalPlaces_Money.
    subst out. constructor.
    + cbn [share amount]. apply Money_plus; [assumption|].
      apply Money_minus; [assumption|]. now apply Money_times_Z.
    + apply Forall_forall. intros s Hs. apply list_elem_of_In in Hs.
      apply in_map_iff in Hs as (q & <- & _). exact Hb.
  - destruct H as (_ & _ & ->). unfold exact_shares.
    apply Forall_forall. intros s Hs. apply list_elem_of_In in Hs.
    apply in_map_iff in Hs as (q & <- & _). apply toDecimalPlaces_Money.
  - destruct Hm as [Hm | Hm]; [|discriminate Hm].
    destruct H as (_ & _ & ->).
    constructor; [|apply percentage_cuts_Money].
    cbn [share amount]. cbv zeta.
    destruct (greaterThan _ 0); [|apply toDecimalPlaces_Money].
    apply Money_plus; [apply toDecimalPlaces_Money|].
    apply Money_minus; [assumption|].
    apply foldl_plus_Money; [apply percentage_cuts_Money | exact Money_0].
Qed.

Lemma shares_whole_cents_witness :
  exists out, resolveSplits 100 PERCENTAGE test_percentages "user1" = Ok out
              /\ Forall (fun s => Money (amount s)) out.
Proof.
  eexists. split; [vm_compute; reflexivity|].
  apply (shares_whole_cents 100 PERCENTAGE test_percentages "user1");
    [vm_compute; reflexivity | left; exact Money_100
    | exact test_percentages_finite].
Defined.

(** The remainder of the Equal rule is a whole number of cents, fewer
    than there are participants. *)
Lemma equal_remainder_cents (totalAmount : Q) (participants : list SplitInput) :
  participants <> [] -> Money totalAmount -> 0 <= totalAmount ->
  let remainder := totalAmount
                   - equal_base totalAmount participants * count_of participants in
  0 <= remainder /\ remainder * 100 <= count_of participants - 1.
Proof.
  intros Hne Hm Ht remainder.
  destruct (equal_base_bounds totalAmount participants Hne Ht)
    as (Hb0 & Hbn & Hlt). fold remainder in Hlt.
  split; [unfold remainder; lra|].
  assert (Hmr : Money remainder).
  { apply Money_sub; [assumption|]. unfold count_of. apply Money_mul_Z.
    apply equal_base_Money. }
  apply Money_cents in Hmr as [c Hc].
  assert (Hz : (c < Z.of_nat (length participants))%Z).
  { rewrite Zlt_Qlt. fold (count_of participants). lra. }
  assert (Hz' : inject_Z (c + 1) <= inject_Z (Z.of_nat (length participants))).
  { rewrite <- Zle_Qle. lia. }
  rewrite inject_Z_plus in Hz'. change (inject_Z 1) with 1 in Hz'.
  fold (count_of participants) in Hz'. lra.
Qed.

(** X4.  In an Equal split of a total in whole cents, not negative and
    below [10^17], any two shares differ by at most one cent per
    participant but one. *)
Theorem equal_split_spread (totalAmount : Q) (participants : list SplitInput)
    (payerId : string) (out : list ResolvedSplit) :
  resolveSplits totalAmount EQUAL participants payerId = Ok out ->
  Money totalAmount -> 0 <= totalAmount -> totalAmount < 10 ^ 17 ->
  forall s1 s2, s1 ∈ out -> s2 ∈ out ->
    (amount s1 - amount s2) * 100 <= count_of participants - 1.
Proof.
  intros Hr Hm Ht Hb s1 s2 H1 H2.
  pose proof (resolveSplits_Ok_nonempty _ _ _ _ _ Hr) as Hne.
  destruct (equal_split_exact totalAmount participants Hne Hm Ht Hb)
    as (E1 & _ & E3).
  destruct (equal_remainder_cents totalAmount participants Hne Hm Ht)
    as [Hr0 Hr1].
  pose proof (count_of_pos participants Hne) as Hc.
  destruct (resolveSplits_Ok_cases _ _ _ _ _ Hr) as (p & ps & Hps & ->).
  set (base := equal_base totalAmount participants) in *.
  set (remainder := totalAmount - base * count_of participants) in *.
  assert (Hin : forall s,
            s ∈ share (userId p)
                  (plus (baseAmount totalAmount participants)
                        (equal_remainder totalAmount participants))
                :: map (fun q => share (userId q)
                                   (baseAmount totalAmount participants)) ps ->
            amount s == base + remainder \/ amount s == base).
  { intros s Hs. apply elem_of_cons in Hs as [-> | Hs].
    - left. exact E3.
    - right. apply list_elem_of_In in Hs.
      apply in_map_iff in Hs as (q & <- & _). exact E1. }
  destruct (Hin s1 H1) as [-> | ->], (Hin s2 H2) as [-> | ->]; lra.
Qed.

Lemma equal_split_spread_witness :
  let out := resolveEqualSplit 100 abc in
  (amount (nth 0 out (share "" 0)) - amount (nth 1 out (share "" 0))) * 100 <= 2.
Proof.
  intros out.
  apply (equal_split_spread 100 abc "A" out eq_refl Money_100
           ltac:(vm_compute; discriminate) eq_refl
           (nth 0 out (share "" 0)) (nth 1 out (share "" 0))).
  - apply list_elem_of_In, nth_In. vm_compute. lia.
  - apply list_elem_of_In, nth_In. vm_compute. lia.
Defined.

Lemma push_if_nil (c : bool) (msg : ValidationMessage)
    (errors : list ValidationMessage) :
  push_if c msg errors = [] <-> c = false /\ errors = [].
Proof.
  unfold push_if. destruct c; split.
  - intros H. destruct errors; discriminate H.
  - intros [H _]. discriminate H.
  - auto.
  - tauto.
Qed.

Lemma validateSplitInput_nil_iff (splitType : SplitType) (amount : number)
    (participants : list SplitInput) :
  validateSplitInput splitType amount participants = []
  <-> participants <> []
      /\ JSNumber.le amount JSNumber.zero = false
      /\ NoDup (map userId participants)
      /\ match splitType with
         | EQUAL => True
         | EXACT =>
             within_one_cent (number_sum value_or_0 participants) amount
         | PERCENTAGE =>
             within_one_cent (number_sum value_or_0 participants)
                             JSNumber.hundred
         end.
Proof.
  assert (H1 : (length participants =? 0)%nat = false <-> participants <> []).
  { rewrite Nat.eqb_neq. destruct participants; cbn; split; congruence. }
  assert (H3 : negb (size (list_to_set (map userId participants) : gset string)
                     =? length (map userId participants))%nat = false
               <-> NoDup (map userId participants)).
  { rewrite negb_false_iff, Nat.eqb_eq. apply size_list_to_set_NoDup. }
  unfold validateSplitInput, within_one_cent, number_sum. cbv zeta.
  destruct splitType; rewrite ?push_if_nil, ?H1, ?H3; tauto.
Qed.

(** X7.  The validator returns no message exactly when the list is not
    empty, the test [amount <= 0] is false, no user is listed twice, and,
    for Exact and Percentage, the doubles (a missing value and 0 counted
    as 0), added in input order, are within 0.01 of the amount, or of
    100, as the test on doubles sees it.  So the Exact values 0.01 and
    100 are not accepted for 100: their sum of doubles is further than
    the double 0.01 from 100; and 64.04 and 35.949999999999996 are
    accepted as percentages. *)
Theorem validateSplitInput_accepts_iff :
  (forall (splitType : SplitType) (amount : number)
          (participants : list SplitInput),
      validateSplitInput splitType amount participants = []
      <-> participants <> []
          /\ JSNumber.le amount JSNumber.zero = false
          /\ NoDup (map userId participants)
          /\ match splitType with
             | EQUAL => True
             | EXACT =>
                 within_one_cent (number_sum value_or_0 participants) amount
             | PERCENTAGE =>
                 within_one_cent (number_sum value_or_0 participants)
                                 JSNumber.hundred
             end)
  /\ (exists sum,
        validateSplitInput EXACT (num 100)
          [mkSplitInput "A" (Some (num 0.01)); mkSplitInput "B" (Some (num 100))]
        = [MsgExactMustSumTo (num 100) sum])
  /\ validateSplitInput PERCENTAGE (num 100)
       [mkSplitInput "A" (Some (num 64.04));
        mkSplitInput "B" (Some (num 35.949999999999996))] = [].
Proof.
  split; [|split; [eexists; vm_compute; reflexivity | vm_compute; reflexivity]].
  exact validateSplitInput_nil_iff.
Qed.

Lemma validateSplitInput_accepts_iff_witness :
  validateSplitInput EQUAL (num 100) abc = [].
Proof.
  apply (proj1 validateSplitInput_accepts_iff EQUAL (num 100) abc).
  split; [discriminate|]. split; [vm_compute; reflexivity|].
  split; [|exact I].
  repeat (apply NoDup_cons_2;
          [intros H; apply list_elem_of_In in H; cbn in H; intuition discriminate|]).
  apply NoDup_nil_2.
Defined.

(** X6.  A Percentage split of a total in whole cents, not negative and
    below [10^14], with percentages of at most two fraction digits that
    sum to no more than 100.01, never hands out less than the total, and
    at most 0.01 percent more. *)
Theorem percentage_split_never_short (totalAmount : Q)
    (participants : list SplitInput) (payerId : string)
    (out : list ResolvedSplit) :
  resolveSplits totalAmount PERCENTAGE participants payerId = Ok out ->
  finite_values participants ->
  Money totalAmount -> 0 <= totalAmount -> totalAmount < 10 ^ 14 ->
  Forall plain_percentage participants ->
  sumValues participants <= 100.01 ->
  totalAmount <= sumAmounts out
  /\ sumAmounts out * 100 <= totalAmount * 100.01.
Proof.
  intros Hr _ Hm Ht Hb Hplain Hsum.
  pose proof (resolveSplits_Ok_nonempty _ _ _ _ _ Hr) as Hne.
  rewrite (same_shares_sum _ _
             (resolvePercentageSplit_exact _ _ _ _ Hm Ht Hb Hplain
                ltac:(lra) Hr)).
  destruct (percentage_floors_bound totalAmount Ht _ Hplain) as [_ Hfb].
  unfold percentage_shares.
  destruct participants as [|p ps]; [congruence|].
  cbn [percentage_floors map raise_first] in *.
  cbn [sumAmounts foldr share amount rs_userId] in *.
  fold (percentage_floors totalAmount ps) in *.
  fold (sumAmounts (percentage_floors totalAmount ps)) in *.
  destruct (Qlt_le_dec 0 _) as [Hlt|Hle]; split; nra.
Qed.

Lemma percentage_split_never_short_witness :
  exists out, resolveSplits 100 PERCENTAGE test_percentages "user1" = Ok out
              /\ 100 <= sumAmounts out.
Proof.
  assert (E : { out | resolveSplits 100 PERCENTAGE test_percentages "user1"
                      = Ok out })
    by (eexists; vm_compute; reflexivity).
  destruct E as [out E]. exists out. split; [exact E|].
  apply (percentage_split_never_short 100 test_percentages "user1" out E
           test_percentages_finite Money_100);
    [vm_compute; discriminate | reflexivity | exact test_percentages_plain
    | vm_compute; discriminate].
Defined.

(** X22.  The validator and the Exact resolver do not take the same
    sum: the doubles 64.04 and 35.949999999999996 add up to
    99.99000000000001, which the validator accepts for 100, and every
    value is there and in range; their decimals add up to
    99.989999999999996, and the resolver throws the sum-mismatch error. *)
Theorem validated_exact_split_throws :
  let ps := [mkSplitInput "A" (Some (num 64.04));
             mkSplitInput "B" (Some (num 35.949999999999996))] in
  validateSplitInput EXACT (num 100) ps = []
  /\ new_Decimal (num 100) == 100
  /\ new_Decimal (number_sum value_or_0 ps) == 99.99000000000001
  /\ Forall exact_value_ok ps
  /\ exists sum,
       resolveSplits 100 EXACT ps "A"
       = Throw (ExactAmountsDontEqualTotal sum 100)
       /\ sum == 99.989999999999996.
Proof.
  cbv zeta. split; [vm_compute; reflexivity|].
  split; [vm_compute; reflexivity|]. split; [vm_compute; reflexivity|].
  split.
  - repeat apply Forall_cons_2; try apply Forall_nil_2;
      eexists; (split; [reflexivity|]); vm_compute; reflexivity.
  - eexists. split; [vm_compute; reflexivity|]. reflexivity.
Qed.

(** ** The two sums of doubles

    The validator adds [p.value || 0], the Percentage resolver
    [p.value!]; the two differ on -0 and on NaN. *)

Lemma binary_round_aux_sign (mx ex : Z) (lx : location) :
  JSNumber.not_negative
    (binary_round_aux JSNumber.prec JSNumber.emax false mx ex lx) = true.
Proof.
  unfold binary_round_aux.
  destruct (shr_fexp _ _ mx ex lx) as [mrs' e'].
  destruct (shr_fexp _ _ _ e' loc_Exact) as [mrs'' e''].
  destruct (shr_m mrs''); [reflexivity | | reflexivity].
  destruct (_ <=? _)%Z; reflexivity.
Qed.

Lemma add_not_negative (x y : number) :
  JSNumber.not_negative x = true -> JSNumber.not_negative y = true ->
  JSNumber.not_negative (JSNumber.add x y) = true.
Proof.
  destruct x as [[]|[]| |[] mx ex], y as [[]|[]| |[] my ey];
    try discriminate; try reflexivity.
  intros _ _. unfold JSNumber.add, SFadd. cbv zeta. cbn [cond_Zopp].
  rewrite <- Pos2Z.inj_add. unfold binary_normalize, binary_round.
  destruct (shl_align _ _ _) as [mz ez]. apply binary_round_aux_sign.
Qed.

(** Adding -0 is adding +0 when the sum so far is not negative. *)
Lemma add_zero_sign (acc : number) (s : bool) :
  JSNumber.not_negative acc = true ->
  JSNumber.add acc (S754_zero s) = JSNumber.add acc JSNumber.zero.
Proof. destruct acc as [[]|[]| |[] m e], s; try discriminate; reflexivity. Qed.

Lemma add_nan (x : number) : JSNumber.add S754_nan x = S754_nan.
Proof. reflexivity. Qed.

(** The values the Percentage loop accepts are not negative, or are
    -0. *)
Lemma in_range_not_negative (v : number) :
  JSNumber.lt v JSNumber.zero = false ->
  JSNumber.not_negative v = true \/ v = S754_zero true.
Proof.
  destruct v as [[]|[]| |[] m e]; intros H; try (now left); try (now right);
    discriminate H.
Qed.

(** On values that the loop accepts, the sum of the resolver is NaN or
    is the sum of the validator. *)
Lemma number_sums_agree (participants : list SplitInput) :
  Forall percentage_value_ok participants ->
  number_sum value_bang participants = S754_nan
  \/ number_sum value_bang participants = number_sum value_or_0 participants.
Proof.
  intros Hok. unfold number_sum.
  enough (H : forall acc,
             JSNumber.not_negative acc = true ->
             foldl (fun a p => JSNumber.add a (value_bang p)) acc participants
             = S754_nan
             \/ foldl (fun a p => JSNumber.add a (value_bang p)) acc participants
                = foldl (fun a p => JSNumber.add a (value_or_0 p)) acc
                        participants)
    by (apply H; reflexivity).
  induction Hok as [|p ps (v & Hv & Hlt & _) _ IH]; intros acc Hacc;
    [now right|].
  cbn [foldl].
  assert (Eb : value_bang p = v) by (unfold value_bang; now rewrite Hv).
  assert (Eo : value_or_0 p = if JSNumber.truthy v then v else JSNumber.zero)
    by (unfold value_or_0; now rewrite Hv).
  rewrite Eb, Eo. clear Eb Eo.
  destruct (in_range_not_negative v Hlt) as [Hvn | ->];
    [|rewrite (add_zero_sign acc true Hacc); apply IH;
      now apply add_not_negative].
  destruct v as [s|s| |s m e]; cbn [JSNumber.truthy].
  - rewrite (add_zero_sign acc s Hacc). apply IH.
    now apply add_not_negative.
  - apply IH. now apply add_not_negative.
  - left. clear. replace (JSNumber.add acc S754_nan) with S754_nan
      by (destruct acc as [[]|[]| |[] m e]; reflexivity).
    induction ps as [|q qs IHq]; [reflexivity|]. cbn [foldl].
    now rewrite add_nan.
  - apply IH. now apply add_not_negative.
Qed.

Lemma nan_within_one_cent (target : number) :
  within_one_cent S754_nan target.
Proof. reflexivity. Qed.

(** X23.  Once the validator has passed, a Percentage split returns
    shares exactly when every value is there, not below 0 and not above
    100: on such values the sum of doubles that the resolver takes is
    the sum of the validator, or is NaN, and passes the tolerance test
    as well. *)
Theorem validated_percentage_resolves (amount : number) (totalAmount : Q)
    (participants : list SplitInput) (payerId : string) :
  validateSplitInput PERCENTAGE amount participants = [] ->
  ((exists out,
       resolveSplits totalAmount PERCENTAGE participants payerId = Ok out)
   <-> Forall percentage_value_ok participants).
Proof.
  intros Hv. apply validateSplitInput_nil_iff in Hv as (Hne & _ & _ & Hsum).
  split.
  - intros [out Hout].
    now destruct (resolveSplits_Ok_cases _ _ _ _ _ Hout) as (p & ps & _ & H & _).
  - intros Hok. rewrite (resolveSplits_nonempty _ _ _ _ Hne).
    assert (Hs : within_one_cent (number_sum value_bang participants)
                                 JSNumber.hundred).
    { destruct (number_sums_agree participants Hok) as [-> | ->];
        [apply nan_within_one_cent | exact Hsum]. }
    destruct (resolvePercentageSplit_cases totalAmount participants)
      as [(l1 & p & l2 & -> & _ & Hp & _)
         | [(_ & Hfar & _) | (_ & _ & p & ps & _ & E)]].
    + exfalso. apply Hp. rewrite Forall_app, Forall_cons in Hok. tauto.
    + contradiction.
    + rewrite E. eauto.
Qed.

Lemma validated_percentage_resolves_witness :
  exists out, resolveSplits 100 PERCENTAGE test_percentages "user1" = Ok out.
Proof.
  apply (validated_percentage_resolves (num 100) 100 test_percentages "user1").
  - vm_compute. reflexivity.
  - unfold test_percentages.
    repeat apply Forall_cons_2; try apply Forall_nil_2;
      eexists; (split; [reflexivity|]); split; vm_compute; reflexivity.
Defined.

End ResolverExtras.

(** * The balance simplifier *)

Section SimplifierFacts.
Import Decimal BalanceSimplifier.

(** ** The first loop and the sort *)

Lemma partition_spec (balances : list UserBalance) :
  partition balances = (creditors_of balances, debtors_of balances).
Proof.
  unfold partition.
  enough (H : forall cs ds,
             foldl partition_step (cs, ds) balances
             = (cs ++ creditors_of balances, ds ++ debtors_of balances))
    by apply (H [] []).
  induction balances as [|b bs IH]; intros cs ds.
  - unfold creditors_of, debtors_of. cbn. now rewrite !app_nil_r.
  - cbn [foldl partition_step]. unfold creditors_of, debtors_of.
    cbn [List.filter].
    destruct (greaterThan (balance b) 0) eqn:G.
    + assert (L : lessThan (balance b) 0 = false).
      { apply lessThan_false. apply greaterThan_true in G. lra. }
      rewrite L, IH. cbn [map]. now rewrite <- app_assoc.
    + destruct (lessThan (balance b) 0) eqn:L; rewrite IH; cbn [map];
        now rewrite <- ?app_assoc.
Qed.

Lemma sort_insert_Permutation {A} (f : A -> A -> number) (x : A) (l : list A) :
  sort_insert f x l ≡ₚ x :: l.
Proof.
  induction l as [|y l IH]; cbn; [reflexivity|].
  destruct (JSNumber.gt (f x y) JSNumber.zero); [|reflexivity].
  rewrite IH. apply Permutation_swap.
Qed.

Lemma Array_sort_Permutation {A} (f : A -> A -> number) (l : list A) :
  Array_sort f l ≡ₚ l.
Proof.
  induction l as [|x l IH]; cbn; [reflexivity|].
  fold (Array_sort f l). now rewrite sort_insert_Permutation, IH.
Qed.

Lemma sumBalances_Permutation (l1 l2 : list UserBalance) :
  l1 ≡ₚ l2 -> sumBalances l1 == sumBalances l2.
Proof.
  induction 1; cbn [sumBalances foldr];
    repeat match goal with
           | |- context [foldr _ 0 ?l] => fold (sumBalances l) end;
    lra.
Qed.

Lemma sumBalances_creditors_of (balances : list UserBalance) :
  sumBalances (creditors_of balances) == sumPositive balances.
Proof.
  induction balances as [|b bs IH]; [reflexivity|].
  unfold creditors_of. cbn [List.filter sumPositive foldr].
  fold (sumPositive bs).
  destruct (greaterThan (balance b) 0); cbn [map sumBalances foldr balance];
    fold (creditors_of bs); fold (sumBalances (creditors_of bs)); lra.
Qed.

(** The balances sum to what creditors are owed less what debtors owe. *)
Lemma sumBalances_split (balances : list UserBalance) :
  sumBalances balances
  == sumBalances (creditors_of balances) - sumBalances (debtors_of balances).
Proof.
  induction balances as [|b bs IH]; [reflexivity|].
  unfold creditors_of, debtors_of. cbn [List.filter sumBalances foldr].
  fold (sumBalances bs).
  destruct (greaterThan (balance b) 0) eqn:G.
  - assert (L : lessThan (balance b) 0 = false).
    { apply lessThan_false. apply greaterThan_true in G. lra. }
    rewrite L. cbn [map sumBalances foldr balance].
    fold (creditors_of bs) (debtors_of bs).
    fold (sumBalances (creditors_of bs)) (sumBalances (debtors_of bs)). lra.
  - apply greaterThan_false in G.
    destruct (lessThan (balance b) 0) eqn:L;
      cbn [map sumBalances foldr balance];
      fold (creditors_of bs) (debtors_of bs);
      fold (sumBalances (creditors_of bs)) (sumBalances (debtors_of bs)).
    + apply lessThan_true in L. unfold abs.
      rewrite (Qabs_neg (balance b)) by lra. lra.
    + apply lessThan_false in L. lra.
Qed.

(** ** The [while] loop *)

Lemma loop_cond_true (st : LoopState) :
  loop_cond st = true
  <-> (creditorIdx st < length (creditors st))%nat
      /\ (debtorIdx st < length (debtors st))%nat.
Proof. unfold loop_cond. rewrite andb_true_iff, !Nat.ltb_lt. tauto. Qed.

Lemma loop_cond_false (st : LoopState) :
  loop_cond st = false
  <-> (length (creditors st) <= creditorIdx st)%nat
      \/ (length (debtors st) <= debtorIdx st)%nat.
Proof. unfold loop_cond. rewrite andb_false_iff, !Nat.ltb_ge. tauto. Qed.

(** Under the loop condition both reads are in range. *)
Lemma loop_body_transfer (st : LoopState) :
  loop_cond st = true ->
  exists c d,
    creditors st !! creditorIdx st = Some c
    /\ debtors st !! debtorIdx st = Some d
    /\ loop_body st = Some (transfer st c d).
Proof.
  intros [Hc Hd]%loop_cond_true.
  destruct (lookup_lt_is_Some_2 _ _ Hc) as [c Ec].
  destruct (lookup_lt_is_Some_2 _ _ Hd) as [d Ed].
  exists c, d. unfold loop_body. rewrite Ec, Ed. repeat split.
Qed.

(** Taking the minimum away settles one of the two. *)
Lemma min_settles (x y : Q) :
  lessThanOrEqualTo (minus x (min x y)) 0 = true
  \/ lessThanOrEqualTo (minus y (min x y)) 0 = true.
Proof.
  destruct (min_cases x y) as [[-> _] | [-> _]]; [left | right];
    rewrite minus_self by reflexivity; reflexivity.
Qed.

Lemma transfer_remaining (st : LoopState) (c d : UserBalance) :
  loop_cond st = true ->
  (remaining (transfer st c d) < remaining st)%nat.
Proof.
  intros [Hc Hd]%loop_cond_true. unfold remaining, transfer.
  cbn [creditors debtors creditorIdx debtorIdx balance].
  rewrite !length_insert.
  destruct (min_settles (balance c) (balance d)) as [E | E]; rewrite E;
    clear E; destruct (lessThanOrEqualTo _ 0); lia.
Qed.

Section WhileRule.
Variable Inv : LoopState -> Prop.
Hypothesis Inv_transfer :
  forall st c d,
    Inv st -> loop_cond st = true ->
    creditors st !! creditorIdx st = Some c ->
    debtors st !! debtorIdx st = Some d ->
    Inv (transfer st c d).

(** With fuel for what remains to walk, the loop ends, by its
    condition turning false, in a state where the invariant holds. *)
Lemma while_loop_rule (fuel : nat) :
  forall st,
    Inv st -> (remaining st <= fuel)%nat ->
    exists st', while_loop fuel st = Some st' /\ Inv st'
                /\ loop_cond st' = false.
Proof.
  induction fuel as [|fuel IH]; intros st HI Hf; cbn [while_loop];
    destruct (loop_cond st) eqn:C; eauto.
  - exfalso. apply loop_cond_true in C. unfold remaining in Hf. lia.
  - destruct (loop_body_transfer st C) as (c & d & Ec & Ed & ->).
    cbn [mbind option_bind]. apply IH; [eauto|].
    pose proof (transfer_remaining st c d C). lia.
Qed.

Lemma simplifyBalances_rule (balances : list UserBalance) :
  Inv (initial_state balances) ->
  exists st', simplifyBalances balances = Some (settlements st')
              /\ Inv st' /\ loop_cond st' = false.
Proof.
  intros H0. unfold simplifyBalances.
  destruct (while_loop_rule
              (length (creditors (initial_state balances))
               + length (debtors (initial_state balances)))
              (initial_state balances) H0) as (st' & -> & HI & C).
  - unfold remaining, initial_state. rewrite partition_spec.
    cbn [creditors debtors creditorIdx debtorIdx]. lia.
  - exists st'. repeat split; assumption.
Qed.
End WhileRule.

Lemma initial_state_eq (balances : list UserBalance) :
  initial_state balances
  = {| creditors := Array_sort sortByBalance (creditors_of balances);
       debtors := Array_sort sortByBalance (debtors_of balances);
       creditorIdx := 0; debtorIdx := 0; settlements := [] |}.
Proof. unfold initial_state. now rewrite partition_spec. Qed.

(** The simplifier returns, whatever the balances. *)
Lemma while_loop_terminates (balances : list UserBalance) :
  exists out, simplifyBalances balances = Some out.
Proof.
  destruct (simplifyBalances_rule (fun _ => True) (fun _ _ _ _ _ _ _ => I)
              balances I) as (st' & E & _).
  eauto.
Qed.

(** ** The invariants are kept by a run of the body *)

Lemma Inv_money_transfer st c d :
  Inv_money st ->
  creditors st !! creditorIdx st = Some c ->
  debtors st !! debtorIdx st = Some d ->
  Money (min (balance c) (balance d)) /\ Inv_money (transfer st c d).
Proof.
  intros [Hcs Hds] Ec Ed.
  pose proof (Forall_lookup_1 _ _ _ _ Hcs Ec) as Hc.
  pose proof (Forall_lookup_1 _ _ _ _ Hds Ed) as Hd.
  cbv beta in Hc, Hd.
  assert (Ht : Money (min (balance c) (balance d))) by now apply Money_min.
  split; [assumption|]. unfold Inv_money, transfer.
  cbn [creditors debtors].
  split; (apply Forall_insert; [assumption|]); cbn [balance];
    now apply Money_minus.
Qed.

Lemma Inv_positive_transfer st c d :
  Inv_positive st -> loop_cond st = true ->
  creditors st !! creditorIdx st = Some c ->
  debtors st !! debtorIdx st = Some d ->
  Inv_positive (transfer st c d).
Proof.
  intros [Hm Hpos] _ Ec Ed.
  destruct (Inv_money_transfer st c d Hm Ec Ed) as [Ht Hm'].
  split; [assumption|]. unfold transfer. cbn [settlements].
  destruct (greaterThan _ 0) eqn:G; [|assumption].
  apply greaterThan_true in G.
  apply Forall_app. split; [assumption|].
  constructor; [|constructor]. cbn [amount].
  now rewrite (Money_toDecimalPlaces _ Ht).
Qed.

Lemma Inv_users_transfer cids dids st c d :
  Inv_users cids dids st -> loop_cond st = true ->
  creditors st !! creditorIdx st = Some c ->
  debtors st !! debtorIdx st = Some d ->
  Inv_users cids dids (transfer st c d).
Proof.
  intros (Hc & Hd & Hs) _ Ec Ed. unfold Inv_users, transfer.
  cbn [creditors debtors settlements].
  assert (Hcid : cids !! creditorIdx st = Some (userId c))
    by now rewrite <- Hc, list_lookup_fmap, Ec.
  assert (Hdid : dids !! debtorIdx st = Some (userId d))
    by now rewrite <- Hd, list_lookup_fmap, Ed.
  rewrite !list_fmap_insert. cbn [userId]. rewrite Hc, Hd.
  rewrite (list_insert_id _ _ _ Hcid), (list_insert_id _ _ _ Hdid).
  repeat split.
  destruct (greaterThan _ 0); [|assumption].
  apply Forall_app. split; [assumption|].
  constructor; [|constructor]. cbn [toUserId fromUserId].
  split; eapply list_elem_of_lookup_2; eassumption.
Qed.

Lemma Inv_count_transfer st c d :
  Inv_count st -> loop_cond st = true ->
  creditors st !! creditorIdx st = Some c ->
  debtors st !! debtorIdx st = Some d ->
  Inv_count (transfer st c d).
Proof.
  intros [Hsum Hlast] C _ _.
  pose proof (transfer_remaining st c d C) as Hdec.
  apply loop_cond_true in C as [Hc Hd].
  assert (Hlen : (length (settlements (transfer st c d))
                  <= length (settlements st) + 1)%nat).
  { unfold transfer. cbn [settlements].
    destruct (greaterThan _ 0); [rewrite length_app; cbn|]; lia. }
  assert (Hcs : length (creditors (transfer st c d)) = length (creditors st))
    by apply length_insert.
  assert (Hds : length (debtors (transfer st c d)) = length (debtors st))
    by apply length_insert.
  assert (Hrem : (2 <= remaining st)%nat) by (unfold remaining; lia).
  unfold Inv_count. rewrite Hcs, Hds.
  split; [lia|]. right. lia.
Qed.

Lemma sumTransfers_app (l : list Settlement) (s : Settlement) :
  sumTransfers (l ++ [s]) == sumTransfers l + amount s.
Proof.
  induction l as [|x l IH]; cbn [app sumTransfers foldr].
  - lra.
  - fold (sumTransfers (l ++ [s])) (sumTransfers l). lra.
Qed.

(** One side of the books after a transfer of [t] that is taken away
    without rounding. *)
Lemma sumBalances_after_transfer (l : list UserBalance) (i : nat)
    (c : UserBalance) (t : Q) :
  l !! i = Some c -> t <= balance c ->
  minus (balance c) t == balance c - t ->
  let c' := {| userId := userId c; balance := minus (balance c) t |} in
  sumBalances (drop (if lessThanOrEqualTo (balance c') 0 then S i else i)
                    (<[i := c']> l))
  == sumBalances (drop i l) - t.
Proof.
  intros Ec Ht Hexact c'. rewrite (drop_S l c i Ec).
  cbn [sumBalances foldr]. fold (sumBalances (drop (S i) l)).
  destruct (lessThanOrEqualTo (balance c') 0) eqn:E.
  - apply lessThanOrEqualTo_true in E. cbn [c' balance] in E.
    rewrite drop_insert_lt by lia. lra.
  - assert (Hi : (i < length l)%nat) by (eapply lookup_lt_Some; eassumption).
    rewrite (drop_S (<[i:=c']> l) c' i) by now apply list_lookup_insert_eq.
    rewrite drop_insert_lt by lia.
    cbn [sumBalances foldr c' balance]. fold (sumBalances (drop (S i) l)).
    lra.
Qed.

(** Whole cents that 20 digits hold: what the loop takes away from a
    running balance is taken away without rounding, and leaves such a
    balance. *)
Lemma Cents_min (x y : Q) : Cents x -> Cents y -> Cents (min x y).
Proof. intros Hx Hy. destruct (min_cases x y) as [[-> _] | [-> _]]; assumption. Qed.

Lemma Cents_abs (x : Q) : Cents x -> Cents (abs x).
Proof.
  intros [Hm Hb]. split; [now apply Money_abs|].
  unfold abs. now rewrite Qabs_pos by apply Qabs_nonneg.
Qed.

Lemma Cents_Money (x : Q) : Cents x -> Money x.
Proof. now intros [H _]. Qed.

Lemma minus_transfer (x t : Q) :
  Cents x -> Money t -> 0 <= t -> t <= x ->
  minus x t == x - t /\ Cents (minus x t) /\ 0 <= minus x t.
Proof.
  intros [Hm Hb] Ht H0 Hle.
  rewrite Qabs_pos in Hb by lra.
  assert (E : minus x t == x - t).
  { apply minus_exact; try assumption. apply Qabs_small; lra. }
  split; [exact E|]. split; [|lra]. split; [now apply Money_minus|].
  rewrite E. apply Qabs_small; lra.
Qed.

Lemma Inv_conserve_transfer credit debt st c d :
  Inv_conserve credit debt st -> loop_cond st = true ->
  creditors st !! creditorIdx st = Some c ->
  debtors st !! debtorIdx st = Some d ->
  Inv_conserve credit debt (transfer st c d).
Proof.
  intros ([Hccs Hcds] & Hcs & Hds & Hcredit & Hdebt) _ Ec Ed.
  pose proof (Forall_lookup_1 _ _ _ _ Hcs Ec) as Hc.
  pose proof (Forall_lookup_1 _ _ _ _ Hds Ed) as Hd.
  pose proof (Forall_lookup_1 _ _ _ _ Hccs Ec) as Hcc.
  pose proof (Forall_lookup_1 _ _ _ _ Hcds Ed) as Hcd.
  cbv beta in Hc, Hd, Hcc, Hcd.
  assert (Ht : Money (min (balance c) (balance d)))
    by (apply Cents_Money, Cents_min; assumption).
  set (t := min (balance c) (balance d)) in *.
  assert (Htc : t <= balance c /\ t <= balance d /\ 0 <= t).
  { unfold t. destruct (min_cases (balance c) (balance d)) as [[-> ?] | [-> ?]];
      repeat split; lra. }
  destruct Htc as (Htc & Htd & Ht0).
  destruct (minus_transfer (balance c) t Hcc Ht Ht0 Htc) as (Ec' & Hcc' & Hc0').
  destruct (minus_transfer (balance d) t Hcd Ht Ht0 Htd) as (Ed' & Hcd' & Hd0').
  assert (Hs : sumTransfers (settlements (transfer st c d))
               == sumTransfers (settlements st) + t).
  { unfold transfer. cbn [settlements]. fold t.
    destruct (greaterThan t 0) eqn:G.
    - rewrite sumTransfers_app. cbn [amount].
      now rewrite (Money_toDecimalPlaces _ Ht).
    - apply greaterThan_false in G. lra. }
  split; [|split; [|split; [|split]]].
  - unfold Inv_cents, transfer. cbn [creditors debtors]. fold t.
    split; (apply Forall_insert; [assumption|]); assumption.
  - unfold transfer. cbn [creditors]. apply Forall_insert; [assumption|].
    exact Hc0'.
  - unfold transfer. cbn [debtors]. apply Forall_insert; [assumption|].
    exact Hd0'.
  - rewrite Hs. unfold transfer. cbn [creditors creditorIdx]. fold t.
    rewrite (sumBalances_after_transfer _ _ c t Ec Htc Ec'). lra.
  - rewrite Hs. unfold transfer. cbn [debtors debtorIdx]. fold t.
    rewrite (sumBalances_after_transfer _ _ d t Ed Htd Ed'). lra.
Qed.

(** ** The invariants hold when the loop is entered *)

Lemma elem_of_creditors_of (x : UserBalance) (balances : list UserBalance) :
  x ∈ Array_sort sortByBalance (creditors_of balances) ->
  exists b, b ∈ balances /\ userId b = userId x /\ 0 < balance b
            /\ balance x = balance b.
Proof.
  rewrite Array_sort_Permutation, list_elem_of_In. unfold creditors_of.
  rewrite in_map_iff. intros (b & <- & Hb). apply filter_In in Hb as [Hb G].
  apply greaterThan_true in G. exists b.
  rewrite list_elem_of_In. repeat split; assumption.
Qed.

Lemma elem_of_debtors_of (x : UserBalance) (balances : list UserBalance) :
  x ∈ Array_sort sortByBalance (debtors_of balances) ->
  exists b, b ∈ balances /\ userId b = userId x /\ balance b < 0
            /\ balance x = abs (balance b).
Proof.
  rewrite Array_sort_Permutation, list_elem_of_In. unfold debtors_of.
  rewrite in_map_iff. intros (b & <- & Hb). apply filter_In in Hb as [Hb L].
  apply lessThan_true in L. exists b.
  rewrite list_elem_of_In. repeat split; assumption.
Qed.

Lemma Inv_money_initial (balances : list UserBalance) :
  Forall (fun b => Money (balance b)) balances ->
  Inv_money (initial_state balances).
Proof.
  intros Hm. rewrite Forall_forall in Hm. rewrite initial_state_eq.
  split; cbn [creditors debtors]; apply Forall_forall; intros x Hx.
  - apply elem_of_creditors_of in Hx as (b & Hb & _ & _ & ->). auto.
  - apply elem_of_debtors_of in Hx as (b & Hb & _ & _ & ->).
    apply Money_abs. auto.
Qed.

Lemma Inv_cents_initial (balances : list UserBalance) :
  Forall (fun b => Cents (balance b)) balances ->
  Inv_cents (initial_state balances).
Proof.
  intros Hm. rewrite Forall_forall in Hm. rewrite initial_state_eq.
  split; cbn [creditors debtors]; apply Forall_forall; intros x Hx.
  - apply elem_of_creditors_of in Hx as (b & Hb & _ & _ & ->). auto.
  - apply elem_of_debtors_of in Hx as (b & Hb & _ & _ & ->).
    apply Cents_abs. auto.
Qed.

Lemma Inv_conserve_initial (balances : list UserBalance) :
  Forall (fun b => Cents (balance b)) balances ->
  Inv_conserve (sumBalances (creditors_of balances))
               (sumBalances (debtors_of balances))
               (initial_state balances).
Proof.
  intros Hm. split; [now apply Inv_cents_initial|].
  rewrite initial_state_eq.
  cbn [creditors debtors creditorIdx debtorIdx settlements].
  rewrite !drop_0.
  split; [|split; [|split]].
  - apply Forall_forall. intros x Hx.
    apply elem_of_creditors_of in Hx as (b & _ & _ & Hb & ->). lra.
  - apply Forall_forall. intros x Hx.
    apply elem_of_debtors_of in Hx as (b & _ & _ & _ & ->). apply Qabs_nonneg.
  - pose proof (sumBalances_Permutation _ _
                  (Array_sort_Permutation sortByBalance (creditors_of balances))).
    change (sumTransfers []) with 0. lra.
  - pose proof (sumBalances_Permutation _ _
                  (Array_sort_Permutation sortByBalance (debtors_of balances))).
    change (sumTransfers []) with 0. lra.
Qed.

Lemma sumBalances_nil_after (l : list UserBalance) (i : nat) :
  (length l <= i)%nat -> sumBalances (drop i l) == 0.
Proof. intros H. now rewrite drop_ge. Qed.

End SimplifierFacts.

(** ** What the simplifier returns *)

Section SimplifierTheorems.
Import Decimal BalanceSimplifier.

Lemma two_and_two_Money : Forall (fun b => Money (balance b)) two_and_two.
Proof.
  repeat constructor; cbn [balance ub].
  - exists 3000%Z. reflexivity.
  - exists 2000%Z. reflexivity.
  - exists (-2500)%Z. reflexivity.
  - exists (-2500)%Z. reflexivity.
Qed.

Lemma two_and_two_Cents : Forall (fun b => Cents (balance b)) two_and_two.
Proof.
  pose proof two_and_two_Money as H. unfold two_and_two in *.
  repeat (apply Forall_cons in H as [? H]).
  repeat apply Forall_cons_2; try apply Forall_nil_2;
    (split; [assumption | vm_compute; reflexivity]).
Qed.

(** C2, as amended.  For balances that are whole numbers of cents,
    below [10^18] in absolute value, and sum to zero, the transfers sum
    to the positive balances. *)
Theorem transfers_conserve (balances : list UserBalance) :
  Forall (fun b => Cents (balance b)) balances ->
  sumBalances balances == 0 ->
  exists out, simplifyBalances balances = Some out
              /\ sumTransfers out == sumPositive balances.
Proof.
  intros Hm Hzero.
  destruct (simplifyBalances_rule _
              (Inv_conserve_transfer (sumBalances (creditors_of balances))
                                     (sumBalances (debtors_of balances)))
              balances (Inv_conserve_initial balances Hm))
    as (st & -> & (_ & _ & _ & Hcredit & Hdebt) & C).
  exists (settlements st). split; [reflexivity|].
  pose proof (sumBalances_split balances) as Hsplit.
  rewrite <- sumBalances_creditors_of.
  apply loop_cond_false in C as [C | C];
    apply sumBalances_nil_after in C; lra.
Qed.

Lemma transfers_conserve_witness :
  exists out, simplifyBalances two_and_two = Some out
              /\ sumTransfers out == sumPositive two_and_two.
Proof.
  apply (transfers_conserve two_and_two two_and_two_Cents).
  vm_compute. reflexivity.
Defined.

(** C2 as stated fails: three balances in whole cents of more than 20
    digits sum to zero; the credit that is left after the first transfer
    is rounded to 20 digits, and the two transfers sum to a cent less
    than the positive balance. *)
Lemma transfers_conserve_counterexample :
  Forall (fun b => Money (balance b)) beyond_20_digits
  /\ sumBalances beyond_20_digits == 0
  /\ sumPositive beyond_20_digits == 100000000000000000000.02
  /\ exists out,
       simplifyBalances beyond_20_digits = Some out
       /\ map amount out = [60000000000000000000.01; 40000000000000000000.00]
       /\ sumTransfers out == 100000000000000000000.01
       /\ ~ sumTransfers out == sumPositive beyond_20_digits.
Proof.
  split.
  { repeat constructor; cbn [balance ub].
    - exists 10000000000000000000002%Z. reflexivity.
    - exists (-6000000000000000000001)%Z. reflexivity.
    - exists (-4000000000000000000001)%Z. reflexivity. }
  split; [vm_compute; reflexivity|]. split; [vm_compute; reflexivity|].
  eexists. split; [vm_compute; reflexivity|].
  split; [reflexivity|]. split; [vm_compute; reflexivity|].
  vm_compute. discriminate.
Qed.

(** C7.  The code at balances of 0.004 and -0.004: the amount to
    transfer, 0.004, passes the test [transferAmount.greaterThan(0)] that
    guards the push, and the transfer that is pushed has that amount
    rounded to 2 decimals, which is 0. *)
Theorem zero_amount_transfer :
  greaterThan (min 0.004 (abs (-0.004))) 0 = true
  /\ exists s,
       simplifyBalances below_a_cent = Some [s]
       /\ fromUserId s = "B" /\ toUserId s = "A" /\ amount s == 0
       /\ ~ 0 < amount s.
Proof.
  split; [reflexivity|].
  eexists. split; [vm_compute; reflexivity|].
  cbn [fromUserId toUserId amount].
  split; [reflexivity|]. split; [reflexivity|]. split; [reflexivity|].
  discriminate.
Qed.

(** C8.  The simplifier returns for every list of balances; a transfer
    goes to a user with an entry above zero, from a user with an entry
    below zero; so a user whose entries are all zero is in no transfer,
    neither as sender nor as receiver. *)
Theorem zero_balance_ignored (balances : list UserBalance) :
  exists out,
    simplifyBalances balances = Some out
    /\ (forall s, s ∈ out ->
          (exists b, b ∈ balances /\ userId b = toUserId s /\ 0 < balance b)
          /\ (exists b, b ∈ balances /\ userId b = fromUserId s
                        /\ balance b < 0))
    /\ (forall u,
          (forall b, b ∈ balances -> userId b = u -> balance b == 0) ->
          forall s, s ∈ out -> fromUserId s <> u /\ toUserId s <> u).
Proof.
  set (cids := userId <$> Array_sort sortByBalance (creditors_of balances)).
  set (dids := userId <$> Array_sort sortByBalance (debtors_of balances)).
  destruct (simplifyBalances_rule _ (Inv_users_transfer cids dids) balances)
    as (st & -> & (_ & _ & Hs) & _).
  { rewrite initial_state_eq. repeat split. constructor. }
  exists (settlements st). split; [reflexivity|].
  assert (Hfrom_to : forall s, s ∈ settlements st ->
            (exists b, b ∈ balances /\ userId b = toUserId s /\ 0 < balance b)
            /\ (exists b, b ∈ balances /\ userId b = fromUserId s
                          /\ balance b < 0)).
  { intros s Hin. rewrite Forall_forall in Hs.
    destruct (Hs s Hin) as [Hto Hfrom]. split.
    - apply list_elem_of_fmap in Hto as (x & -> & Hx).
      apply elem_of_creditors_of in Hx as (b & Hb & Hu & Hpos & _). eauto.
    - apply list_elem_of_fmap in Hfrom as (x & -> & Hx).
      apply elem_of_debtors_of in Hx as (b & Hb & Hu & Hneg & _). eauto. }
  split; [exact Hfrom_to|].
  intros u Hzero s Hin.
  destruct (Hfrom_to s Hin) as [(b & Hb & Hu & Hpos) (b' & Hb' & Hu' & Hneg)].
  split; intros <-.
  - pose proof (Hzero b' Hb' Hu'). lra.
  - pose proof (Hzero b Hb Hu). lra.
Qed.

Lemma zero_balance_ignored_witness :
  exists out,
    simplifyBalances with_neutral = Some out
    /\ forall s, s ∈ out ->
         fromUserId s <> "neutral" /\ toUserId s <> "neutral".
Proof.
  destruct (zero_balance_ignored with_neutral) as (out & Hout & _ & Hzero).
  exists out. split; [exact Hout|].
  apply Hzero. intros b Hb Hu.
  apply list_elem_of_In in Hb. cbn in Hb.
  destruct Hb as [<- | [<- | [<- | []]]];
    [discriminate Hu | reflexivity | discriminate Hu].
Defined.

(** C9 as stated fails: one debtor who owes two creditors makes two
    transfers, and the smaller of the two counts is one. *)
Lemma transfer_count_counterexample :
  numCreditors debtor_of_two = 2%nat
  /\ numDebtors debtor_of_two = 1%nat
  /\ exists out, simplifyBalances debtor_of_two = Some out
                 /\ length out = 2%nat
                 /\ ~ (length out
                       <= Nat.min (numCreditors debtor_of_two)
                                  (numDebtors debtor_of_two))%nat.
Proof.
  split; [reflexivity|]. split; [reflexivity|].
  eexists. split; [vm_compute; reflexivity|]. split; [reflexivity|].
  vm_compute. lia.
Qed.

Lemma numCreditors_length (balances : list UserBalance) :
  length (Array_sort sortByBalance (creditors_of balances))
  = numCreditors balances.
Proof.
  rewrite (Permutation_length (Array_sort_Permutation _ _)).
  unfold creditors_of, numCreditors. apply length_map.
Qed.

Lemma numDebtors_length (balances : list UserBalance) :
  length (Array_sort sortByBalance (debtors_of balances))
  = numDebtors balances.
Proof.
  rewrite (Permutation_length (Array_sort_Permutation _ _)).
  unfold debtors_of, numDebtors. apply length_map.
Qed.

(** C9, as amended.  There is no transfer when there is no creditor or
    no debtor; otherwise the number of transfers is at most the number
    of creditors plus the number of debtors, less one. *)
Theorem transfer_count (balances : list UserBalance) :
  exists out,
    simplifyBalances balances = Some out
    /\ (numCreditors balances = 0%nat \/ numDebtors balances = 0%nat ->
        out = [])
    /\ (length out <= numCreditors balances + numDebtors balances - 1)%nat.
Proof.
  set (Inv := fun st =>
         Inv_count st
         /\ length (creditors st) = numCreditors balances
         /\ length (debtors st) = numDebtors balances
         /\ (numCreditors balances = 0%nat \/ numDebtors balances = 0%nat ->
             settlements st = [])).
  destruct (simplifyBalances_rule Inv) with (balances := balances)
    as (st & -> & ((_ & Hlast) & Hc & Hd & Hnone) & _).
  - intros st c d (Hcount & Hc & Hd & Hnone) C Ec Ed.
    split; [now apply Inv_count_transfer|].
    unfold transfer. cbn [creditors debtors settlements].
    rewrite !length_insert. repeat split; try assumption.
    intros H. exfalso. apply loop_cond_true in C. lia.
  - unfold Inv, Inv_count, remaining. rewrite initial_state_eq.
    cbn [creditors debtors creditorIdx debtorIdx settlements length].
    rewrite numCreditors_length, numDebtors_length.
    repeat split; auto; lia.
  - exists (settlements st). split; [reflexivity|]. split; [exact Hnone|].
    rewrite <- Hc, <- Hd. destruct Hlast as [-> | H]; cbn [length]; lia.
Qed.

End SimplifierTheorems.

(** * More on the balance simplifier *)

Section SimplifierExtras.
Import Decimal BalanceSimplifier Accounts.

(** X21.  For balances that are whole numbers of cents, every transfer
    has a strictly positive amount. *)
Theorem transfers_positive (balances : list UserBalance) :
  Forall (fun b => Money (balance b)) balances ->
  exists out, simplifyBalances balances = Some out
              /\ Forall (fun s => 0 < amount s) out.
Proof.
  intros Hm.
  destruct (simplifyBalances_rule _ Inv_positive_transfer balances)
    as (st & -> & (_ & Hpos) & _).
  - split; [now apply Inv_money_initial|].
    rewrite initial_state_eq. constructor.
  - eauto.
Qed.

Lemma transfers_positive_witness :
  exists out, simplifyBalances two_and_two = Some out
              /\ Forall (fun s => 0 < amount s) out.
Proof. exact (transfers_positive two_and_two two_and_two_Money). Defined.

Lemma sumBalances_nonneg (l : list UserBalance) :
  Forall (fun b => 0 <= balance b) l -> 0 <= sumBalances l.
Proof.
  induction 1 as [|b l Hb _ IH]; cbn [sumBalances foldr].
  - lra.
  - fold (sumBalances l). lra.
Qed.

Lemma sumBalances_zero (l : list UserBalance) :
  Forall (fun b => 0 <= balance b) l -> sumBalances l == 0 ->
  Forall (fun b => balance b == 0) l.
Proof.
  induction 1 as [|b l Hb Hl IH]; [constructor|].
  cbn [sumBalances foldr]. fold (sumBalances l). intros Hs.
  pose proof (sumBalances_nonneg l Hl).
  constructor; [lra | apply IH; lra].
Qed.

Lemma sumBalances_debtors_of (balances : list UserBalance) :
  sumBalances (debtors_of balances) == sumOwed balances.
Proof.
  induction balances as [|b bs IH]; [reflexivity|].
  unfold debtors_of. cbn [List.filter sumOwed foldr].
  fold (sumOwed bs).
  destruct (lessThan (balance b) 0); cbn [map sumBalances foldr balance];
    fold (debtors_of bs); fold (sumBalances (debtors_of bs)); lra.
Qed.

(** The state the loop ends in, for whole cents that 20 digits hold:
    what was transferred and what is left open on each side. *)
Lemma simplifyBalances_books (balances : list UserBalance) :
  Forall (fun b => Cents (balance b)) balances ->
  exists st,
    simplifyBalances balances = Some (settlements st)
    /\ Inv_conserve (sumPositive balances) (sumOwed balances) st
    /\ loop_cond st = false.
Proof.
  intros Hm.
  destruct (simplifyBalances_rule _
              (Inv_conserve_transfer (sumBalances (creditors_of balances))
                                     (sumBalances (debtors_of balances)))
              balances (Inv_conserve_initial balances Hm))
    as (st & E & (Hmoney & Hc & Hd & Hcredit & Hdebt) & C).
  exists st. split; [assumption|]. split; [|assumption].
  repeat split; try assumption; try apply Hmoney.
  - now rewrite <- sumBalances_creditors_of.
  - now rewrite <- sumBalances_debtors_of.
Qed.

(** X9.  For balances in whole cents, below [10^18] in absolute value,
    balanced or not, the transfers sum to the smaller of what the
    creditors are owed and what the debtors owe. *)
Theorem transfers_smaller_side (balances : list UserBalance) :
  Forall (fun b => Cents (balance b)) balances ->
  exists out,
    simplifyBalances balances = Some out
    /\ sumTransfers out <= sumPositive balances
    /\ sumTransfers out <= sumOwed balances
    /\ (sumTransfers out == sumPositive balances
        \/ sumTransfers out == sumOwed balances).
Proof.
  intros Hm.
  destruct (simplifyBalances_books balances Hm)
    as (st & E & (_ & Hc & Hd & Hcredit & Hdebt) & C).
  exists (settlements st). split; [assumption|].
  pose proof (sumBalances_nonneg _ (Forall_drop _ (creditorIdx st) _ Hc)) as Hc0.
  pose proof (sumBalances_nonneg _ (Forall_drop _ (debtorIdx st) _ Hd)) as Hd0.
  split; [lra|]. split; [lra|].
  apply loop_cond_false in C as [C | C];
    apply sumBalances_nil_after in C; [left | right]; lra.
Qed.

Lemma transfers_smaller_side_witness :
  exists out,
    simplifyBalances [ub "A" 10; ub "B" (-4)] = Some out
    /\ sumTransfers out <= sumOwed [ub "A" 10; ub "B" (-4)].
Proof.
  destruct (transfers_smaller_side [ub "A" 10; ub "B" (-4)])
    as (out & E & _ & H & _).
  - repeat apply Forall_cons_2; try apply Forall_nil_2;
      (split; [|vm_compute; reflexivity]); cbn [balance ub];
      [exists 1000%Z | exists (-400)%Z]; reflexivity.
  - exists out. split; [exact E | exact H].
Defined.

(** Who is in a transfer: the receiver is a user of [creditors], the
    sender a user of [debtors]. *)
Lemma simplifyBalances_users (balances : list UserBalance) :
  exists out,
    simplifyBalances balances = Some out
    /\ Forall (fun s =>
                 toUserId s ∈ userId <$> Array_sort sortByBalance
                                           (creditors_of balances)
                 /\ fromUserId s ∈ userId <$> Array_sort sortByBalance
                                                (debtors_of balances))
              out.
Proof.
  destruct (simplifyBalances_rule _
              (Inv_users_transfer
                 (userId <$> Array_sort sortByBalance (creditors_of balances))
                 (userId <$> Array_sort sortByBalance (debtors_of balances)))
              balances)
    as (st & E & (_ & _ & Hs) & _).
  { rewrite initial_state_eq. repeat split. constructor. }
  eauto.
Qed.

Lemma creditor_id (u : string) (balances : list UserBalance) :
  u ∈ userId <$> Array_sort sortByBalance (creditors_of balances) ->
  exists b, b ∈ balances /\ userId b = u /\ 0 < balance b.
Proof.
  intros (x & -> & Hx)%list_elem_of_fmap.
  apply elem_of_creditors_of in Hx as (b & Hb & Hu & Hpos & _). eauto.
Qed.

Lemma debtor_id (u : string) (balances : list UserBalance) :
  u ∈ userId <$> Array_sort sortByBalance (debtors_of balances) ->
  exists b, b ∈ balances /\ userId b = u /\ balance b < 0.
Proof.
  intros (x & -> & Hx)%list_elem_of_fmap.
  apply elem_of_debtors_of in Hx as (b & Hb & Hu & Hneg & _). eauto.
Qed.

(** With one entry per user, a user is identified by the entry. *)
Lemma unique_by_userId (balances : list UserBalance) (b b' : UserBalance) :
  NoDup (map userId balances) ->
  b ∈ balances -> b' ∈ balances -> userId b = userId b' -> b = b'.
Proof.
  intros Hnd (i & Hi)%list_elem_of_lookup_1 (j & Hj)%list_elem_of_lookup_1 Hu.
  assert (E : i = j).
  { apply (NoDup_lookup (map userId balances) i j (userId b) Hnd).
    - change (map userId balances) with (userId <$> balances).
      now rewrite list_lookup_fmap, Hi.
    - change (map userId balances) with (userId <$> balances).
      now rewrite list_lookup_fmap, Hj, Hu. }
  subst j. congruence.
Qed.

Lemma sender_is_not_receiver (balances : list UserBalance) :
  NoDup (map userId balances) ->
  exists out,
    simplifyBalances balances = Some out
    /\ forall s, s ∈ out -> fromUserId s <> toUserId s.
Proof.
  intros Hnd. destruct (simplifyBalances_users balances) as (out & E & Hs).
  exists out. split; [assumption|]. intros s Hin Heq.
  rewrite Forall_forall in Hs. destruct (Hs s Hin) as [Hto Hfrom].
  apply creditor_id in Hto as (b & Hb & Hu & Hpos).
  apply debtor_id in Hfrom as (b' & Hb' & Hu' & Hneg).
  assert (b = b') by (apply (unique_by_userId balances); congruence).
  subst b'. lra.
Qed.

(** X10.  With one entry per user, nobody is told to pay themselves: the
    sender of a transfer has a balance below zero and the receiver one
    above zero. *)
Theorem no_self_transfer (balances : list UserBalance) :
  NoDup (map userId balances) ->
  exists out,
    simplifyBalances balances = Some out
    /\ forall s, s ∈ out -> fromUserId s <> toUserId s.
Proof. exact (sender_is_not_receiver balances). Qed.

Lemma no_self_transfer_witness :
  exists out,
    simplifyBalances two_and_two = Some out
    /\ forall s, s ∈ out -> fromUserId s <> toUserId s.
Proof.
  apply (no_self_transfer two_and_two).
  vm_compute. repeat constructor; rewrite ?list_elem_of_In; cbn;
    intuition discriminate.
Defined.

(** ** The books, user by user *)

Lemma received_app (u : string) (l : list Settlement) (s : Settlement) :
  received u (l ++ [s])
  == received u l + (if decide (toUserId s = u) then amount s else 0).
Proof.
  induction l as [|x l IH]; cbn [app received foldr].
  - lra.
  - fold (received u (l ++ [s])) (received u l). lra.
Qed.

Lemma paid_app (u : string) (l : list Settlement) (s : Settlement) :
  paid u (l ++ [s])
  == paid u l + (if decide (fromUserId s = u) then amount s else 0).
Proof.
  induction l as [|x l IH]; cbn [app paid foldr].
  - lra.
  - fold (paid u (l ++ [s])) (paid u l). lra.
Qed.

(** What a run of the body adds to what a user has received and paid:
    the transferred amount, for the two users at the cursors. *)
Lemma transfer_books (st : LoopState) (c d : UserBalance) (u : string) :
  Money (balance c) -> Money (balance d) ->
  0 <= balance c -> 0 <= balance d ->
  let t := min (balance c) (balance d) in
  received u (settlements (transfer st c d))
  == received u (settlements st) + (if decide (userId c = u) then t else 0)
  /\ paid u (settlements (transfer st c d))
     == paid u (settlements st) + (if decide (userId d = u) then t else 0).
Proof.
  intros Hmc Hmd Hc Hd t.
  assert (Hmt : Money t) by now apply Money_min.
  assert (Ht0 : 0 <= t).
  { unfold t. destruct (min_cases (balance c) (balance d)) as [[-> ?] | [-> ?]];
      assumption. }
  unfold transfer. cbn [settlements]. fold t.
  destruct (greaterThan t 0) eqn:G.
  - rewrite received_app, paid_app. cbn [toUserId fromUserId amount].
    pose proof (Money_toDecimalPlaces t Hmt) as E.
    split; [destruct (decide (userId c = u)) | destruct (decide (userId d = u))];
      lra.
  - apply greaterThan_false in G.
    split; [destruct (decide (userId c = u)) | destruct (decide (userId d = u))];
      lra.
Qed.

(** One array after a run of the body that takes [t] away without
    rounding, against the array at the start: [acc] is what the users
    have received, or paid. *)
Lemma rows_after_transfer (rows0 rows : list UserBalance) (i : nat)
    (c : UserBalance) (t : Q) (acc acc' : string -> Q) :
  NoDup (userId <$> rows0) ->
  rows !! i = Some c ->
  minus (balance c) t == balance c - t ->
  (forall u, acc' u == acc u + (if decide (userId c = u) then t else 0)) ->
  Forall2 (fun r0 r => userId r = userId r0
                       /\ acc (userId r0) + balance r == balance r0)
          rows0 rows ->
  Forall2 (fun r0 r => userId r = userId r0
                       /\ acc' (userId r0) + balance r == balance r0)
          rows0
          (<[i := {| userId := userId c; balance := minus (balance c) t |}]> rows).
Proof.
  intros Hnd Ec Hexact Hacc H.
  apply Forall2_same_length_lookup in H as [Hlen H].
  apply Forall2_same_length_lookup. split; [now rewrite length_insert|].
  intros j r0 r' Hr0 Hr'.
  assert (Hi : (i < length rows)%nat) by (eapply lookup_lt_Some; eassumption).
  destruct (lookup_lt_is_Some_2 rows0 i ltac:(lia)) as [c0 Ec0].
  destruct (H i c0 c Ec0 Ec) as [Hu0 Hb0].
  destruct (decide (i = j)) as [<- | Hne].
  - rewrite list_lookup_insert_eq in Hr' by assumption.
    injection Hr' as <-. rewrite Ec0 in Hr0. injection Hr0 as <-.
    cbn [userId balance]. split; [assumption|].
    rewrite (Hacc (userId c0)).
    destruct (decide (userId c = userId c0)); [lra | contradiction].
  - rewrite list_lookup_insert_ne in Hr' by assumption.
    destruct (H j r0 r' Hr0 Hr') as [Hu Hb]. split; [assumption|].
    rewrite (Hacc (userId r0)).
    destruct (decide (userId c = userId r0)) as [Heq | _]; [|lra].
    exfalso. apply Hne.
    apply (NoDup_lookup (userId <$> rows0) i j (userId r0) Hnd).
    + rewrite list_lookup_fmap, Ec0. cbn. congruence.
    + now rewrite list_lookup_fmap, Hr0.
Qed.

Lemma settled_after_transfer (rows : list UserBalance) (i : nat)
    (c c' : UserBalance) :
  rows !! i = Some c ->
  Forall (fun r => balance r <= 0) (take i rows) ->
  Forall (fun r => balance r <= 0)
         (take (if lessThanOrEqualTo (balance c') 0 then S i else i)
               (<[i := c']> rows)).
Proof.
  intros Ec H.
  assert (Hi : (i < length rows)%nat) by (eapply lookup_lt_Some; eassumption).
  destruct (lessThanOrEqualTo (balance c') 0) eqn:E.
  - rewrite (take_S_r _ i c') by now apply list_lookup_insert_eq.
    rewrite take_insert_ge by lia.
    apply Forall_app. split; [assumption|].
    constructor; [|constructor]. now apply lessThanOrEqualTo_true.
  - now rewrite take_insert_ge by lia.
Qed.

Lemma Inv_books_transfer (creditors0 debtors0 : list UserBalance)
    (credit debt : Q) :
  NoDup (userId <$> creditors0) -> NoDup (userId <$> debtors0) ->
  forall st c d,
    Inv_books creditors0 debtors0 credit debt st -> loop_cond st = true ->
    creditors st !! creditorIdx st = Some c ->
    debtors st !! debtorIdx st = Some d ->
    Inv_books creditors0 debtors0 credit debt (transfer st c d).
Proof.
  intros creditors0_NoDup debtors0_NoDup st c d.
  intros (Hcons & [Hcs Hds] & [Hsc Hsd]) C Ec Ed.
  split; [now apply Inv_conserve_transfer|].
  destruct Hcons as ([Hmc Hmd] & Hc0 & Hd0 & _).
  pose proof (Forall_lookup_1 _ _ _ _ Hmc Ec) as Cc.
  pose proof (Forall_lookup_1 _ _ _ _ Hmd Ed) as Cd.
  pose proof (Forall_lookup_1 _ _ _ _ Hc0 Ec) as Nc.
  pose proof (Forall_lookup_1 _ _ _ _ Hd0 Ed) as Nd.
  cbv beta in Cc, Cd, Nc, Nd.
  pose proof (Cents_Money _ Cc) as Mc. pose proof (Cents_Money _ Cd) as Md.
  assert (Ht : Money (min (balance c) (balance d))) by now apply Money_min.
  assert (Hle : min (balance c) (balance d) <= balance c
                /\ min (balance c) (balance d) <= balance d
                /\ 0 <= min (balance c) (balance d)).
  { destruct (min_cases (balance c) (balance d)) as [[-> ?] | [-> ?]];
      repeat split; lra. }
  destruct Hle as (Htc & Htd & Ht0).
  destruct (minus_transfer (balance c) _ Cc Ht Ht0 Htc) as (Ec' & _).
  destruct (minus_transfer (balance d) _ Cd Ht Ht0 Htd) as (Ed' & _).
  split; [split | split].
  - exact (rows_after_transfer creditors0 (creditors st) (creditorIdx st) c
             (min (balance c) (balance d))
             (fun u => received u (settlements st))
             (fun u => received u (settlements (transfer st c d)))
             creditors0_NoDup Ec Ec'
             (fun u => proj1 (transfer_books st c d u Mc Md Nc Nd)) Hcs).
  - exact (rows_after_transfer debtors0 (debtors st) (debtorIdx st) d
             (min (balance c) (balance d))
             (fun u => paid u (settlements st))
             (fun u => paid u (settlements (transfer st c d)))
             debtors0_NoDup Ed Ed'
             (fun u => proj2 (transfer_books st c d u Mc Md Nc Nd)) Hds).
  - unfold transfer. cbn [creditors creditorIdx].
    now apply settled_after_transfer with (c := c).
  - unfold transfer. cbn [debtors debtorIdx].
    now apply settled_after_transfer with (c := d).
Qed.

Lemma NoDup_filter_userId (f : UserBalance -> bool) (balances : list UserBalance) :
  NoDup (map userId balances) -> NoDup (map userId (List.filter f balances)).
Proof.
  induction balances as [|b bs IH]; cbn [map List.filter]; [constructor|].
  intros [Hnin Hnd]%NoDup_cons. destruct (f b); [|auto].
  cbn [map]. apply NoDup_cons. split; [|auto].
  intros Hin. apply Hnin. apply list_elem_of_In in Hin.
  apply in_map_iff in Hin as (x & Hx & Hin). apply filter_In in Hin as [Hin _].
  apply list_elem_of_In, in_map_iff. eauto.
Qed.

Lemma creditors_NoDup (balances : list UserBalance) :
  NoDup (map userId balances) ->
  NoDup (userId <$> Array_sort sortByBalance (creditors_of balances)).
Proof.
  intros Hnd. rewrite Array_sort_Permutation. unfold creditors_of.
  change (NoDup (map userId (map (fun b => {| userId := userId b; balance := balance b |})
                    (List.filter (fun b => greaterThan (balance b) 0) balances)))).
  rewrite map_map. cbn [userId]. now apply NoDup_filter_userId.
Qed.

Lemma debtors_NoDup (balances : list UserBalance) :
  NoDup (map userId balances) ->
  NoDup (userId <$> Array_sort sortByBalance (debtors_of balances)).
Proof.
  intros Hnd. rewrite Array_sort_Permutation. unfold debtors_of.
  change (NoDup (map userId (map (fun b => {| userId := userId b;
                                             balance := abs (balance b) |})
                    (List.filter (fun b => lessThan (balance b) 0) balances)))).
  rewrite map_map. cbn [userId]. now apply NoDup_filter_userId.
Qed.

Lemma Forall2_diag {A} (P : A -> A -> Prop) (l : list A) :
  (forall x, P x x) -> Forall2 P l l.
Proof. intros H. induction l; constructor; auto. Qed.

(** The state the loop ends in, for whole cents that 20 digits hold and
    one entry per user. *)
Lemma simplifyBalances_accounts (balances : list UserBalance) :
  NoDup (map userId balances) ->
  Forall (fun b => Cents (balance b)) balances ->
  exists st,
    simplifyBalances balances = Some (settlements st)
    /\ Inv_books (Array_sort sortByBalance (creditors_of balances))
                 (Array_sort sortByBalance (debtors_of balances))
                 (sumBalances (creditors_of balances))
                 (sumBalances (debtors_of balances)) st
    /\ loop_cond st = false.
Proof.
  intros Hnd Hm.
  apply (simplifyBalances_rule _
           (Inv_books_transfer _ _ _ _ (creditors_NoDup _ Hnd) (debtors_NoDup _ Hnd))).
  split; [now apply Inv_conserve_initial|].
  rewrite initial_state_eq. split; split;
    cbn [creditors debtors creditorIdx debtorIdx settlements take];
    try constructor.
  - apply Forall2_diag. intros x. split; [reflexivity|].
    change (received (userId x) []) with 0. lra.
  - apply Forall2_diag. intros x. split; [reflexivity|].
    change (paid (userId x) []) with 0. lra.
Qed.

Lemma member_of_creditors (b : UserBalance) (balances : list UserBalance) :
  b ∈ balances -> 0 < balance b ->
  {| userId := userId b; balance := balance b |}
  ∈ Array_sort sortByBalance (creditors_of balances).
Proof.
  intros Hb Hpos. rewrite Array_sort_Permutation, list_elem_of_In.
  unfold creditors_of. apply in_map_iff. exists b. split; [reflexivity|].
  apply filter_In. split; [now apply list_elem_of_In|].
  now apply greaterThan_true.
Qed.

Lemma member_of_debtors (b : UserBalance) (balances : list UserBalance) :
  b ∈ balances -> balance b < 0 ->
  {| userId := userId b; balance := abs (balance b) |}
  ∈ Array_sort sortByBalance (debtors_of balances).
Proof.
  intros Hb Hneg. rewrite Array_sort_Permutation, list_elem_of_In.
  unfold debtors_of. apply in_map_iff. exists b. split; [reflexivity|].
  apply filter_In. split; [now apply list_elem_of_In|].
  now apply lessThan_true.
Qed.

Lemma received_of_others (u : string) (out : list Settlement) :
  Forall (fun s => toUserId s <> u) out -> received u out == 0.
Proof.
  induction 1 as [|s l Hs _ IH]; [reflexivity|].
  cbn [received foldr]. fold (received u l).
  destruct (decide (toUserId s = u)); [contradiction | lra].
Qed.

Lemma paid_by_others (u : string) (out : list Settlement) :
  Forall (fun s => fromUserId s <> u) out -> paid u out == 0.
Proof.
  induction 1 as [|s l Hs _ IH]; [reflexivity|].
  cbn [paid foldr]. fold (paid u l).
  destruct (decide (fromUserId s = u)); [contradiction | lra].
Qed.

(** The books of one user when the loop has ended: a creditor has paid
    nothing, and what they have received and what is still open make up their
    balance; a debtor likewise; a settled user is in no transfer. *)
Lemma final_books (balances : list UserBalance) :
  NoDup (map userId balances) ->
  Forall (fun b => Cents (balance b)) balances ->
  exists st,
    simplifyBalances balances = Some (settlements st)
    /\ Inv_conserve (sumBalances (creditors_of balances))
                    (sumBalances (debtors_of balances)) st
    /\ Inv_settled st
    /\ loop_cond st = false
    /\ forall b, b ∈ balances ->
         (0 < balance b ->
          paid (userId b) (settlements st) == 0
          /\ exists r, r ∈ creditors st
               /\ received (userId b) (settlements st) + balance r == balance b)
         /\ (balance b < 0 ->
             received (userId b) (settlements st) == 0
             /\ exists r, r ∈ debtors st
                  /\ paid (userId b) (settlements st) + balance r == - balance b)
         /\ (balance b == 0 ->
             received (userId b) (settlements st) == 0
             /\ paid (userId b) (settlements st) == 0).
Proof.
  intros Hnd Hm.
  destruct (simplifyBalances_accounts balances Hnd Hm)
    as (st & E & (Hcons & [Hcs Hds] & Hset) & C).
  exists st. repeat (split; [assumption|]).
  destruct (simplifyBalances_users balances) as (out & E' & Hus).
  rewrite E in E'. injection E' as <-. rewrite Forall_forall in Hus.
  assert (Hnotc : forall b, b ∈ balances -> balance b <= 0 ->
            received (userId b) (settlements st) == 0).
  { intros b Hb Hle. apply received_of_others, Forall_forall. intros s Hs Heq.
    destruct (Hus s Hs) as [Hto _]. rewrite Heq in Hto.
    apply creditor_id in Hto as (b' & Hb' & Hu & Hpos).
    assert (b' = b) by (apply (unique_by_userId balances); assumption).
    subst b'. lra. }
  assert (Hnotd : forall b, b ∈ balances -> 0 <= balance b ->
            paid (userId b) (settlements st) == 0).
  { intros b Hb Hle. apply paid_by_others, Forall_forall. intros s Hs Heq.
    destruct (Hus s Hs) as [_ Hfrom]. rewrite Heq in Hfrom.
    apply debtor_id in Hfrom as (b' & Hb' & Hu & Hneg).
    assert (b' = b) by (apply (unique_by_userId balances); assumption).
    subst b'. lra. }
  intros b Hb. split; [|split].
  - intros Hpos. split; [apply Hnotd; [assumption | lra]|].
    pose proof (member_of_creditors b balances Hb Hpos) as Hin.
    apply list_elem_of_lookup_1 in Hin as [j Hj].
    destruct (Forall2_lookup_l _ _ _ _ _ Hcs Hj) as (r & Hr & _ & Hbooks).
    exists r. split; [eapply list_elem_of_lookup_2; eassumption | exact Hbooks].
  - intros Hneg. split; [apply Hnotc; [assumption | lra]|].
    pose proof (member_of_debtors b balances Hb Hneg) as Hin.
    apply list_elem_of_lookup_1 in Hin as [j Hj].
    destruct (Forall2_lookup_l _ _ _ _ _ Hds Hj) as (r & Hr & _ & Hbooks).
    exists r. split; [eapply list_elem_of_lookup_2; eassumption|].
    cbn [userId balance] in Hbooks. unfold abs in Hbooks.
    rewrite (Qabs_neg (balance b)) in Hbooks by lra. exact Hbooks.
  - intros Hz. split; [apply Hnotc | apply Hnotd]; (assumption || lra).
Qed.

(** X11.  For whole cents below [10^18] in absolute value and one entry
    per user, nobody receives more than they are owed and nobody pays
    more than they owe; a creditor pays nothing and a debtor receives
    nothing. *)
Theorem never_over_settles (balances : list UserBalance) :
  NoDup (map userId balances) ->
  Forall (fun b => Cents (balance b)) balances ->
  exists out,
    simplifyBalances balances = Some out
    /\ forall b, b ∈ balances ->
         (0 <= balance b ->
          paid (userId b) out == 0 /\ received (userId b) out <= balance b)
         /\ (balance b <= 0 ->
             received (userId b) out == 0 /\ paid (userId b) out <= - balance b).
Proof.
  intros Hnd Hm.
  destruct (final_books balances Hnd Hm)
    as (st & E & (_ & Hc0 & Hd0 & _) & _ & _ & Hb).
  exists (settlements st). split; [assumption|]. intros b Hin.
  destruct (Hb b Hin) as (Hpos & Hneg & Hzero).
  rewrite Forall_forall in Hc0, Hd0.
  split; intros Hsign.
  - destruct (Qlt_le_dec 0 (balance b)) as [Hlt | Hle].
    + destruct (Hpos Hlt) as (Hp & r & Hr & Hbooks).
      specialize (Hc0 r Hr). cbv beta in Hc0. split; [assumption | lra].
    + destruct Hzero as [Hr Hp]; [lra|]. split; [assumption | lra].
  - destruct (Qlt_le_dec (balance b) 0) as [Hlt | Hle].
    + destruct (Hneg Hlt) as (Hrc & r & Hr & Hbooks).
      specialize (Hd0 r Hr). cbv beta in Hd0. split; [assumption | lra].
    + destruct Hzero as [Hr Hp]; [lra|]. split; [assumption | lra].
Qed.

Lemma two_and_two_NoDup : NoDup (map userId two_and_two).
Proof.
  vm_compute. repeat constructor; rewrite ?list_elem_of_In; cbn;
    intuition discriminate.
Qed.

Lemma never_over_settles_witness :
  exists out,
    simplifyBalances two_and_two = Some out
    /\ received "creditor1" out <= 30.
Proof.
  destruct (never_over_settles two_and_two two_and_two_NoDup two_and_two_Cents)
    as (out & E & H).
  exists out. split; [exact E|].
  destruct (H (ub "creditor1" 30)) as [[_ Hr] _].
  - left.
  - vm_compute. discriminate.
  - exact Hr.
Defined.

Lemma books_balance_out (balances : list UserBalance) :
  NoDup (map userId balances) ->
  Forall (fun b => Cents (balance b)) balances ->
  sumBalances balances == 0 ->
  exists out,
    simplifyBalances balances = Some out
    /\ forall b, b ∈ balances ->
         received (userId b) out - paid (userId b) out == balance b.
Proof.
  intros Hnd Hm Hzero.
  destruct (final_books balances Hnd Hm)
    as (st & E & (_ & Hc0 & Hd0 & Hcredit & Hdebt) & [Hsc Hsd] & C & Hb).
  exists (settlements st). split; [assumption|].
  pose proof (sumBalances_split balances) as Hsplit.
  pose proof (sumBalances_nonneg _ (Forall_drop _ (creditorIdx st) _ Hc0)) as Hrc.
  pose proof (sumBalances_nonneg _ (Forall_drop _ (debtorIdx st) _ Hd0)) as Hrd.
  assert (Hopen : sumBalances (drop (creditorIdx st) (creditors st)) == 0
                  /\ sumBalances (drop (debtorIdx st) (debtors st)) == 0).
  { apply loop_cond_false in C as [C | C];
      apply sumBalances_nil_after in C; split; lra. }
  destruct Hopen as [Hoc Hod].
  assert (Hallc : Forall (fun r => balance r == 0) (creditors st)).
  { rewrite <- (take_drop (creditorIdx st) (creditors st)).
    apply Forall_app. split.
    - pose proof (Forall_take _ (creditorIdx st) _ Hc0) as Hn.
      rewrite Forall_forall in Hsc, Hn. apply Forall_forall. intros r Hr.
      specialize (Hsc r Hr). specialize (Hn r Hr). cbv beta in Hsc, Hn. lra.
    - apply sumBalances_zero; [now apply Forall_drop | assumption]. }
  assert (Halld : Forall (fun r => balance r == 0) (debtors st)).
  { rewrite <- (take_drop (debtorIdx st) (debtors st)).
    apply Forall_app. split.
    - pose proof (Forall_take _ (debtorIdx st) _ Hd0) as Hn.
      rewrite Forall_forall in Hsd, Hn. apply Forall_forall. intros r Hr.
      specialize (Hsd r Hr). specialize (Hn r Hr). cbv beta in Hsd, Hn. lra.
    - apply sumBalances_zero; [now apply Forall_drop | assumption]. }
  rewrite Forall_forall in Hallc, Halld.
  intros b Hin. destruct (Hb b Hin) as (Hpos & Hneg & Hz).
  destruct (Qlt_le_dec 0 (balance b)) as [Hlt | Hle].
  - destruct (Hpos Hlt) as (Hp & r & Hr & Hbooks).
    specialize (Hallc r Hr). cbv beta in Hallc. lra.
  - destruct (Qlt_le_dec (balance b) 0) as [Hlt | Hge].
    + destruct (Hneg Hlt) as (Hrc' & r & Hr & Hbooks).
      specialize (Halld r Hr). cbv beta in Halld. lra.
    + destruct Hz as [Hr Hp]; lra.
Qed.

(** X12.  For whole cents below [10^18] in absolute value that sum to
    zero, one entry per user, the transfers settle everybody: what a user
    receives less what they pay is their balance. *)
Theorem settles_everyone (balances : list UserBalance) :
  NoDup (map userId balances) ->
  Forall (fun b => Cents (balance b)) balances ->
  sumBalances balances == 0 ->
  exists out,
    simplifyBalances balances = Some out
    /\ forall b, b ∈ balances ->
         received (userId b) out - paid (userId b) out == balance b.
Proof. exact (books_balance_out balances). Qed.

Lemma settles_everyone_witness :
  exists out,
    simplifyBalances two_and_two = Some out
    /\ received "debtor2" out - paid "debtor2" out == -25.
Proof.
  destruct (settles_everyone two_and_two two_and_two_NoDup two_and_two_Cents)
    as (out & E & H).
  - vm_compute. reflexivity.
  - exists out. split; [exact E|].
    apply (H (ub "debtor2" (-25))). right. right. right. left.
Defined.

End SimplifierExtras.

(** * The balances handler *)

Section LedgerFacts.
Import Decimal BalanceSimplifier Accounts Ledger.




End LedgerFacts.

Section LedgerTheorems.
Import Decimal BalanceSimplifier Accounts Ledger.



End LedgerTheorems.
(** * The copy of the balances map *)

Section NetBalancesFacts.
Import BalanceSimplifier NetBalances.

Lemma Map_set_fresh (key : string) (value : Q) (m : JSMap) :
  key ∉ map fst m -> Map_set key value m = m ++ [(key, value)].
Proof.
  induction m as [|[k v] m IH]; cbn [Map_set map fst app]; [reflexivity|].
  rewrite not_elem_of_cons. intros [Hne Hnin].
  destruct (decide (k = key)); [congruence|]. now rewrite IH.
Qed.

Lemma copy_entries (m : JSMap) :
  forall acc : JSMap,
    NoDup (map fst (acc ++ m)) ->
    foldl (fun netBalances '(userId, balance) =>
             Map_set userId balance netBalances) acc m
    = acc ++ m.
Proof.
  induction m as [|[k v] m IH]; intros acc Hnd; cbn [foldl].
  - now rewrite app_nil_r.
  - assert (Hk : k ∉ map fst acc).
    { rewrite map_app in Hnd. apply NoDup_app in Hnd as (_ & Hdisj & _).
      intros Hin. apply (Hdisj k Hin). cbn [map fst]. left. }
    rewrite (Map_set_fresh k v acc Hk).
    rewrite IH; rewrite <- app_assoc; [reflexivity | exact Hnd].
Qed.

Lemma two_entries_NoDup :
  NoDup (map fst [("A", 5); ("B", -5)] : list string).
Proof.
  cbn [map fst]. repeat constructor; rewrite ?list_elem_of_In; cbn;
    intuition discriminate.
Qed.

(** X20.  A map holds each key once, so the copy made entry by entry is
    the map itself: one row per entry, in the order of the entries, with
    the balance of the entry; nothing is added up. *)
Theorem calculateNetBalances_rows (pairwiseBalances : JSMap) :
  NoDup (map fst pairwiseBalances) ->
  calculateNetBalances pairwiseBalances
  = map (fun entry => {| userId := fst entry; balance := snd entry |})
        pairwiseBalances.
Proof.
  intros Hnd. unfold calculateNetBalances. cbv zeta.
  rewrite (copy_entries pairwiseBalances [] Hnd). cbn [app].
  apply map_ext. now intros [k v].
Qed.

Lemma calculateNetBalances_rows_witness :
  calculateNetBalances [("A", 5); ("B", -5)]
  = [ {| userId := "A"; balance := 5 |}; {| userId := "B"; balance := -5 |} ].
Proof.
  exact (calculateNetBalances_rows [("A", 5); ("B", -5)] two_entries_NoDup).
Defined.

End NetBalancesFacts.
